(** * micrograd: a scalar reverse-mode autodiff engine

    Shallow embedding of the package [micrograd]: [value.py], [neuron.py],
    [layer.py], [mlp.py], [utils.py] and the traversal of [draw.py].

    Modelling conventions.
    - Python floats are idealised as real numbers ([R]): rounding,
      infinities and NaN are outside the model.  Where Python raises
      OverflowError for a result beyond the float range, in [**] and in
      [math.exp], the model raises it too; the other float operations never
      raise, and a result of theirs beyond the range is kept as the real
      number it is.  The concrete inputs used below are small integers and
      dyadic fractions, on which the float and the real arithmetic agree.
    - [Value] objects live in a heap (a list indexed by allocation order); a
      reference is the index of the object.  Attributes that hold objects hold
      references, so sharing (one node used as operand of several nodes) and
      in-place mutation of [grad] and [val] are modelled as the code has them.
    - A Python [set] of nodes is kept as the list of its elements in the
      iteration order of that set object.  The order Python picks depends on
      object addresses; wherever the code builds a set the model takes the
      order as an extra argument, and every theorem holds for all orders.
    - The per-node [backward] closure is a constructor of [Backward] carrying
      exactly the variables the closure captures.
    - Exceptions are the [Raise] outcome of [result]; the heap at the moment of
      the raise is not tracked.  Python's bounded recursion depth is the
      [limit] argument of the recursive methods: running out of it is
      [RecursionError]. *)

From Stdlib Require Import Reals Lra.
From stdpp Require Import gmap strings list pretty.

(** ** Exceptions and outcomes *)

Inductive exn :=
| ZeroDivisionError
| AssertionError
| RecursionError
| OverflowError
| ComplexResult.
(* The first four are exceptions of Python.  [ComplexResult] is not: for a
   negative base raised to a fractional power Python raises nothing and goes
   on with a complex number, which the float attribute [val] does not admit.
   The model has no complex numbers and stops there with this marker.  No
   property below concludes it, and none takes it for an exception: what is
   proved of an evaluation is proved for [Ok] and for the four exceptions. *)

Inductive result (A : Type) :=
| Ok (a : A)
| Raise (e : exn).
Arguments Ok {A} a.
Arguments Raise {A} e.

Global Instance result_ret : MRet result := fun A a => Ok a.
Global Instance result_bind : MBind result := fun A B f m =>
  match m with
  | Ok a => f a
  | Raise e => Raise e
  end.

Fixpoint foldM {A B : Type} (f : B -> A -> result B) (b : B) (l : list A)
  : result B :=
  match l with
  | [] => Ok b
  | a :: l' => b' ← f b a; foldM f b' l'
  end.

Fixpoint forM {A B : Type} (f : A -> result B) (l : list A) : result (list B) :=
  match l with
  | [] => Ok []
  | a :: l' => b ← f a; bs ← forM f l'; Ok (b :: bs)
  end.

(** ** Host arithmetic *)

(** The largest finite float, [sys.float_info.max]. *)
Definition float_max : R := ((2 - / 2 ^ 52) * 2 ^ 1023)%R.
Arguments float_max : simpl never.

(** The host's [pow] and [exp] report a range error when their result is too
    large for a float, and Python raises OverflowError for it.  With floats
    idealised as reals, that is a result beyond [float_max] in magnitude; a
    result too small for a float is no error. *)
Definition range_checked (r : R) : result R :=
  if Rlt_dec float_max (Rabs r) then Raise OverflowError else Ok r.

Definition math_exp (x : R) : result R := range_checked (Rtrigo_def.exp x).
Definition math_tanh (x : R) : R := Rtrigo_def.tanh x.

(** [x ** y] on floats, as CPython's [float_pow] decides its cases: [x ** 0]
    is 1, [0 ** y] is 0 or ZeroDivisionError, a negative base needs an
    integral exponent, and the result of the host's [pow] is checked for its
    range. *)
Definition py_pow (x y : R) : result R :=
  if Req_dec_T y 0 then Ok 1%R
  else if Req_dec_T x 0 then
    (if Rlt_dec y 0 then Raise ZeroDivisionError else Ok 0%R)
  else if Rlt_dec 0 x then range_checked (Rpower x y)
  else if Req_dec_T y (IZR (Int_part y)) then
    range_checked (powerRZ x (Int_part y))
  else Raise ComplexResult.

(** [sum(xs)] and [math.prod(xs)]. *)
Definition py_sum (xs : list R) : R := foldl Rplus 0%R xs.
Definition py_prod (xs : list R) : R := foldl Rmult 1%R xs.

(** [x / y] on floats. *)
Definition py_div (x y : R) : result R :=
  if Req_dec_T y 0 then Raise ZeroDivisionError else Ok (x / y)%R.

(** A [dict] with string keys, in insertion order: assigning to a key that is
    present replaces its value and keeps its place. *)
Fixpoint dict_set {V : Type} (k : string) (v : V) (d : list (string * V))
  : list (string * V) :=
  match d with
  | [] => [(k, v)]
  | (k', v') :: d =>
      if decide (k' = k) then (k, v) :: d else (k', v') :: dict_set k v d
  end.

(** The module-level functions of [value.py]. *)
Module value.
Definition sigmoid (x : R) : result R :=
  e ← math_exp (- x);
  Ok (1 / (1 + e))%R.

Definition relu (x : R) : R := Rmax 0 x.
End value.

(** ** Nodes and the heap *)

Abbreviation ref := nat.

Module OP.
Inductive t := add | mul | pow | abs | sigmoid | tanh | relu | exp.
End OP.

(** The closures installed as [backward], with their captured variables. *)
Inductive Backward :=
| bw_default
| bw_add (self other out : ref)
| bw_mul (self other out : ref)
| bw_abs (self out : ref)
| bw_pow (self : ref) (other : R) (out : ref)
| bw_sigmoid (self : ref) (val : R) (out : ref)
| bw_tanh (self : ref) (val : R) (out : ref)
| bw_relu (self : ref) (val : R) (out : ref)
| bw_exp (self out : ref).

Module Value.

Record t := mk {
  val : R;
  label : option string;
  grad : R;
  children : list ref;
  op : option OP.t;
  backward : Backward
}.

Abbreviation heap := (list t).

Definition __init__ (val : R) (label : option string)
    (children : option (list ref)) (op : option OP.t) : t :=
  {| val := val; label := label; grad := 0;
     children := default [] children; op := op; backward := bw_default |}.

(** Attribute reads and writes through a reference. *)
Definition get {A} (f : t -> A) (d : A) (h : heap) (r : ref) : A :=
  match h !! r with
  | Some v => f v
  | None => d
  end.

Definition val_of : heap -> ref -> R := get val 0%R.
Definition grad_of : heap -> ref -> R := get grad 0%R.
Definition label_of : heap -> ref -> option string := get label None.
Definition children_of : heap -> ref -> list ref := get children [].
Definition op_of : heap -> ref -> option OP.t := get op None.
Definition backward_of : heap -> ref -> Backward := get backward bw_default.

Definition with_val (x : R) (v : t) : t :=
  {| val := x; label := label v; grad := grad v;
     children := children v; op := op v; backward := backward v |}.
Definition with_grad (g : R) (v : t) : t :=
  {| val := val v; label := label v; grad := g;
     children := children v; op := op v; backward := backward v |}.
Definition with_label (s : option string) (v : t) : t :=
  {| val := val v; label := s; grad := grad v;
     children := children v; op := op v; backward := backward v |}.
Definition with_backward (b : Backward) (v : t) : t :=
  {| val := val v; label := label v; grad := grad v;
     children := children v; op := op v; backward := b |}.

Definition set_val (h : heap) (r : ref) (x : R) : heap :=
  alter (with_val x) r h.
Definition set_grad (h : heap) (r : ref) (g : R) : heap :=
  alter (with_grad g) r h.
Definition set_label (h : heap) (r : ref) (s : option string) : heap :=
  alter (with_label s) r h.
Definition set_backward (h : heap) (r : ref) (b : Backward) : heap :=
  alter (with_backward b) r h.

(** Allocation of a fresh object. *)
Definition new (h : heap) (v : t) : heap * ref := (h ++ [v], length h).

(** [other if isinstance(other, Value) else Value(other)] *)
Definition coerce (h : heap) (other : ref + R) : heap * ref :=
  match other with
  | inl r => (h, r)
  | inr x => new h (__init__ x None None None)
  end.

(** The set literal [{self, other}]; [flip] is the iteration order. *)
Definition set2 (flip : bool) (self other : ref) : list ref :=
  if decide (self = other) then [self]
  else if flip then [other; self] else [self; other].

(** [Value.make]: one leaf per given number. *)
Definition make (h : heap) (vals : list R) : heap * list ref :=
  foldl (fun '(h, rs) x =>
           let '(h, r) := new h (__init__ x None None None) in
           (h, rs ++ [r]))
        (h, []) vals.

(** *** Math *)

Definition __add__ (flip : bool) (h : heap) (self : ref) (other : ref + R)
  : heap * ref :=
  let '(h, other) := coerce h other in
  let '(h, out) :=
    new h (__init__ (val_of h self + val_of h other) None
             (Some (set2 flip self other)) (Some OP.add)) in
  (set_backward h out (bw_add self other out), out).

Definition __radd__ := __add__.

Definition __mul__ (flip : bool) (h : heap) (self : ref) (other : ref + R)
  : heap * ref :=
  let '(h, other) := coerce h other in
  let '(h, out) :=
    new h (__init__ (val_of h self * val_of h other) None
             (Some (set2 flip self other)) (Some OP.mul)) in
  (set_backward h out (bw_mul self other out), out).

Definition __rmul__ := __mul__.

Definition __neg__ (flip : bool) (h : heap) (self : ref) : heap * ref :=
  __mul__ flip h self (inr (-1)%R).

(** [self + (-other)]: [-other] is a node when [other] is one, and a plain
    number otherwise.  [flips] are the orders of the two sets built. *)
Definition __sub__ (flips : bool * bool) (h : heap) (self : ref)
    (other : ref + R) : heap * ref :=
  match other with
  | inl o =>
      let '(h, n) := __neg__ (fst flips) h o in
      __add__ (snd flips) h self (inl n)
  | inr x => __add__ (snd flips) h self (inr (- x)%R)
  end.

Definition __rsub__ := __sub__.

Definition __abs__ (h : heap) (self : ref) : heap * ref :=
  let '(h, out) :=
    new h (__init__ (Rabs (val_of h self)) None (Some [self])
             (Some OP.abs)) in
  (set_backward h out (bw_abs self out), out).

Definition __pow__ (h : heap) (self : ref) (other : R)
  : result (heap * ref) :=
  v ← py_pow (val_of h self) other;
  let '(h, out) := new h (__init__ v None (Some [self]) (Some OP.pow)) in
  Ok (set_backward h out (bw_pow self other out), out).

(** [self * other**-1] *)
Definition __truediv__ (flip : bool) (h : heap) (self : ref)
    (other : ref + R) : result (heap * ref) :=
  match other with
  | inl o =>
      '(h, p) ← __pow__ h o (-1)%R;
      Ok (__mul__ flip h self (inl p))
  | inr x =>
      p ← py_pow x (-1)%R;
      Ok (__mul__ flip h self (inr p))
  end.

Definition sigmoid (h : heap) (self : ref) : result (heap * ref) :=
  val ← value.sigmoid (val_of h self);
  let '(h, out) :=
    new h (__init__ val None (Some [self]) (Some OP.sigmoid)) in
  Ok (set_backward h out (bw_sigmoid self val out), out).

Definition tanh (h : heap) (self : ref) : heap * ref :=
  let val := math_tanh (val_of h self) in
  let '(h, out) :=
    new h (__init__ val None (Some [self]) (Some OP.tanh)) in
  (set_backward h out (bw_tanh self val out), out).

Definition relu (h : heap) (self : ref) : heap * ref :=
  let val := value.relu (val_of h self) in
  let '(h, out) :=
    new h (__init__ val None (Some [self]) (Some OP.relu)) in
  (set_backward h out (bw_relu self val out), out).

Definition exp (h : heap) (self : ref) : result (heap * ref) :=
  v ← math_exp (val_of h self);
  let '(h, out) := new h (__init__ v None (Some [self]) (Some OP.exp)) in
  Ok (set_backward h out (bw_exp self out), out).

(** [self | "label"] *)
Definition __or__ (h : heap) (self : ref) (other : string) : heap * ref :=
  (set_label h self (Some other), self).

(** *** Backprop *)

(** [n.backward()]: running the closure stored in a node. *)
Definition call (b : Backward) (h : heap) : result heap :=
  match b with
  | bw_default => Ok h
  | bw_add self other out =>
      let h := set_grad h self (grad_of h self + grad_of h out) in
      Ok (set_grad h other (grad_of h other + grad_of h out))
  | bw_mul self other out =>
      let h := set_grad h self
                 (grad_of h self + val_of h other * grad_of h out) in
      Ok (set_grad h other
            (grad_of h other + val_of h self * grad_of h out))
  | bw_abs self out =>
      if Rlt_dec 0 (val_of h out) then
        Ok (set_grad h self (grad_of h out))
      else if Rlt_dec (val_of h out) 0 then
        Ok (set_grad h self (- grad_of h out))
      else Ok h
  | bw_pow self other out =>
      p ← py_pow (val_of h self) (other - 1);
      Ok (set_grad h self (grad_of h self + other * p * grad_of h out))
  | bw_sigmoid self val out =>
      Ok (set_grad h self (val * (1 - val) * grad_of h out))
  | bw_tanh self val out =>
      sq ← py_pow val 2;
      Ok (set_grad h self (grad_of h self + (1 - sq) * grad_of h out))
  | bw_relu self val out =>
      let pos := if Rlt_dec 0 val then 1%R else 0%R in
      Ok (set_grad h self (grad_of h self + pos * grad_of h out))
  | bw_exp self out =>
      Ok (set_grad h self (grad_of h self + val_of h out * grad_of h out))
  end.

(** The local function of [backprop]; its free variables [visited] and
    [topo] are threaded as a pair. *)
Fixpoint build_topo (limit : nat) (h : heap) (v : ref)
    (st : gset ref * list ref) : result (gset ref * list ref) :=
  match limit with
  | O => Raise RecursionError
  | S limit =>
      if decide (v ∈ st.1) then Ok st
      else
        st' ← foldM (fun st c => build_topo limit h c st)
                    (st.1 ∪ {[v]}, st.2) (children_of h v);
        Ok (st'.1, st'.2 ++ [v])
  end.

Definition backprop (limit : nat) (h : heap) (self : ref) : result heap :=
  let h := set_grad h self 1 in
  st ← build_topo limit h self (∅, []);
  foldM (fun h n => call (backward_of h n) h) h (reverse st.2).

(** [get_descendants]; the keyword argument is passed down and never read. *)
Fixpoint get_descendants (limit : nat) (h : heap) (self : ref)
    (include_leafs : bool) : result (gset ref) :=
  match limit with
  | O => Raise RecursionError
  | S limit =>
      foldM (fun acc c =>
               ds ← get_descendants limit h c include_leafs;
               Ok (acc ∪ ({[c]} ∪ ds)))
            ∅ (children_of h self)
  end.

(** [d.label if d.label else str(i)] *)
Definition key (h : heap) (i : nat) (d : ref) : string :=
  match label_of h d with
  | Some s => if decide (s = "") then pretty i else s
  | None => pretty i
  end.

(** The dict comprehension of [grad_dict] run over an enumeration [ds] of
    the descendants: later entries overwrite earlier ones with the same
    key. *)
Definition grad_entries (h : heap) (ds : list ref) : gmap string R :=
  foldl (fun d '(i, r) => <[key h i r := grad_of h r]> d) ∅
        (imap (fun i r => (i, r)) ds).

(** [grad_dict]; [iter] is the iteration order of the set returned by
    [get_descendants]. *)
Definition grad_dict (limit : nat) (iter : gset ref -> list ref)
    (h : heap) (self : ref) : result (gmap string R) :=
  descendants ← get_descendants limit h self false;
  Ok (grad_entries h (iter descendants)).

(** *** Naive backprop *)

Fixpoint recompute (limit : nat) (h : heap) (self : ref)
    (mod_ : option (gmap string R)) : result R :=
  match limit with
  | O => Raise RecursionError
  | S limit =>
      let new_val :=
        match mod_, label_of h self with
        | Some m, Some l => default (val_of h self) (m !! l)
        | _, _ => val_of h self
        end in
      match op_of h self with
      | None => Ok new_val
      | Some o =>
          recomputed_children ←
            forM (fun c => recompute limit h c mod_) (children_of h self);
          match o, recomputed_children with
          | OP.add, _ => Ok (py_sum recomputed_children)
          | OP.mul, _ => Ok (py_prod recomputed_children)
          | OP.abs, [] =>
              if Rlt_dec 0 new_val then Ok 1%R
              else if Rlt_dec new_val 0 then Ok (-1)%R
              else Ok 0%R
          | OP.pow, [c0; c1] => Ok ((c1 - 1) * c0)%R
          | OP.sigmoid, [_] => value.sigmoid (val_of h self)
          | OP.tanh, [_] => Ok (math_tanh (val_of h self))
          | OP.relu, [_] => Ok (value.relu (val_of h self))
          | OP.exp, [_] => math_exp (val_of h self)
          | _, _ => Raise AssertionError
          end
      end
  end.

(** [{d.label: d for d in descendants if d.label is not None}] *)
Definition descendant_dict (hp : heap) (descendants : list ref)
  : list (string * ref) :=
  foldl (fun dict d =>
           match label_of hp d with
           | Some l => dict_set l d dict
           | None => dict
           end)
        [] descendants.

(** [naive_backprop]; [iter] is the iteration order of the set returned by
    [get_descendants].  The dict is not changed inside the loop, so
    [descendant_dict[label]] is the [d] of the iteration. *)
Definition naive_backprop (limit : nat) (iter : gset ref -> list ref)
    (hp : heap) (self : ref) (h : R) : result heap :=
  let hp := set_grad hp self 1 in
  descendants ← get_descendants limit hp self true;
  foldM (fun hp '(label, d) =>
           let mod_ : gmap string R := {[ label := (val_of hp d + h)%R ]} in
           new_val ← recompute limit hp self (Some mod_);
           grad ← py_div (new_val - val_of hp self) h;
           Ok (set_grad hp d grad))
        hp (descendant_dict hp (iter descendants)).

End Value.

(** ** The network built on top of the engine *)

(** The constructors draw from the global random generator.  [rng k] is the
    [k]-th number [random.uniform(-1, 1)] returns; a [world] is the heap with
    the number of draws made so far. *)
Definition world : Type := Value.heap * nat.

(** [Value(random.uniform(-1, 1))] *)
Definition random_value (rng : nat -> R) (st : world) : world * ref :=
  let r := Value.new st.1 (Value.__init__ (rng st.2) None None None) in
  ((r.1, S st.2), r.2).

(** The comprehension [[f() for _ in range(n)]]. *)
Fixpoint comprehension {A : Type} (f : world -> world * A) (st : world)
    (n : nat) : world * list A :=
  match n with
  | O => (st, [])
  | S n =>
      let r := f st in
      let rs := comprehension f r.1 n in
      (rs.1, r.2 :: rs.2)
  end.

(** The comprehension [[f(a) for a in l]] for an [f] that allocates. *)
Fixpoint for_each {A B : Type} (f : Value.heap -> A -> Value.heap * B)
    (h : Value.heap) (l : list A) : Value.heap * list B :=
  match l with
  | [] => (h, [])
  | a :: l =>
      let r := f h a in
      let rs := for_each f r.1 l in
      (rs.1, r.2 :: rs.2)
  end.

(** The forward pass builds operand sets of nodes it has just made;
    [order self other] is the iteration order of the set [{self, other}]. *)
Definition add (order : ref -> ref -> bool) (h : Value.heap) (self : ref)
    (other : ref + R) : Value.heap * ref :=
  Value.__add__ (order self (Value.coerce h other).2) h self other.

Definition mul (order : ref -> ref -> bool) (h : Value.heap) (self : ref)
    (other : ref + R) : Value.heap * ref :=
  Value.__mul__ (order self (Value.coerce h other).2) h self other.

Module Neuron.
Record t := mk { w : list ref; b : ref }.

Definition __init__ (rng : nat -> R) (st : world) (n_in : nat) : world * t :=
  let ws := comprehension (random_value rng) st n_in in
  let b := random_value rng ws.1 in
  (b.1, {| w := ws.2; b := b.2 |}).

(** [sum((w * x for w, x in zip(self.w, xs)), self.b).tanh()]: [sum] starts
    from [self.b] and adds the products one by one, each product being made
    when [sum] asks the generator for it. *)
Definition __call__ (order : ref -> ref -> bool) (h : Value.heap) (self : t)
    (xs : list ref) : Value.heap * ref :=
  let '(h, total) :=
    foldl (fun '(h, total) '(w, x) =>
             let '(h, wx) := mul order h w (inl x) in
             add order h total (inl wx))
          (h, b self) (zip (w self) xs) in
  Value.tanh h total.

Definition parameters (self : t) : list ref := w self ++ [b self].
End Neuron.

Module Layer.
Record t := mk { neurons : list Neuron.t }.

Definition __init__ (rng : nat -> R) (st : world) (d_in d_out : nat)
  : world * t :=
  let ns := comprehension (fun st => Neuron.__init__ rng st d_in) st d_out in
  (ns.1, {| neurons := ns.2 |}).

Definition __call__ (order : ref -> ref -> bool) (h : Value.heap) (self : t)
    (xs : list ref) : Value.heap * list ref :=
  for_each (fun h n => Neuron.__call__ order h n xs) h (neurons self).

Definition parameters (self : t) : list ref :=
  concat (map Neuron.parameters (neurons self)).
End Layer.

Module MLP.
Record t := mk {
  layer_in : Layer.t;
  layers_hidden : list Layer.t;
  layer_out : Layer.t
}.

Definition __init__ (rng : nat -> R) (st : world)
    (d_in d_hidden n_hidden d_out : nat) : world * t :=
  let l_in := Layer.__init__ rng st d_in d_hidden in
  let hidden :=
    comprehension (fun st => Layer.__init__ rng st d_hidden d_hidden)
                  l_in.1 n_hidden in
  let l_out := Layer.__init__ rng hidden.1 d_hidden d_out in
  (l_out.1, {| layer_in := l_in.2; layers_hidden := hidden.2;
               layer_out := l_out.2 |}).

Definition layers (self : t) : list Layer.t :=
  layer_in self :: layers_hidden self ++ [layer_out self].

Definition __call__ (order : ref -> ref -> bool) (h : Value.heap) (self : t)
    (xs : list ref) : Value.heap * list ref :=
  foldl (fun '(h, xs) layer => Layer.__call__ order h layer xs)
        (h, xs) (layers self).

Definition batch_call (order : ref -> ref -> bool) (h : Value.heap)
    (self : t) (xs : list (list ref)) : Value.heap * list (list ref) :=
  for_each (fun h x => __call__ order h self x) h xs.

Definition parameters (self : t) : list ref :=
  concat (map Layer.parameters (layers self)).

(** [sum((y - pred) ** 2 for y, pred in zip(ys, preds))].  With [y] a float,
    [y - pred] is [pred.__rsub__(y)]; [sum] starts from the int 0, and
    [0 + term] is [term.__radd__(0)].  The result is the number 0, not a node,
    when there is no pair. *)
Definition compute_loss (order : ref -> ref -> bool) (h : Value.heap)
    (ys : list R) (preds : list ref) : result (Value.heap * (ref + R)) :=
  foldM (fun '(h, total) '(y, pred) =>
           let '(h, diff) :=
             Value.__rsub__ (order pred (length h), order pred (length h))
               h pred (inr y) in
           '(h, term) ← Value.__pow__ h diff 2;
           let '(h, total) :=
             match total with
             | inr n => Value.__radd__ (order term (length h)) h term (inr n)
             | inl total => add order h total (inl term)
             end in
           Ok (h, inl total))
        (h, inr 0%R) (zip ys preds).

(** One iteration of the loop of [step]: [assert p.grad] and the update. *)
Definition update (lr : R) (h : Value.heap) (p : ref)
  : result Value.heap :=
  if Req_dec_T (Value.grad_of h p) 0 then Raise AssertionError
  else Ok (Value.set_val h p
             (Value.val_of h p - lr * Value.grad_of h p)).

Definition step (limit : nat) (self : t) (h : Value.heap) (loss : ref)
    (lr : R) : result Value.heap :=
  h ← Value.backprop limit h loss;
  foldM (update lr) h (parameters self).

Definition zero_grad (self : t) (h : Value.heap) : Value.heap :=
  foldl (fun h p => Value.set_grad h p 0) h (parameters self).
End MLP.

(** ** [micrograd/utils.py] *)

Module utils.
(** [deriv]; [f] is a function on floats, [x] a node or a number. *)
Definition deriv (f : R -> R) (hp : Value.heap) (x : ref + R) (h : R)
  : result R :=
  let x :=
    match x with
    | inl r => Value.val_of hp r
    | inr x => x
    end in
  let y := f x in
  let y_hat_plus := Rabs (y - f (x + h))%R in
  let y_hat_minus := Rabs (y - f (x - h))%R in
  py_div (y_hat_plus + y_hat_minus) (2 * h).

(** [reduce(add, xs, [])] *)
Definition flatten {T : Type} (xs : list (list T)) : list T :=
  foldl (fun acc x => acc ++ x) [] xs.
End utils.

(** ** [micrograd/draw.py] *)

Module draw.
(** The local function of [trace]; its free variables [nodes] and [edges]
    are threaded as a pair. *)
Fixpoint build (limit : nat) (h : Value.heap) (v : ref)
    (st : gset ref * gset (ref * ref)) : result (gset ref * gset (ref * ref)) :=
  match limit with
  | O => Raise RecursionError
  | S limit =>
      if decide (v ∈ st.1) then Ok st
      else
        foldM (fun st child =>
                 build limit h child (st.1, st.2 ∪ {[(child, v)]}))
              (st.1 ∪ {[v]}, st.2) (Value.children_of h v)
  end.

Definition trace (limit : nat) (h : Value.heap) (root : ref)
  : result (gset ref * gset (ref * ref)) :=
  build limit h root (∅, ∅).
End draw.
(** ** Specification-level definitions *)

Global Instance result_fmap : FMap result := fun A B f m =>
  match m with
  | Ok a => Ok (f a)
  | Raise e => Raise e
  end.

(** The value stored in the node a builder returns. *)
Definition out_val (r : Value.heap * ref) : R := Value.val_of r.1 r.2.

(** The heap holding one fresh leaf per number, in allocation order. *)
Definition leaves (vals : list R) : Value.heap := (Value.make [] vals).1.

(** *** What a call leaves untouched *)

(** [frame n h h']: the heap [h'] has every object of [h] with all its
    attributes as they were, and [n] freshly allocated objects after them. *)
Definition frame (n : nat) (h h' : Value.heap) : Prop :=
  (forall i, i < length h -> h' !! i = h !! i) /\ length h' = length h + n.

Definition frame_result (n : nat) (h : Value.heap)
    (r : result (Value.heap * ref)) : Prop :=
  match r with
  | Ok (h', _) => frame n h h'
  | Raise _ => True
  end.

(** Number of constant leaves a builder allocates for its right operand. *)
Definition promoted (other : ref + R) : nat :=
  match other with
  | inl _ => 0
  | inr _ => 1
  end.

(** *** The operand graph *)

(** [child h p c]: node [c] is in the operand set of node [p]. *)
Definition child (h : Value.heap) (p c : ref) : Prop :=
  c ∈ Value.children_of h p.

(** Nodes reachable from [root] by following operand references, [root]
    included, and the strict descendants (at least one reference followed). *)
Definition reachable (h : Value.heap) : relation ref := rtc (child h).
Definition descendant (h : Value.heap) : relation ref := tc (child h).

(** A graph is acyclic exactly when its nodes can be ranked so that every
    operand ranks below its consumer. *)
Definition acyclic_by (rank : ref -> nat) (h : Value.heap) : Prop :=
  forall p c, child h p c -> rank c < rank p.

(** [before l a b]: [a] occurs in [l] at a smaller position than [b]. *)
Definition before (l : list ref) (a b : ref) : Prop :=
  exists i j, l !! i = Some a /\ l !! j = Some b /\ i < j.

(** Operands first: no repetition, and the operands of every listed node
    are listed before it. *)
Definition topo_ok (h : Value.heap) (topo : list ref) : Prop :=
  NoDup topo /\
  forall i p c, topo !! i = Some p -> child h p c ->
    exists j, j < i /\ topo !! j = Some c.

(** Consumers first: the order in which [backprop] runs the backward rules. *)
Inductive parents_first (h : Value.heap) : list ref -> Prop :=
| parents_first_nil : parents_first h []
| parents_first_cons n l :
    n ∉ l ->
    (forall c, child h n c -> c ∈ l) ->
    parents_first h l ->
    parents_first h (n :: l).

(** The only consumer of [v] in the graph of [root] is [root] itself. *)
Definition consumed_by_root_only (h : Value.heap) (root v : ref) : Prop :=
  forall p, reachable h root p -> child h p v -> p = root.

(** [iter] lists every set without repetition: an iteration order. *)
Definition enumerates (iter : gset ref -> list ref) : Prop :=
  forall s : gset ref, NoDup (iter s) /\ forall x, x ∈ iter s <-> x ∈ s.

(** *** Invariants of the two traversals *)

(** What one call of [build_topo] on [v] does to [(visited, topo)].  The
    nodes in [visited] that are not yet in [topo] are the callers still on
    the stack; all of them rank above [v]. *)
Definition call_spec (h : Value.heap) (rank : ref -> nat) (limit : nat)
  : Prop :=
  forall v (vis : gset ref) (topo : list ref),
    rank v < limit ->
    (forall x, x ∈ topo -> x ∈ vis) ->
    (forall u, u ∈ vis -> u ∉ topo -> rank v < rank u) ->
    topo_ok h topo ->
    exists vis' new,
      Value.build_topo limit h v (vis, topo) = Ok (vis', topo ++ new) /\
      (forall x, x ∈ vis' <-> x ∈ vis \/ x ∈ new) /\
      (forall x, x ∈ new -> x ∉ vis) /\
      v ∈ topo ++ new /\
      topo_ok h (topo ++ new) /\
      (forall x, x ∈ new -> reachable h v x).

(** One call of [get_descendants] returns the strict descendants. *)
Definition descendants_spec (h : Value.heap) (rank : ref -> nat)
    (include_leafs : bool) (limit : nat) : Prop :=
  forall v, rank v < limit ->
    exists s : gset ref,
      Value.get_descendants limit h v include_leafs = Ok s /\
      forall x, x ∈ s <-> descendant h v x.

(** *** Graphs made by the builders *)

(** A closure with an accumulating rule ([+=]); the rules of [__abs__] and
    [sigmoid] assign instead. *)
Definition accumulates (b : Backward) : Prop :=
  match b with
  | bw_abs _ _ | bw_sigmoid _ _ _ => False
  | _ => True
  end.

(** The shape a constructor or builder gives to node [i]: the closure knows
    its own node as [out], its operands were allocated earlier, the operand set
    holds exactly the operands, and the tag names the operation. *)
Definition node_shape (h : Value.heap) (i : ref) : Prop :=
  let unary (self out : ref) (o : OP.t) :=
    out = i /\ self < i /\ Value.op_of h i = Some o /\
    Value.children_of h i = [self] in
  let binary (self other out : ref) (o : OP.t) :=
    out = i /\ self < i /\ other < i /\ Value.op_of h i = Some o /\
    exists flip, Value.children_of h i = Value.set2 flip self other in
  match Value.backward_of h i with
  | bw_default => Value.op_of h i = None /\ Value.children_of h i = []
  | bw_add self other out => binary self other out OP.add
  | bw_mul self other out => binary self other out OP.mul
  | bw_abs self out => unary self out OP.abs
  | bw_pow self _ out => unary self out OP.pow
  | bw_sigmoid self _ out => unary self out OP.sigmoid
  | bw_tanh self _ out => unary self out OP.tanh
  | bw_relu self _ out => unary self out OP.relu
  | bw_exp self out => unary self out OP.exp
  end.

Definition well_formed (h : Value.heap) : Prop := forall i, node_shape h i.

(** The value a builder stores in node [i], in terms of the current values of
    its operands: true of a node as long as no operand below it has been
    given a new value since the node was built. *)
Definition node_value (h : Value.heap) (i : ref) : Prop :=
  let v := Value.val_of h in
  match Value.backward_of h i with
  | bw_default => True
  | bw_add self other _ => v i = (v self + v other)%R
  | bw_mul self other _ => v i = (v self * v other)%R
  | bw_abs self _ => v i = Rabs (v self)
  | bw_pow self k _ => py_pow (v self) k = Ok (v i)
  | bw_sigmoid self val _ => value.sigmoid (v self) = Ok val /\ v i = val
  | bw_tanh self val _ => val = math_tanh (v self) /\ v i = val
  | bw_relu self val _ => val = value.relu (v self) /\ v i = val
  | bw_exp self _ => math_exp (v self) = Ok (v i)
  end.

(** The backward rule of a power node evaluates [self.val ** (other - 1)],
    which the host refuses for a zero base with a negative exponent
    (ZeroDivisionError) and for a result beyond the float range
    (OverflowError), also when the forward power [self.val ** other] was
    computed.  The rule is safe when this power is a float: the exponent
    [other - 1] is 0, or the base is 0 and the exponent positive, or the
    power of a non-zero base is real and of magnitude at most [float_max]
    ([py_pow_returns] below). *)
Definition pow_safe (h : Value.heap) (i : ref) : Prop :=
  match Value.backward_of h i with
  | bw_pow self k _ => exists p, py_pow (Value.val_of h self) (k - 1) = Ok p
  | _ => True
  end.

(** What [backprop] asks of a node it reaches: an accumulating rule, the value
    its builder computed, and, of a power node, a backward rule whose own
    power is a float. *)
Definition admissible (h : Value.heap) (n : ref) : Prop :=
  accumulates (Value.backward_of h n) /\ node_value h n /\ pow_safe h n.

(** Two heaps that differ in gradient accumulators only. *)
Definition same_graph (h h' : Value.heap) : Prop :=
  length h = length h' /\
  forall i,
    Value.val_of h i = Value.val_of h' i /\
    Value.label_of h i = Value.label_of h' i /\
    Value.children_of h i = Value.children_of h' i /\
    Value.op_of h i = Value.op_of h' i /\
    Value.backward_of h i = Value.backward_of h' i.

(** A right operand that is a node must be a node of the heap. *)
Definition valid (h : Value.heap) (other : ref + R) : Prop :=
  match other with
  | inl r => r < length h
  | inr _ => True
  end.

(** A heap on which only constructors, builders and labelling have run: it is
    well formed, every node holds the value of its forward formula, and every
    accumulator is 0. *)
Definition pristine (h : Value.heap) : Prop :=
  well_formed h /\
  forall i, node_value h i /\ Value.grad_of h i = 0%R.

(** The heaps reached from the empty heap by the constructor, the primitive
    builders and labelling; the derived operators are compositions of
    these. *)
Inductive built : Value.heap -> Prop :=
| built_empty : built []
| built_leaf h x l :
    built h -> built (Value.new h (Value.__init__ x l None None)).1
| built_label h r s : built h -> built (Value.__or__ h r s).1
| built_add flip h self other :
    built h -> self < length h -> valid h other ->
    built (Value.__add__ flip h self other).1
| built_mul flip h self other :
    built h -> self < length h -> valid h other ->
    built (Value.__mul__ flip h self other).1
| built_abs h self :
    built h -> self < length h -> built (Value.__abs__ h self).1
| built_pow h self k r :
    built h -> self < length h -> Value.__pow__ h self k = Ok r -> built r.1
| built_sigmoid h self r :
    built h -> self < length h -> Value.sigmoid h self = Ok r -> built r.1
| built_tanh h self :
    built h -> self < length h -> built (Value.tanh h self).1
| built_relu h self :
    built h -> self < length h -> built (Value.relu h self).1
| built_exp h self r :
    built h -> self < length h -> Value.exp h self = Ok r -> built r.1.

(** *** The chain rule *)

Definition sumR (l : list R) : R := foldr Rplus 0%R l.

(** The power and the logistic function as functions on the reals, with no
    range: what [**] and [sigmoid] return when they return. *)
Definition pow_value (x y : R) : R :=
  if Req_dec_T y 0 then 1%R
  else if Req_dec_T x 0 then 0%R
  else if Rlt_dec 0 x then Rpower x y
  else powerRZ x (Int_part y).

Definition logistic (x : R) : R := (1 / (1 + Rtrigo_def.exp (- x)))%R.

(** The operand edges of node [n], each with the partial derivative of the
    node's forward formula with respect to that operand, at the operands'
    current values.  The operands (with their multiplicity: [x + x] has two
    edges to [x]) and the exponent of a power are recorded in the closure. *)
Definition partials (h : Value.heap) (n : ref) : list (ref * R) :=
  let v := Value.val_of h in
  match Value.backward_of h n with
  | bw_default => []
  | bw_add self other _ => [(self, 1%R); (other, 1%R)]
  | bw_mul self other _ => [(self, v other); (other, v self)]
  | bw_abs self _ =>
      [(self, if Rlt_dec 0 (v self) then 1%R
              else if Rlt_dec (v self) 0 then (-1)%R else 0%R)]
  | bw_pow self k _ => [(self, (k * pow_value (v self) (k - 1))%R)]
  | bw_sigmoid self _ _ =>
      [(self, (logistic (v self) * (1 - logistic (v self)))%R)]
  | bw_tanh self _ _ =>
      [(self, (1 - math_tanh (v self) * math_tanh (v self))%R)]
  | bw_relu self _ _ => [(self, if Rlt_dec 0 (v self) then 1%R else 0%R)]
  | bw_exp self _ => [(self, Rtrigo_def.exp (v self))]
  end.

(** All paths of at most [n] edges from [u] down to [v]; a path is the list of
    the partial derivatives along its edges. *)
Fixpoint paths (n : nat) (h : Value.heap) (u v : ref) : list (list R) :=
  (if decide (u = v) then [[]] else []) ++
  match n with
  | O => []
  | S n => '(c, w) ← partials h u; cons w <$> paths n h c v
  end.

Definition path_weight (p : list R) : R := foldr Rmult 1%R p.

(** The total derivative of [u] with respect to [v]: the sum over all paths
    from [u] to [v] of the product of the partial derivatives along the path.
    A path of a well-formed heap has fewer edges than the heap has nodes. *)
Definition total_derivative (h : Value.heap) (u v : ref) : R :=
  sumR (path_weight <$> paths (length h) h u v).

(** The same sum over the paths of at least one edge. *)
Definition chain (h : Value.heap) (u v : ref) : R :=
  sumR ((fun '(c, w) => w * total_derivative h c v)%R <$> partials h u).

(** The same sum over the paths of at most [n] edges. *)
Definition derivative_upto (n : nat) (h : Value.heap) (u v : ref) : R :=
  sumR (path_weight <$> paths n h u v).

(** What one run of the backward rule of [n] adds to the accumulator of [x],
    per unit of [n]'s own accumulator. *)
Definition incr (h : Value.heap) (n x : ref) : R :=
  sumR ((fun '(c, w) => if decide (c = x) then w else 0%R) <$> partials h n).

(** Indicator of [u = v], the derivative of a node with respect to itself. *)
Definition delta (u v : ref) : R := if decide (u = v) then 1%R else 0%R.

(** *** The forward function of a graph *)

(** [eval n h v t u]: the value of node [u] when node [v] holds [t] and
    every node above [v] is evaluated again by its forward formula; [n]
    bounds the depth of the evaluation. *)
Fixpoint eval (n : nat) (h : Value.heap) (v : ref) (t : R) (u : ref) : R :=
  if decide (u = v) then t
  else
    match n with
    | O => Value.val_of h u
    | S n =>
        let e := eval n h v t in
        match Value.backward_of h u with
        | bw_default => Value.val_of h u
        | bw_add self other _ => (e self + e other)%R
        | bw_mul self other _ => (e self * e other)%R
        | bw_abs self _ => Rabs (e self)
        | bw_pow self k _ => pow_value (e self) k
        | bw_sigmoid self _ _ => logistic (e self)
        | bw_tanh self _ _ => math_tanh (e self)
        | bw_relu self _ _ => value.relu (e self)
        | bw_exp self _ => Rtrigo_def.exp (e self)
        end
    end.

(** The value of [u] as a function of the value of [v]. *)
Definition forward (h : Value.heap) (u v : ref) (t : R) : R :=
  eval (length h) h v t u.

(** The forward formula of node [n] is differentiable at the current values
    of its operands: relu and abs away from 0, a power at a positive base or
    with an exponent 1, 2, 3, ... *)
Definition smooth (h : Value.heap) (n : ref) : Prop :=
  match Value.backward_of h n with
  | bw_abs self _ | bw_relu self _ _ => Value.val_of h self <> 0%R
  | bw_pow self k _ =>
      (0 < Value.val_of h self)%R \/ exists m, k = INR (S m)
  | _ => True
  end.

(** *** Networks *)

(** [fresh_refs st st' ps]: between the worlds [st] and [st'] the heap has
    grown, and [ps] lists the references allocated in between, in order. *)
Definition fresh_refs (st st' : world) (ps : list ref) : Prop :=
  length st.1 <= length st'.1 /\
  ps = seq (length st.1) (length st'.1 - length st.1).

(** *** Concrete graphs used below *)

(** [x = Value(0.0); y = x ** 0]: node 0 is [x], node 1 is [y]. *)
Definition zero_power_graph : result (Value.heap * ref) :=
  Value.__pow__ (leaves [0%R]) 0 0.

(** [x = Value(1 / sys.float_info.max); y = x ** -1]: node 0 is [x], node 1
    is [y], which holds [float_max]. *)
Definition reciprocal_graph : result (Value.heap * ref) :=
  Value.__pow__ (leaves [(/ float_max)%R]) 0 (-1).

(** [out = (x*y1) + (x*y2)] with [x = 2], [y1 = 3], [y2 = 5]: nodes 0, 1, 2
    are the leaves [x], [y1], [y2], nodes 3 and 4 the products and node 5 is
    [out].  The arguments are the iteration orders of the three operand
    sets. *)
Definition fan_in_graph (f1 f2 f3 : bool) : Value.heap * ref :=
  let h := leaves [2; 3; 5]%R in
  let '(h, m1) := Value.__mul__ f1 h 0 (inl 1) in
  let '(h, m2) := Value.__mul__ f2 h 0 (inl 2) in
  Value.__add__ f3 h m1 (inl m2).

(** [z = x * y] with [x = 3], [y = 4]: nodes 0, 1 and 2. *)
Definition product_graph (f : bool) : Value.heap * ref :=
  Value.__mul__ f (leaves [3; 4]%R) 0 (inl 1).

(** [x = Value(3) | "a"; y = Value(4) | "a"; z = x * y]. *)
Definition same_label_graph (f : bool) : Value.heap * ref :=
  let h := leaves [3; 4]%R in
  let '(h, x) := Value.__or__ h 0 "a" in
  let '(h, y) := Value.__or__ h 1 "a" in
  Value.__mul__ f h x (inl y).

(** [y = Value(0.0).exp()] and [y = Value(2) ** 3]: node 0 is the leaf and
    node 1 is [y]. *)
Definition exp_graph : result (Value.heap * ref) :=
  Value.exp (leaves [0%R]) 0.
Definition cube_graph : result (Value.heap * ref) :=
  Value.__pow__ (leaves [2%R]) 0 3.

(** A network whose parameters are the two leaves of [product_graph]. *)
Definition two_parameter_net : MLP.t :=
  {| MLP.layer_in := {| Layer.neurons := [{| Neuron.w := [0]; Neuron.b := 1 |}] |};
     MLP.layers_hidden := [];
     MLP.layer_out := {| Layer.neurons := [] |} |}.

(** [MLP(1, 1, 0, 1)] built on the empty heap when every draw is 0.5: its
    parameters are the nodes 0 to 3. *)
Definition small_net : world * MLP.t :=
  MLP.__init__ (fun _ => (1 / 2)%R) ([], 0) 1 1 0 1.


(** *** Graphs [recompute] can follow *)

(** A leaf, or a sum or a product of two different nodes.  The operand set of
    [x + x] has one element, and the other operations are the ones whose
    case in [recompute] does not use the recomputed operand. *)
Definition arithmetic (h : Value.heap) (n : ref) : Prop :=
  match Value.backward_of h n with
  | bw_default => True
  | bw_add self other _ | bw_mul self other _ => self <> other
  | _ => False
  end.

(** No two descendants of [root] carry the same label. *)
Definition labels_distinct (h : Value.heap) (root : ref) : Prop :=
  forall d d' l, descendant h root d -> descendant h root d' ->
    Value.label_of h d = Some l -> Value.label_of h d' = Some l -> d = d'.

(** What the last four cases of [recompute] evaluate for a node: the node's
    operation applied to the node's own value. *)
Definition reapplied (h : Value.heap) (n : ref) : result R :=
  match Value.op_of h n with
  | Some OP.sigmoid => value.sigmoid (Value.val_of h n)
  | Some OP.tanh => Ok (math_tanh (Value.val_of h n))
  | Some OP.relu => Ok (value.relu (Value.val_of h n))
  | Some OP.exp => math_exp (Value.val_of h n)
  | _ => Ok (Value.val_of h n)
  end.

(** The number a tanh closure captured is a result of [math.tanh]: the
    builder computes it so, and nothing assigns to a captured variable. *)
Definition tanh_captured (h : Value.heap) (n : ref) : Prop :=
  match Value.backward_of h n with
  | bw_tanh _ val _ => exists x, val = math_tanh x
  | _ => True
  end.

Definition unary_activation (o : option OP.t) : Prop :=
  o = Some OP.sigmoid \/ o = Some OP.tanh \/ o = Some OP.relu \/
  o = Some OP.exp.

(** The number [recompute] starts from at a node: the entry of [mod] under
    the node's label when there is one, and the node's value otherwise. *)
Definition new_val (h : Value.heap) (m : option (gmap string R)) (n : ref)
  : R :=
  match m, Value.label_of h n with
  | Some m, Some l => default (Value.val_of h n) (m !! l)
  | _, _ => Value.val_of h n
  end.

(** *** Networks: what the constructors and the forward pass make *)

(** The leaves holding the draws number [k], [k + 1], ..., [k + n - 1]. *)
Definition draws (rng : nat -> R) (k n : nat) : Value.heap :=
  (fun i => Value.__init__ (rng (k + i)) None None None) <$> seq 0 n.

(** [allocates rng c st st' ps]: from the world [st] to [st'] exactly [c]
    numbers were drawn, each was stored in a fresh leaf, in order, and [ps]
    lists these leaves. *)
Definition allocates (rng : nat -> R) (c : nat) (st st' : world)
    (ps : list ref) : Prop :=
  st'.1 = st.1 ++ draws rng st.2 c /\
  st'.2 = st.2 + c /\
  ps = seq (length st.1) c.

Definition parameter_count (d_in d_hidden n_hidden d_out : nat) : nat :=
  d_hidden * (d_in + 1) + n_hidden * (d_hidden * (d_hidden + 1))
  + d_out * (d_hidden + 1).

(** The bias plus the products of the paired weights and inputs, added in
    the order of the pairs. *)
Definition weighted_sum (h : Value.heap) (b : ref) (wxs : list (ref * ref))
  : R :=
  foldl (fun acc '(w, x) => (acc + Value.val_of h w * Value.val_of h x)%R)
        (Value.val_of h b) wxs.

(** The sum of the squares of [y - pred] over the pairs. *)
Definition squared_error (h : Value.heap) (pairs : list (R * ref)) : R :=
  sumR ((fun '(y, pred) => (y - Value.val_of h pred) ^ 2)%R <$> pairs).

(** The function a network computes, on numbers: a neuron returns the
    hyperbolic tangent of its bias plus the products of its weights with
    the inputs, paired in order; a layer returns the outputs of its neurons;
    the network feeds the outputs of each layer to the next. *)
Definition neuron_output (h : Value.heap) (n : Neuron.t) (xs : list R) : R :=
  math_tanh
    (foldl (fun acc '(w, x) => (acc + Value.val_of h w * x)%R)
           (Value.val_of h (Neuron.b n)) (zip (Neuron.w n) xs)).

Definition layer_output (h : Value.heap) (l : Layer.t) (xs : list R)
  : list R :=
  (fun n => neuron_output h n xs) <$> Layer.neurons l.

Definition network_output (h : Value.heap) (net : MLP.t) (xs : list R)
  : list R :=
  foldl (fun xs l => layer_output h l xs) xs (MLP.layers net).

(** *** More concrete graphs *)

(** [x = Value(3) | "x"; y = Value(4) | "y"; z = x * y]. *)
Definition labelled_product_graph (f : bool) : Value.heap * ref :=
  let h := leaves [3; 4]%R in
  let '(h, x) := Value.__or__ h 0 "x" in
  let '(h, y) := Value.__or__ h 1 "y" in
  Value.__mul__ f h x (inl y).

(** [x = Value(0) | "x"; y = x.tanh()]. *)
Definition labelled_tanh_graph : Value.heap * ref :=
  let '(h, x) := Value.__or__ (leaves [0%R]) 0 "x" in
  Value.tanh h x.

(** [x = Value(log(sys.float_info.max)) | "x"; y = x.exp()]: the root [y]
    holds [float_max]. *)
Definition saturated_exp_graph : result (Value.heap * ref) :=
  let '(h, x) := Value.__or__ (leaves [ln float_max]) 0 "x" in
  Value.exp h x.

(** A neuron with the weight in node 0 and the bias in node 1, to be called
    on the input in node 2. *)
Definition one_weight_neuron : Neuron.t :=
  {| Neuron.w := [0]; Neuron.b := 1 |}.
(** * Properties *)

(** Membership goals over concrete or abstract sets and lists. *)
Ltac set_lia := set_unfold; intuition (try lia; try congruence).

(** Deciding the set-membership tests met when a traversal is evaluated on a
    concrete graph. *)
Ltac decide_sets :=
  repeat (cbn;
    match goal with
    | |- context [@decide ?P ?i] =>
        destruct (@decide P i);
        [try solve [exfalso; set_lia] | try solve [exfalso; set_lia]]
    end).

(** ** Host arithmetic facts *)

Lemma Int_part_IZR (z : Z) : Int_part (IZR z) = z.
Proof.
  unfold Int_part.
  assert (H : (z + 1)%Z = up (IZR z)).
  { apply up_tech; [lra | apply IZR_lt; lia]. }
  lia.
Qed.

(** *** The float range *)

Lemma float_max_large : (16 <= float_max)%R.
Proof.
  unfold float_max.
  assert (H52 : (0 < / 2 ^ 52 <= 1)%R).
  { split; [apply Rinv_0_lt_compat, pow_lt; lra|].
    rewrite <- Rinv_1. apply Rinv_le_contravar; [lra|].
    apply pow_R1_Rle. lra. }
  assert (H : (2 ^ 4 <= 2 ^ 1023)%R) by (apply Rle_pow; [lra | lia]).
  assert (H4 : (2 ^ 4 = 16)%R) by (simpl; lra).
  generalize dependent (2 ^ 1023)%R. generalize dependent (/ 2 ^ 52)%R.
  intros a Ha b Hb. nra.
Qed.

Lemma range_checked_ok (r : R) :
  (Rabs r <= float_max)%R -> range_checked r = Ok r.
Proof. intros H. unfold range_checked. destruct (Rlt_dec _ _); [lra | done]. Qed.

Lemma range_checked_small (r : R) :
  (Rabs r <= 16)%R -> range_checked r = Ok r.
Proof.
  intros H. apply range_checked_ok. pose proof float_max_large. lra.
Qed.

Lemma range_checked_overflow (r : R) :
  (float_max < Rabs r)%R -> range_checked r = Raise OverflowError.
Proof. intros H. unfold range_checked. destruct (Rlt_dec _ _); [done | lra]. Qed.

Lemma range_checked_inv (r r' : R) :
  range_checked r = Ok r' -> r' = r /\ (Rabs r <= float_max)%R.
Proof.
  unfold range_checked. destruct (Rlt_dec _ _); [done|].
  intros [= <-]. split; [done | lra].
Qed.

Lemma range_checked_raise (r : R) (e : exn) :
  range_checked r = Raise e -> e = OverflowError.
Proof. unfold range_checked. destruct (Rlt_dec _ _); [by intros [= <-] | done]. Qed.

(** *** Powers *)

Lemma py_pow_pos (x y : R) :
  (0 < x)%R -> y <> 0%R -> py_pow x y = range_checked (Rpower x y).
Proof.
  intros Hx Hy. unfold py_pow.
  destruct (Req_dec_T y 0) as [|_]; [done|].
  destruct (Req_dec_T x 0) as [->|_]; [lra|].
  destruct (Rlt_dec 0 x); [done | lra].
Qed.

(** When [**] returns, it returns the power. *)
Lemma py_pow_value (x y r : R) : py_pow x y = Ok r -> r = pow_value x y.
Proof.
  unfold py_pow, pow_value.
  destruct (Req_dec_T y 0); [by intros [= <-]|].
  destruct (Req_dec_T x 0); [destruct (Rlt_dec y 0); [done | by intros [= <-]]|].
  destruct (Rlt_dec 0 x); [intros H; by apply range_checked_inv in H as [-> _]|].
  destruct (Req_dec_T y (IZR (Int_part y))); [|done].
  intros H. by apply range_checked_inv in H as [-> _].
Qed.

Lemma py_pow_2 (x : R) : py_pow x 2 = range_checked (x * x).
Proof.
  unfold py_pow.
  destruct (Req_dec_T 2 0) as [|_]; [lra|].
  destruct (Req_dec_T x 0) as [->|Hx0].
  { destruct (Rlt_dec 2 0); [lra|].
    rewrite range_checked_small by (rewrite Rmult_0_l, Rabs_R0; lra).
    f_equal; lra. }
  destruct (Rlt_dec 0 x) as [Hx|Hx].
  { f_equal. change 2%R with (INR 2). rewrite Rpower_pow by done. simpl; lra. }
  change 2%R with (IZR 2). rewrite Int_part_IZR.
  destruct (Req_dec_T (IZR 2) (IZR 2)); [|done].
  f_equal. simpl. lra.
Qed.

Lemma py_pow_2_small (x : R) : (Rabs x <= 4)%R -> py_pow x 2 = Ok (x * x)%R.
Proof.
  intros Hx. rewrite py_pow_2. apply range_checked_small.
  rewrite Rabs_mult. pose proof (Rabs_pos x). nra.
Qed.

(** [x ** -1] is the reciprocal when that is within the float range, and is
    refused for [x = 0]. *)
Lemma py_pow_m1 (x : R) : x <> 0%R -> py_pow x (-1) = range_checked (/ x).
Proof.
  intros Hx. unfold py_pow.
  destruct (Req_dec_T (-1) 0) as [|_]; [lra|].
  destruct (Req_dec_T x 0) as [|_]; [done|].
  destruct (Rlt_dec 0 x) as [Hpos|Hneg].
  - f_equal. replace (-1)%R with (- (1))%R by lra.
    rewrite Rpower_Ropp, Rpower_1; done.
  - change (-1)%R with (IZR (-1)). rewrite Int_part_IZR.
    destruct (Req_dec_T (IZR (-1)) (IZR (-1))); [|done].
    f_equal. simpl. f_equal. lra.
Qed.

(** [x ** -2] for a positive [x]. *)
Lemma py_pow_m2 (x : R) :
  (0 < x)%R -> py_pow x (-1 - 1) = range_checked (/ (x * x)).
Proof.
  intros Hx. rewrite py_pow_pos by lra. f_equal.
  replace (-1 - 1)%R with (- INR 2)%R by (simpl; lra).
  rewrite Rpower_Ropp, Rpower_pow by done. f_equal. simpl. lra.
Qed.

Lemma float_max_pos : (0 < float_max)%R.
Proof. pose proof float_max_large. lra. Qed.

Lemma float_max_square : (float_max < float_max * float_max)%R.
Proof. pose proof float_max_large. nra. Qed.

(** When [**] returns: the cases of [float_pow] that give a float. *)
Lemma py_pow_returns (x y : R) :
  (exists p, py_pow x y = Ok p) <->
  y = 0%R \/
  (x = 0%R /\ (0 < y)%R) \/
  ((0 < x)%R /\ (Rabs (Rpower x y) <= float_max)%R) \/
  ((x < 0)%R /\ y = IZR (Int_part y) /\
   (Rabs (powerRZ x (Int_part y)) <= float_max)%R).
Proof.
  unfold py_pow, range_checked.
  destruct (Req_dec_T y 0) as [Hy|Hy]; [split; eauto|].
  destruct (Req_dec_T x 0) as [Hx|Hx].
  { destruct (Rlt_dec y 0); split.
    - by intros [p ?].
    - intros [?|[[_ ?]|[[? _]|[? _]]]]; lra.
    - intros _. right. left. split; [done | lra].
    - eauto. }
  destruct (Rlt_dec 0 x) as [Hpos|Hneg].
  { destruct (Rlt_dec float_max _); split.
    - by intros [p ?].
    - intros [?|[[? _]|[[_ ?]|[? _]]]]; lra.
    - intros _. right. right. left. split; [done | lra].
    - eauto. }
  destruct (Req_dec_T y (IZR (Int_part y))) as [Hint|Hint].
  { destruct (Rlt_dec float_max _); split.
    - by intros [p ?].
    - intros [?|[[? _]|[[? _]|(_ & _ & ?)]]]; lra.
    - intros _. right. right. right. split_and!; [lra | done | lra].
    - eauto. }
  split; [by intros [p ?]|].
  intros [?|[[? _]|[[? _]|(_ & ? & _)]]]; done || lra.
Qed.

(** The reciprocal of [1 / float_max] is within the range, and its square is
    not. *)
Lemma py_pow_reciprocal : py_pow (/ float_max) (-1) = Ok float_max.
Proof.
  pose proof float_max_pos.
  rewrite py_pow_m1 by (apply Rinv_neq_0_compat; lra).
  rewrite Rinv_inv. apply range_checked_ok. rewrite Rabs_right; lra.
Qed.

Lemma py_pow_reciprocal_square :
  py_pow (/ float_max) (-1 - 1) = Raise OverflowError.
Proof.
  pose proof float_max_pos. pose proof float_max_square.
  rewrite py_pow_m2 by (apply Rinv_0_lt_compat; lra).
  apply range_checked_overflow.
  rewrite <- Rinv_mult, Rinv_inv. rewrite Rabs_right; nra.
Qed.

(** *** The exponential, the logistic function and the hyperbolic tangent *)

Lemma math_exp_value (x r : R) : math_exp x = Ok r -> r = Rtrigo_def.exp x.
Proof. intros H. by apply range_checked_inv in H as [-> _]. Qed.

Lemma math_exp_small (x : R) :
  (x <= 1)%R -> math_exp x = Ok (Rtrigo_def.exp x).
Proof.
  intros Hx. apply range_checked_small.
  pose proof (exp_pos x). rewrite Rabs_right by lra.
  destruct (Rle_lt_or_eq_dec x 1 Hx) as [Hlt| ->].
  - pose proof (exp_increasing x 1 Hlt). pose proof exp_le_3. lra.
  - pose proof exp_le_3. lra.
Qed.

Lemma sigmoid_value (x r : R) : value.sigmoid x = Ok r -> r = logistic x.
Proof.
  unfold value.sigmoid, logistic.
  destruct (math_exp (- x)) as [e|] eqn:E; cbn; [|done].
  apply math_exp_value in E as ->. by intros [= <-].
Qed.

Lemma sigmoid_small (x : R) :
  (-1 <= x)%R -> value.sigmoid x = Ok (logistic x).
Proof.
  intros Hx. unfold value.sigmoid, logistic.
  rewrite math_exp_small by lra. done.
Qed.

Lemma tanh_0 : math_tanh 0 = 0%R.
Proof. unfold math_tanh, Rtrigo_def.tanh. rewrite sinh_0. lra. Qed.

Lemma tanh_bound (x : R) : (Rabs (math_tanh x) < 1)%R.
Proof.
  unfold math_tanh, Rtrigo_def.tanh, sinh, cosh.
  pose proof (exp_pos x) as Hp. pose proof (exp_pos (- x)) as Hn.
  replace ((Rtrigo_def.exp x - Rtrigo_def.exp (- x)) / 2
           / ((Rtrigo_def.exp x + Rtrigo_def.exp (- x)) / 2))%R
    with ((Rtrigo_def.exp x - Rtrigo_def.exp (- x))
          / (Rtrigo_def.exp x + Rtrigo_def.exp (- x)))%R by (field; lra).
  apply Rabs_def1.
  - apply (Rmult_lt_reg_r (Rtrigo_def.exp x + Rtrigo_def.exp (- x))); [lra|].
    unfold Rdiv. rewrite Rmult_assoc, Rinv_l by lra. lra.
  - apply (Rmult_lt_reg_r (Rtrigo_def.exp x + Rtrigo_def.exp (- x))); [lra|].
    unfold Rdiv. rewrite Rmult_assoc, Rinv_l by lra. lra.
Qed.

Lemma sigmoid_0 : value.sigmoid 0 = Ok (1 / 2)%R.
Proof.
  rewrite sigmoid_small by lra. unfold logistic.
  rewrite Ropp_0, exp_0. f_equal; lra.
Qed.

(** [math.exp] at the two ends of the range. *)
Lemma math_exp_ln_float_max : math_exp (ln float_max) = Ok float_max.
Proof.
  pose proof float_max_pos. unfold math_exp. rewrite exp_ln by done.
  apply range_checked_ok. rewrite Rabs_right; lra.
Qed.

Lemma math_exp_float_max : math_exp float_max = Raise OverflowError.
Proof.
  pose proof float_max_pos. pose proof (exp_ineq1 float_max).
  apply range_checked_overflow. rewrite Rabs_right; lra.
Qed.

(** ** Reading the heap after a write *)

Section heap_access.
Context {A : Type} (f : Value.t -> A) (d : A).

Lemma get_alter (g : Value.t -> Value.t) (h : Value.heap) (r i : ref) :
  (forall v, f (g v) = f v) ->
  Value.get f d (alter g r h) i = Value.get f d h i.
Proof.
  intros Hfg. unfold Value.get.
  destruct (decide (r = i)) as [->|Hne].
  - rewrite list_lookup_alter_eq. destruct (h !! i); simpl; auto.
  - by rewrite list_lookup_alter_ne.
Qed.

Lemma get_alter_ne (g : Value.t -> Value.t) (h : Value.heap) (r i : ref) :
  r <> i -> Value.get f d (alter g r h) i = Value.get f d h i.
Proof. intros Hne. unfold Value.get. by rewrite list_lookup_alter_ne. Qed.

Lemma get_alter_eq (g : Value.t -> Value.t) (h : Value.heap) (r : ref) (a : A) :
  r < length h -> (forall v, f (g v) = a) ->
  Value.get f d (alter g r h) r = a.
Proof.
  intros Hr Hfg. unfold Value.get. rewrite list_lookup_alter_eq.
  destruct (lookup_lt_is_Some_2 h r Hr) as [v ->]. simpl. auto.
Qed.

Lemma get_app_l (h h' : Value.heap) (i : ref) :
  i < length h -> Value.get f d (h ++ h') i = Value.get f d h i.
Proof. intros Hi. unfold Value.get. by rewrite lookup_app_l. Qed.

Lemma get_new (h : Value.heap) (v : Value.t) :
  Value.get f d (h ++ [v]) (length h) = f v.
Proof.
  unfold Value.get. rewrite lookup_app_r by lia.
  by rewrite Nat.sub_diag.
Qed.

Lemma get_ge (h : Value.heap) (i : ref) :
  length h <= i -> Value.get f d h i = d.
Proof. intros Hi. unfold Value.get. by rewrite lookup_ge_None_2. Qed.
End heap_access.

Lemma grad_of_set_grad (h : Value.heap) (r i : ref) (g : R) :
  r < length h ->
  Value.grad_of (Value.set_grad h r g) i
  = if decide (i = r) then g else Value.grad_of h i.
Proof.
  intros Hr. unfold Value.grad_of, Value.set_grad.
  destruct (decide (i = r)) as [->|Hne].
  - by apply get_alter_eq.
  - by apply get_alter_ne.
Qed.

Lemma length_set_grad h r g : length (Value.set_grad h r g) = length h.
Proof. apply length_alter. Qed.

Lemma length_set_val h r x : length (Value.set_val h r x) = length h.
Proof. apply length_alter. Qed.

Lemma length_set_backward h r b : length (Value.set_backward h r b) = length h.
Proof. apply length_alter. Qed.

Lemma length_set_label h r s : length (Value.set_label h r s) = length h.
Proof. apply length_alter. Qed.

(** Writing [grad] leaves every other attribute of every node as it was. *)
Lemma val_of_set_grad h r g i :
  Value.val_of (Value.set_grad h r g) i = Value.val_of h i.
Proof. by apply get_alter. Qed.

Lemma children_of_set_grad h r g i :
  Value.children_of (Value.set_grad h r g) i = Value.children_of h i.
Proof. by apply get_alter. Qed.

Lemma backward_of_set_grad h r g i :
  Value.backward_of (Value.set_grad h r g) i = Value.backward_of h i.
Proof. by apply get_alter. Qed.

Lemma op_of_set_grad h r g i :
  Value.op_of (Value.set_grad h r g) i = Value.op_of h i.
Proof. by apply get_alter. Qed.

Lemma label_of_set_grad h r g i :
  Value.label_of (Value.set_grad h r g) i = Value.label_of h i.
Proof. by apply get_alter. Qed.

Lemma val_of_set_backward h r b i :
  Value.val_of (Value.set_backward h r b) i = Value.val_of h i.
Proof. by apply get_alter. Qed.

(** ** Forward values *)

(** C8. Forward values of the builders at the documented inputs:
    2 + 3 = 5, 2 * 3 = 6, 2 ** 3 = 8, tanh 0 = 0, sigmoid 0 = 0.5,
    relu (-1) = 0 and exp 0 = 1. *)
Theorem forward_values (flip : bool) :
  out_val (Value.__add__ flip (leaves [2; 3]%R) 0 (inl 1)) = 5%R /\
  out_val (Value.__mul__ flip (leaves [2; 3]%R) 0 (inl 1)) = 6%R /\
  out_val <$> Value.__pow__ (leaves [2%R]) 0 3 = Ok 8%R /\
  out_val (Value.tanh (leaves [0%R]) 0) = 0%R /\
  out_val <$> Value.sigmoid (leaves [0%R]) 0 = Ok (1 / 2)%R /\
  out_val (Value.relu (leaves [(-1)%R]) 0) = 0%R /\
  out_val <$> Value.exp (leaves [0%R]) 0 = Ok 1%R.
Proof.
  unfold out_val.
  split; [cbn; lra|].
  split; [cbn; lra|].
  split.
  { unfold Value.__pow__. cbn. rewrite py_pow_pos by lra.
    replace 3%R with (INR 3) by (simpl; lra). rewrite Rpower_pow by lra.
    rewrite range_checked_small by (rewrite Rabs_right; simpl; lra).
    cbn. f_equal. simpl. lra. }
  split; [cbn; apply tanh_0|].
  split.
  { unfold Value.sigmoid. cbn. by rewrite sigmoid_0. }
  split.
  { cbn. unfold value.relu. rewrite Rmax_left; lra. }
  unfold Value.exp. cbn. rewrite math_exp_small by lra. cbn.
  by rewrite exp_0.
Qed.

(** ** Builders only allocate *)

Lemma frame_refl h : frame 0 h h.
Proof. split; [done | lia]. Qed.

Lemma frame_trans n m h1 h2 h3 :
  frame n h1 h2 -> frame m h2 h3 -> frame (n + m) h1 h3.
Proof.
  intros [H12 L12] [H23 L23]. split; [|lia].
  intros i Hi. rewrite H23 by lia. by apply H12.
Qed.

Lemma frame_new h v : frame 1 h (Value.new h v).1.
Proof.
  split; simpl.
  - intros i Hi. by rewrite lookup_app_l.
  - rewrite length_app. simpl. lia.
Qed.

Lemma frame_coerce h other : frame (promoted other) h (Value.coerce h other).1.
Proof. destruct other; simpl; [apply frame_refl | apply frame_new]. Qed.

(** Installing the closure on the node just allocated. *)
Lemma frame_node h v b :
  frame 1 h (Value.set_backward (Value.new h v).1 (Value.new h v).2 b).
Proof.
  split; simpl.
  - intros i Hi. unfold Value.set_backward.
    rewrite list_lookup_alter_ne by lia. by rewrite lookup_app_l.
  - rewrite length_set_backward, length_app. simpl. lia.
Qed.

Lemma frame_add flip h self other :
  frame (promoted other + 1) h (Value.__add__ flip h self other).1.
Proof.
  unfold Value.__add__.
  pose proof (frame_coerce h other) as Hc.
  destruct (Value.coerce h other) as [h1 o].
  eapply frame_trans; [exact Hc | apply frame_node].
Qed.

Lemma frame_mul flip h self other :
  frame (promoted other + 1) h (Value.__mul__ flip h self other).1.
Proof.
  unfold Value.__mul__.
  pose proof (frame_coerce h other) as Hc.
  destruct (Value.coerce h other) as [h1 o].
  eapply frame_trans; [exact Hc | apply frame_node].
Qed.

Lemma frame_pow h self k : frame_result 1 h (Value.__pow__ h self k).
Proof.
  unfold Value.__pow__. destruct (py_pow _ _); simpl; [|done].
  apply frame_node.
Qed.

Lemma frame_sigmoid h self : frame_result 1 h (Value.sigmoid h self).
Proof.
  unfold Value.sigmoid. destruct (value.sigmoid _); simpl; [|done].
  apply frame_node.
Qed.

Lemma frame_exp h self : frame_result 1 h (Value.exp h self).
Proof.
  unfold Value.exp. destruct (math_exp _); simpl; [|done].
  apply frame_node.
Qed.

Lemma frame_neg flip h self : frame 2 h (Value.__neg__ flip h self).1.
Proof. apply (frame_mul flip h self (inr (-1)%R)). Qed.

Lemma frame_sub flips h self other :
  frame (match other with inl _ => 3 | inr _ => 2 end) h
        (Value.__sub__ flips h self other).1.
Proof.
  unfold Value.__sub__. destruct other as [o|x].
  - pose proof (frame_neg flips.1 h o) as Hn.
    destruct (Value.__neg__ flips.1 h o) as [h1 n].
    apply (frame_trans 2 1 _ _ _ Hn), (frame_add _ _ _ (inl n)).
  - apply (frame_add _ _ _ (inr (- x)%R)).
Qed.

Lemma frame_truediv flip h self other :
  frame_result 2 h (Value.__truediv__ flip h self other).
Proof.
  unfold Value.__truediv__. destruct other as [o|x].
  - pose proof (frame_pow h o (-1)) as Hp.
    destruct (Value.__pow__ h o (-1)) as [[h1 p]|]; [|done].
    pose proof (frame_mul flip h1 self (inl p)) as Hm.
    unfold mbind, result_bind.
    destruct (Value.__mul__ flip h1 self (inl p)) as [h2 out].
    apply (frame_trans 1 1 _ _ _ Hp Hm).
  - destruct (py_pow x (-1)) as [p|]; [|done].
    pose proof (frame_mul flip h self (inr p)) as Hm.
    unfold mbind, result_bind.
    by destruct (Value.__mul__ flip h self (inr p)) as [h2 out].
Qed.

(** C9, as stated, fails in its last clause for the derived operators.
    [a - b] on two nodes, with no plain number given, allocates three objects:
    a constant leaf for -1, the product [b * -1] and the sum, which is the
    output; [-a] allocates two. *)
Lemma subtraction_allocates_three :
  let h := leaves [5; 3]%R in
  let r := Value.__sub__ (false, false) h 0 (inl 1) in
  length h = 2 /\ length r.1 = 5 /\ r.2 = 4 /\
  Value.op_of r.1 2 = None /\ Value.val_of r.1 2 = (-1)%R /\
  Value.op_of r.1 3 = Some OP.mul /\
  Value.op_of r.1 4 = Some OP.add /\
  length (Value.__neg__ false h 0).1 = 4.
Proof. cbn. split_and!; done. Qed.

(** C9 (amended).  Every builder, when it returns (a power, a sigmoid, an
    exponential and a division can raise instead), returns a heap in which
    all objects that existed before the call, its operands among them, have
    the same value,
    gradient, label, operand set, operation tag and closure.  What it adds are
    freshly allocated nodes only: for the eight primitive builders the output
    node and, for a plain-number operand, one constant leaf; for negation the
    constant leaf -1 and the output; for subtraction and division the nodes of
    the primitive builders they are composed of (three for [a - b] on nodes,
    two otherwise). *)
Theorem builders_leave_operands_unchanged
    (flip : bool) (flips : bool * bool) (h : Value.heap) (self : ref)
    (other : ref + R) (k : R) :
  frame (promoted other + 1) h (Value.__add__ flip h self other).1 /\
  frame (promoted other + 1) h (Value.__mul__ flip h self other).1 /\
  frame_result 1 h (Value.__pow__ h self k) /\
  frame 1 h (Value.__abs__ h self).1 /\
  frame_result 1 h (Value.sigmoid h self) /\
  frame 1 h (Value.tanh h self).1 /\
  frame 1 h (Value.relu h self).1 /\
  frame_result 1 h (Value.exp h self) /\
  frame 2 h (Value.__neg__ flip h self).1 /\
  frame (match other with inl _ => 3 | inr _ => 2 end) h
        (Value.__sub__ flips h self other).1 /\
  frame_result 2 h (Value.__truediv__ flip h self other).
Proof.
  split; [apply frame_add|].
  split; [apply frame_mul|].
  split; [apply frame_pow|].
  split; [apply frame_node|].
  split; [apply frame_sigmoid|].
  split; [apply frame_node|].
  split; [apply frame_node|].
  split; [apply frame_exp|].
  split; [apply frame_neg|].
  split; [apply frame_sub | apply frame_truediv].
Qed.

(** ** The topological order built by [backprop] *)

Section build_topo.
Variable h : Value.heap.
Variable rank : ref -> nat.
Hypothesis Hacyc : acyclic_by rank h.

Lemma build_topo_children (limit : nat) :
  call_spec h rank limit ->
  forall cs (vis : gset ref) (topo : list ref),
    (forall c, c ∈ cs -> rank c < limit) ->
    (forall x, x ∈ topo -> x ∈ vis) ->
    (forall u c, u ∈ vis -> u ∉ topo -> c ∈ cs -> rank c < rank u) ->
    topo_ok h topo ->
    exists vis' new,
      foldM (fun st c => Value.build_topo limit h c st) (vis, topo) cs
        = Ok (vis', topo ++ new) /\
      (forall x, x ∈ vis' <-> x ∈ vis \/ x ∈ new) /\
      (forall x, x ∈ new -> x ∉ vis) /\
      (forall c, c ∈ cs -> c ∈ topo ++ new) /\
      topo_ok h (topo ++ new) /\
      (forall x, x ∈ new -> exists c, c ∈ cs /\ reachable h c x).
Proof.
  intros Hcall cs. induction cs as [|c cs IH]; intros vis topo Hlim Hsub Hstack Hok.
  - exists vis, []. rewrite app_nil_r. simpl.
    split_and!; [done | set_lia | set_lia | set_lia | done | set_lia].
  - destruct (Hcall c vis topo) as (vis1 & new1 & E1 & Hvis1 & Hfresh1 & Hc & Hok1 & Hreach1);
      [apply Hlim; left | done | intros u Hu Hnu; eapply Hstack; eauto; left | done |].
    destruct (IH vis1 (topo ++ new1))
      as (vis2 & new2 & E2 & Hvis2 & Hfresh2 & Hcs & Hok2 & Hreach2).
    + intros c' Hc'. apply Hlim. by right.
    + intros x Hx. apply Hvis1. apply elem_of_app in Hx as [Hx|Hx]; auto.
    + intros u c' Hu Hnu Hc'. apply Hvis1 in Hu as [Hu|Hu].
      * apply (Hstack u c' Hu); [|by right].
        intros Hin. apply Hnu, elem_of_app. by left.
      * exfalso. apply Hnu, elem_of_app. by right.
    + done.
    + exists vis2, (new1 ++ new2). simpl. rewrite E1. simpl.
      rewrite E2, app_assoc.
      split; [done|]. split; [|split; [|split; [|split]]].
      * intros x. rewrite Hvis2, Hvis1, elem_of_app. tauto.
      * intros x Hx. apply elem_of_app in Hx as [Hx|Hx]; [by apply Hfresh1|].
        intros Hv. apply (Hfresh2 x Hx), Hvis1. by left.
      * intros c' Hc'. apply elem_of_cons in Hc' as [->|Hc'].
        -- apply elem_of_app. by left.
        -- by apply Hcs.
      * done.
      * intros x Hx. apply elem_of_app in Hx as [Hx|Hx].
        -- exists c. split; [left | by apply Hreach1].
        -- destruct (Hreach2 x Hx) as (c' & Hc' & Hr). exists c'. split; [by right | done].
Qed.

Lemma build_topo_spec (limit : nat) : call_spec h rank limit.
Proof.
  induction limit as [|limit IH]; intros v vis topo Hlim Hsub Hstack Hok; [lia|].
  simpl. destruct (decide (v ∈ vis)) as [Hv|Hv].
  - exists vis, []. rewrite app_nil_r.
    split_and!; [done | set_lia | set_lia | | done | set_lia].
    destruct (decide (v ∈ topo)) as [|Hn]; [done|].
    specialize (Hstack v Hv Hn). lia.
  - destruct (build_topo_children limit IH (Value.children_of h v) (vis ∪ {[v]}) topo)
      as (vis' & new & E & Hvis' & Hfresh & Hcs & Hok' & Hreach).
    + intros c Hc. specialize (Hacyc v c Hc). lia.
    + intros x Hx. apply elem_of_union. left. by apply Hsub.
    + intros u c Hu Hnu Hc. specialize (Hacyc v c Hc).
      apply elem_of_union in Hu as [Hu|Hu].
      * specialize (Hstack u Hu Hnu). lia.
      * apply elem_of_singleton in Hu as ->. done.
    + done.
    + simpl in E. rewrite E. simpl.
      exists vis', (new ++ [v]). rewrite app_assoc.
      assert (Hvnew : v ∉ topo ++ new).
      { intros Hin. apply elem_of_app in Hin as [Hin|Hin].
        - by apply Hv, Hsub.
        - apply (Hfresh v Hin), elem_of_union. right. by apply elem_of_singleton. }
      split; [done|]. split; [|split; [|split; [|split]]].
      * intros x. rewrite Hvis', elem_of_union, elem_of_singleton, elem_of_app,
          list_elem_of_singleton. tauto.
      * intros x Hx Hxv. apply elem_of_app in Hx as [Hx|Hx].
        -- apply (Hfresh x Hx), elem_of_union. by left.
        -- apply list_elem_of_singleton in Hx as ->. done.
      * apply elem_of_app. right. by apply list_elem_of_singleton.
      * destruct Hok' as [Hnd Hbefore]. split.
        -- apply NoDup_app. split; [done|]. split; [|apply NoDup_singleton].
           intros x Hx Hxv. apply list_elem_of_singleton in Hxv as ->. done.
        -- intros i p c Hi Hc.
           apply lookup_app_Some in Hi as [Hi|[Hlen Hi]].
           ++ destruct (Hbefore i p c Hi Hc) as (j & Hj & Hjc).
              exists j. split; [done|]. by apply lookup_app_l_Some.
           ++ apply list_lookup_singleton_Some in Hi as [Hi0 <-].
              pose proof (Hcs c Hc) as Hin.
              apply list_elem_of_lookup in Hin as [j Hj].
              exists j. split; [|by apply lookup_app_l_Some].
              apply lookup_lt_Some in Hj. lia.
      * intros x Hx. apply elem_of_app in Hx as [Hx|Hx].
        -- destruct (Hreach x Hx) as (c & Hc & Hr).
           eapply rtc_l; [exact Hc | exact Hr].
        -- apply list_elem_of_singleton in Hx as ->. apply rtc_refl.
Qed.
End build_topo.

Lemma topo_ok_closed h topo root v :
  topo_ok h topo -> root ∈ topo -> reachable h root v -> v ∈ topo.
Proof.
  intros [_ Hbefore] Hroot Hreach.
  induction Hreach as [|p c v Hpc _ IH]; [done|].
  apply IH. apply list_elem_of_lookup in Hroot as [i Hi].
  destruct (Hbefore i p c Hi Hpc) as (j & _ & Hj).
  apply list_elem_of_lookup. by exists j.
Qed.

Lemma topo_ok_before h topo p c :
  topo_ok h topo -> p ∈ topo -> child h p c -> before topo c p.
Proof.
  intros [_ Hbefore] Hp Hc.
  apply list_elem_of_lookup in Hp as [i Hi].
  destruct (Hbefore i p c Hi Hc) as (j & Hlt & Hj).
  by exists j, i.
Qed.

Lemma before_reverse (l : list ref) a b : before l a b -> before (reverse l) b a.
Proof.
  intros (i & j & Hi & Hj & Hlt).
  pose proof (lookup_lt_Some _ _ _ Hi) as Li.
  pose proof (lookup_lt_Some _ _ _ Hj) as Lj.
  exists (length l - S j), (length l - S i).
  rewrite !reverse_lookup by lia.
  replace (length l - S (length l - S j)) with j by lia.
  replace (length l - S (length l - S i)) with i by lia.
  split_and!; [done | done | lia].
Qed.

(** The traversal started at the root with nothing visited. *)
Lemma build_topo_root (h : Value.heap) (rank : ref -> nat) (root : ref)
    (limit : nat) :
  acyclic_by rank h ->
  rank root < limit ->
  exists visited topo,
    Value.build_topo limit h root (∅, []) = Ok (visited, topo) /\
    topo_ok h topo /\
    (forall v, v ∈ topo <-> reachable h root v).
Proof.
  intros Hacyc Hlim.
  destruct (build_topo_spec h rank Hacyc limit root ∅ [])
    as (vis & topo & E & _ & _ & Hroot & Hok & Hreach).
  - done.
  - intros x Hx. by apply elem_of_nil in Hx.
  - intros u Hu. by apply not_elem_of_empty in Hu.
  - split; [apply NoDup_nil_2|]. intros i p c Hi. by rewrite lookup_nil in Hi.
  - exists vis, topo. simpl in *.
    split; [done|]. split; [done|].
    intros v. split; [apply Hreach | by apply (topo_ok_closed h topo root)].
Qed.

(** C5. On an acyclic graph, with recursion depth to spare, the traversal of
    [backprop] returns a list that holds every node reachable from the root
    exactly once and in which, for every edge, the operand (child) stands
    strictly before its consumer (parent); in the reversed list, which is the
    order the backward rules run in, every parent stands before its
    operands. *)
Theorem build_topo_topological (h : Value.heap) (rank : ref -> nat)
    (root : ref) (limit : nat) :
  acyclic_by rank h ->
  rank root < limit ->
  exists visited topo,
    Value.build_topo limit h root (∅, []) = Ok (visited, topo) /\
    NoDup topo /\
    (forall v, v ∈ topo <-> reachable h root v) /\
    (forall p c, p ∈ topo -> child h p c -> before topo c p) /\
    (forall p c, p ∈ topo -> child h p c -> before (reverse topo) p c).
Proof.
  intros Hacyc Hlim.
  destruct (build_topo_root h rank root limit Hacyc Hlim)
    as (vis & topo & E & Hok & Hreach).
  exists vis, topo.
  split; [done|]. split; [apply Hok|]. split; [done|]. split.
  - intros p c Hp Hc. by apply (topo_ok_before h).
  - intros p c Hp Hc. by apply before_reverse, (topo_ok_before h).
Qed.

(** ** Builders make well-formed, up-to-date nodes *)

Lemma get_frame {A} (f : Value.t -> A) (d : A) n h h' i :
  frame n h h' -> i < length h -> Value.get f d h' i = Value.get f d h i.
Proof. intros [H _] Hi. unfold Value.get. by rewrite H. Qed.

Lemma node_shape_frame n h h' i :
  frame n h h' -> i < length h -> node_shape h i -> node_shape h' i.
Proof.
  intros Hf Hi. unfold node_shape, Value.backward_of, Value.op_of,
    Value.children_of. by rewrite !(get_frame _ _ n h h' i).
Qed.

Lemma node_value_frame n h h' i :
  frame n h h' -> i < length h -> node_shape h i -> node_value h i ->
  node_value h' i.
Proof.
  intros Hf Hi. unfold node_shape, node_value, Value.backward_of, Value.val_of.
  rewrite !(get_frame _ _ n h h' i) by done.
  destruct (Value.get Value.backward bw_default h i); try done.
  1,2: intros (_ & Hs & Ho & _);
       by rewrite !(get_frame _ _ n h h' self), !(get_frame _ _ n h h' other)
         by (done || lia).
  all: intros (_ & Hs & _);
       by rewrite !(get_frame _ _ n h h' self) by (done || lia).
Qed.

Lemma well_formed_nil : well_formed [].
Proof. intros i. unfold node_shape. by destruct i. Qed.

Lemma node_shape_out_of_heap h i : length h <= i -> node_shape h i.
Proof.
  intros Hi. unfold node_shape, Value.backward_of, Value.op_of,
    Value.children_of. by rewrite !get_ge.
Qed.

(** A heap extended by fresh nodes is well formed when the fresh nodes are. *)
Lemma well_formed_frame n h h' :
  frame n h h' -> well_formed h ->
  (forall i, length h <= i < length h' -> node_shape h' i) ->
  well_formed h'.
Proof.
  intros Hf Hwf Hnew i.
  destruct (decide (i < length h)); [by apply (node_shape_frame n h)|].
  destruct (decide (i < length h')); [apply Hnew; lia|].
  apply node_shape_out_of_heap. lia.
Qed.

(** Attributes of the node a builder has just allocated and closed. *)
Lemma get_node {A} (f : Value.t -> A) (d : A) h v b :
  Value.get f d (Value.set_backward (h ++ [v]) (length h) b) (length h)
  = f (Value.with_backward b v).
Proof.
  unfold Value.get, Value.set_backward.
  rewrite list_lookup_alter_eq, lookup_app_r by lia.
  by rewrite Nat.sub_diag.
Qed.

Lemma get_node_old {A} (f : Value.t -> A) (d : A) h v b i :
  i < length h ->
  Value.get f d (Value.set_backward (h ++ [v]) (length h) b) i
  = Value.get f d h i.
Proof.
  intros Hi. unfold Value.get, Value.set_backward.
  rewrite list_lookup_alter_ne by lia. by rewrite lookup_app_l.
Qed.

Lemma pristine_nil : pristine [].
Proof.
  split; [apply well_formed_nil|]. intros i.
  unfold node_value, Value.backward_of, Value.grad_of. by rewrite !get_ge by (simpl; lia).
Qed.

(** A heap extended by fresh nodes is pristine when the fresh nodes are. *)
Lemma pristine_frame n h h' :
  frame n h h' -> pristine h ->
  (forall i, length h <= i < length h' ->
     node_shape h' i /\ node_value h' i /\ Value.grad_of h' i = 0%R) ->
  pristine h'.
Proof.
  intros Hf [Hwf Hall] Hnew. split.
  - apply (well_formed_frame n h); [done | done |]. intros i Hi. by apply Hnew.
  - intros i. destruct (decide (i < length h)) as [Hi|Hi].
    + destruct (Hall i) as [Hv Hg]. split.
      * by apply (node_value_frame n h).
      * unfold Value.grad_of in *. by rewrite (get_frame _ _ n h h' i).
    + destruct (decide (i < length h')); [apply Hnew; lia|].
      unfold node_value, Value.backward_of, Value.grad_of.
      by rewrite !get_ge by lia.
Qed.

Lemma pristine_leaf h x l :
  pristine h -> pristine (Value.new h (Value.__init__ x l None None)).1.
Proof.
  intros Hp. apply (pristine_frame 1 h); [apply frame_new | done |].
  simpl. intros i Hi. rewrite length_app in Hi. simpl in Hi.
  assert (i = length h) as -> by lia.
  unfold node_shape, node_value, Value.backward_of, Value.op_of,
    Value.children_of, Value.grad_of.
  by rewrite !get_new.
Qed.

Lemma pristine_coerce h other :
  pristine h -> valid h other ->
  pristine (Value.coerce h other).1 /\
  (Value.coerce h other).2 < length (Value.coerce h other).1 /\
  length h <= length (Value.coerce h other).1.
Proof.
  intros Hp Hv. destruct other as [o|x]; simpl.
  - by split_and!.
  - split_and!; [by apply pristine_leaf | |]; rewrite length_app; simpl; lia.
Qed.

(** Labelling changes no attribute the invariants read. *)
Lemma pristine_label h r s : pristine h -> pristine (Value.__or__ h r s).1.
Proof.
  intros [Hwf Hall]. simpl.
  assert (Hget : forall {A} (f : Value.t -> A) d i,
            (forall v, f (Value.with_label (Some s) v) = f v) ->
            Value.get f d (Value.set_label h r (Some s)) i = Value.get f d h i)
    by (intros A f d i Hf; by apply get_alter).
  split.
  - intros i. specialize (Hwf i). unfold node_shape in *.
    unfold Value.backward_of, Value.op_of, Value.children_of in *.
    by rewrite !Hget.
  - intros i. destruct (Hall i) as [Hv Hg]. split.
    + unfold node_value in *. unfold Value.backward_of, Value.val_of in *.
      rewrite Hget by done.
      destruct (Value.get Value.backward bw_default h i);
        by rewrite ?Hget.
    + unfold Value.grad_of in *. by rewrite Hget.
Qed.

(** The common part of all builders: one node is allocated, the closure is
    installed, and the node has the shape and the value it should. *)
Lemma pristine_node h v b :
  pristine h ->
  Value.grad v = 0%R ->
  (let h' := Value.set_backward (h ++ [v]) (length h) b in
   node_shape h' (length h) /\ node_value h' (length h)) ->
  pristine (Value.set_backward (Value.new h v).1 (Value.new h v).2 b).
Proof.
  simpl. intros Hp Hg [Hshape Hval].
  pose proof (frame_node h v b) as Hf. simpl in Hf.
  apply (pristine_frame 1 h); [done | done |].
  intros i Hi. destruct Hf as [_ Hlen]. rewrite Hlen in Hi.
  assert (i = length h) as -> by lia.
  split_and!; [done | done |]. unfold Value.grad_of. by rewrite get_node.
Qed.

Ltac new_node :=
  unfold node_shape, node_value, Value.backward_of, Value.op_of,
    Value.children_of, Value.val_of;
  rewrite !get_node; simpl; rewrite ?get_node_old by done.

Lemma pristine_add flip h self other :
  pristine h -> self < length h -> valid h other ->
  pristine (Value.__add__ flip h self other).1.
Proof.
  intros Hp Hs Hv. unfold Value.__add__.
  destruct (pristine_coerce h other Hp Hv) as (Hp1 & Ho & Hlen).
  destruct (Value.coerce h other) as [h1 o]. simpl in *.
  assert (self < length h1) by lia.
  apply pristine_node; [done | done |]. new_node.
  split; [split_and!; eauto | done].
Qed.

Lemma pristine_mul flip h self other :
  pristine h -> self < length h -> valid h other ->
  pristine (Value.__mul__ flip h self other).1.
Proof.
  intros Hp Hs Hv. unfold Value.__mul__.
  destruct (pristine_coerce h other Hp Hv) as (Hp1 & Ho & Hlen).
  destruct (Value.coerce h other) as [h1 o]. simpl in *.
  assert (self < length h1) by lia.
  apply pristine_node; [done | done |]. new_node.
  split; [split_and!; eauto | done].
Qed.

Lemma pristine_pow h self k r :
  pristine h -> self < length h -> Value.__pow__ h self k = Ok r ->
  pristine r.1.
Proof.
  intros Hp Hs. unfold Value.__pow__.
  destruct (py_pow (Value.val_of h self) k) as [v|] eqn:E; cbn; [|done].
  intros [= <-]. simpl.
  apply pristine_node; [done | done |]. new_node. by split_and!.
Qed.

Lemma pristine_abs h self :
  pristine h -> self < length h -> pristine (Value.__abs__ h self).1.
Proof.
  intros Hp Hs. apply pristine_node; [done | done |]. new_node. by split_and!.
Qed.

Lemma pristine_sigmoid h self r :
  pristine h -> self < length h -> Value.sigmoid h self = Ok r ->
  pristine r.1.
Proof.
  intros Hp Hs. unfold Value.sigmoid.
  destruct (value.sigmoid (Value.val_of h self)) as [v|] eqn:E; cbn; [|done].
  intros [= <-]. simpl.
  apply pristine_node; [done | done |]. new_node. by split_and!.
Qed.

Lemma pristine_tanh h self :
  pristine h -> self < length h -> pristine (Value.tanh h self).1.
Proof.
  intros Hp Hs. apply pristine_node; [done | done |]. new_node. by split_and!.
Qed.

Lemma pristine_relu h self :
  pristine h -> self < length h -> pristine (Value.relu h self).1.
Proof.
  intros Hp Hs. apply pristine_node; [done | done |]. new_node. by split_and!.
Qed.

Lemma pristine_exp h self r :
  pristine h -> self < length h -> Value.exp h self = Ok r -> pristine r.1.
Proof.
  intros Hp Hs. unfold Value.exp.
  destruct (math_exp (Value.val_of h self)) as [v|] eqn:E; cbn; [|done].
  intros [= <-]. simpl.
  apply pristine_node; [done | done |]. new_node. by split_and!.
Qed.

(** Every heap the builders make is well formed and up to date, with all
    accumulators at 0. *)
Lemma built_pristine h : built h -> pristine h.
Proof.
  induction 1.
  - apply pristine_nil.
  - by apply pristine_leaf.
  - by apply pristine_label.
  - by apply pristine_add.
  - by apply pristine_mul.
  - by apply pristine_abs.
  - by apply (pristine_pow h self k).
  - by apply (pristine_sigmoid h self).
  - by apply pristine_tanh.
  - by apply pristine_relu.
  - by apply (pristine_exp h self).
Qed.

(** The derived operators stay within the built heaps. *)
Lemma built_neg flip h self :
  built h -> self < length h -> built (Value.__neg__ flip h self).1.
Proof. intros Hb Hs. by apply (built_mul flip h self (inr (-1)%R)). Qed.

Lemma built_sub flips h self other :
  built h -> self < length h -> valid h other ->
  built (Value.__sub__ flips h self other).1.
Proof.
  intros Hb Hs Hv. unfold Value.__sub__. destruct other as [o|x].
  - pose proof (built_neg flips.1 h o Hb Hv) as Hn.
    pose proof (frame_neg flips.1 h o) as [_ Hlen].
    destruct (Value.__neg__ flips.1 h o) as [h1 n] eqn:E. simpl in *.
    apply (built_add _ h1 self (inl n)); [done | lia |].
    unfold Value.__neg__, Value.__mul__ in E. simpl in E.
    injection E as <- <-. simpl.
    rewrite length_set_backward, !length_app. simpl. lia.
  - by apply (built_add _ h self (inr (- x)%R)).
Qed.

Lemma built_truediv flip h self other r :
  built h -> self < length h -> valid h other ->
  Value.__truediv__ flip h self other = Ok r -> built r.1.
Proof.
  intros Hb Hs Hv. unfold Value.__truediv__. destruct other as [o|x].
  - destruct (Value.__pow__ h o (-1)) as [[h1 p]|] eqn:E; cbn; [|done].
    intros [= <-].
    pose proof (built_pow h o (-1) (h1, p) Hb Hv E) as Hp.
    pose proof (frame_pow h o (-1)) as Hf. rewrite E in Hf.
    destruct Hf as [_ Hlen]. simpl in *.
    apply (built_mul flip h1 self (inl p)); [done | lia |].
    unfold Value.__pow__ in E.
    destruct (py_pow _ _); cbn in E; [|done]. injection E as <- <-.
    simpl. rewrite length_set_backward, length_app. simpl. lia.
  - destruct (py_pow x (-1)) as [p|]; cbn; [|done].
    intros [= <-]. by apply (built_mul flip h self (inr p)).
Qed.

(** ** Finite sums of reals *)

Lemma sumR_app (l1 l2 : list R) : sumR (l1 ++ l2) = (sumR l1 + sumR l2)%R.
Proof. induction l1 as [|x l1 IH]; csimpl; [lra | rewrite IH; lra]. Qed.

Section sums.
Context {A : Type}.
Implicit Types (f g : A -> R) (l : list A).

Lemma sumR_fmap_ext f g l :
  (forall x, x ∈ l -> f x = g x) -> sumR (f <$> l) = sumR (g <$> l).
Proof.
  induction l as [|x l IH]; intros H; csimpl; [done|].
  rewrite (H x) by left. rewrite IH; [done|].
  intros y Hy. apply H. by right.
Qed.

Lemma sumR_fmap_plus f g l :
  sumR ((fun x => f x + g x)%R <$> l) = (sumR (f <$> l) + sumR (g <$> l))%R.
Proof. induction l as [|x l IH]; csimpl; [lra | rewrite IH; lra]. Qed.

Lemma sumR_fmap_scal (a : R) f l :
  sumR ((fun x => a * f x)%R <$> l) = (a * sumR (f <$> l))%R.
Proof. induction l as [|x l IH]; csimpl; [lra | rewrite IH; lra]. Qed.

Lemma sumR_fmap_zero l : sumR ((fun _ => 0%R) <$> l) = 0%R.
Proof. induction l as [|x l IH]; csimpl; [done | rewrite IH; lra]. Qed.
End sums.

(** A sum over a duplicate-free list picks out the one matching term. *)
Lemma sumR_pick (l : list ref) (c : ref) (w : R) (X : ref -> R) :
  NoDup l -> c ∈ l ->
  sumR ((fun u => (if decide (c = u) then w else 0) * X u)%R <$> l)
  = (w * X c)%R.
Proof.
  induction 1 as [|u l Hu Hnd IH]; intros Hc; [by apply elem_of_nil in Hc|].
  csimpl. destruct (decide (c = u)) as [->|Hne].
  - rewrite (sumR_fmap_ext _ (fun _ => 0%R)), sumR_fmap_zero; [lra|].
    intros x Hx. destruct (decide (u = x)) as [->|]; [done | lra].
  - apply elem_of_cons in Hc as [?|Hc]; [done|]. rewrite IH by done. lra.
Qed.

Lemma sumR_miss (l : list ref) (c : ref) (w : R) (X : ref -> R) :
  c ∉ l ->
  sumR ((fun u => (if decide (c = u) then w else 0) * X u)%R <$> l) = 0%R.
Proof.
  intros Hc. rewrite (sumR_fmap_ext _ (fun _ => 0%R)), sumR_fmap_zero; [done|].
  intros x Hx. destruct (decide (c = x)) as [->|]; [done | lra].
Qed.

(** Exchanging the sum over the nodes of [l] with the sum over the operand
    edges of a node: each edge leads to exactly one node of [l]. *)
Lemma sumR_incr (h : Value.heap) (n : ref) (l : list ref) (X : ref -> R) :
  NoDup l ->
  (forall c w, (c, w) ∈ partials h n -> c ∈ l) ->
  sumR ((fun u => incr h n u * X u)%R <$> l)
  = sumR ((fun '(c, w) => w * X c)%R <$> partials h n).
Proof.
  intros Hnd. unfold incr. induction (partials h n) as [|[c w] ps IH]; intros Hin.
  - csimpl. rewrite (sumR_fmap_ext _ (fun _ => 0%R)), sumR_fmap_zero; [done|].
    intros; lra.
  - csimpl. rewrite <- IH by (intros c' w' H'; apply (Hin c' w'); by right).
    rewrite <- (sumR_pick l c w X Hnd) by (apply (Hin c w); left).
    rewrite <- sumR_fmap_plus. apply sumR_fmap_ext. intros u _. lra.
Qed.

(** ** Edges of a well-formed heap *)

Lemma set2_elem flip (s o x : ref) : x ∈ Value.set2 flip s o <-> x = s \/ x = o.
Proof.
  unfold Value.set2. destruct (decide (s = o)) as [->|]; [|destruct flip];
    rewrite ?elem_of_cons, ?list_elem_of_singleton, ?elem_of_nil; tauto.
Qed.

Lemma set2_NoDup flip (s o : ref) : NoDup (Value.set2 flip s o).
Proof.
  unfold Value.set2. destruct (decide (s = o)) as [->|]; [|destruct flip];
    repeat constructor; rewrite ?elem_of_cons, ?elem_of_nil; intuition congruence.
Qed.

(** The operand edges of a node lead to its children, allocated before it. *)
Lemma partials_child (h : Value.heap) (n c : ref) (w : R) :
  well_formed h -> (c, w) ∈ partials h n -> child h n c /\ c < n.
Proof.
  intros Hwf Hin. specialize (Hwf n). unfold node_shape in Hwf.
  unfold partials in Hin. unfold child.
  destruct (Value.backward_of h n); simpl in Hin;
    rewrite ?elem_of_cons, ?list_elem_of_singleton, ?elem_of_nil in Hin;
    try done.
  1,2: destruct Hwf as (-> & Hs & Ho & _ & flip & ->);
       rewrite set2_elem; destruct Hin as [[= -> _]|[[= -> _]|[]]]; auto.
  all: destruct Hwf as (-> & Hs & _ & ->);
       destruct Hin as [[= -> _]|[]]; split; [left | done].
Qed.

(** Conversely every child is the target of an operand edge. *)
Lemma child_partials (h : Value.heap) (n c : ref) :
  well_formed h -> child h n c -> exists w, (c, w) ∈ partials h n.
Proof.
  intros Hwf Hc. specialize (Hwf n). unfold node_shape in Hwf.
  unfold partials. unfold child in Hc.
  destruct (Value.backward_of h n).
  - destruct Hwf as [_ E]. rewrite E in Hc. by apply elem_of_nil in Hc.
  - destruct Hwf as (_ & _ & _ & _ & flip & E). rewrite E, set2_elem in Hc.
    destruct Hc as [->| ->]; eexists; [left | right; left].
  - destruct Hwf as (_ & _ & _ & _ & flip & E). rewrite E, set2_elem in Hc.
    destruct Hc as [->| ->]; eexists; [left | right; left].
  - destruct Hwf as (_ & _ & _ & E). rewrite E in Hc.
    apply list_elem_of_singleton in Hc as ->. eexists; left.
  - destruct Hwf as (_ & _ & _ & E). rewrite E in Hc.
    apply list_elem_of_singleton in Hc as ->. eexists; left.
  - destruct Hwf as (_ & _ & _ & E). rewrite E in Hc.
    apply list_elem_of_singleton in Hc as ->. eexists; left.
  - destruct Hwf as (_ & _ & _ & E). rewrite E in Hc.
    apply list_elem_of_singleton in Hc as ->. eexists; left.
  - destruct Hwf as (_ & _ & _ & E). rewrite E in Hc.
    apply list_elem_of_singleton in Hc as ->. eexists; left.
  - destruct Hwf as (_ & _ & _ & E). rewrite E in Hc.
    apply list_elem_of_singleton in Hc as ->. eexists; left.
Qed.

(** Allocation order ranks a well-formed heap. *)
Lemma well_formed_acyclic (h : Value.heap) :
  well_formed h -> acyclic_by (fun r => r) h.
Proof.
  intros Hwf p c Hc. destruct (child_partials h p c Hwf Hc) as [w Hw].
  by apply (partials_child h p c w Hwf).
Qed.

(** ** The chain rule, unfolded one edge *)

Section chain_rule.
Variable h : Value.heap.
Hypothesis Hwf : well_formed h.

Lemma sumR_cons_paths (w : R) (ps : list (list R)) :
  sumR (path_weight <$> (cons w <$> ps))
  = (w * sumR (path_weight <$> ps))%R.
Proof. induction ps as [|p ps IH]; csimpl; [lra | rewrite IH; lra]. Qed.

Lemma derivative_upto_0 (u v : ref) : derivative_upto 0 h u v = delta u v.
Proof.
  unfold derivative_upto, delta. simpl.
  destruct (decide (u = v)); csimpl; lra.
Qed.

Lemma derivative_upto_S (n : nat) (u v : ref) :
  derivative_upto (S n) h u v
  = (delta u v
     + sumR ((fun '(c, w) => w * derivative_upto n h c v)%R <$> partials h u))%R.
Proof.
  unfold derivative_upto, delta. simpl.
  rewrite fmap_app, sumR_app. f_equal.
  - destruct (decide (u = v)); csimpl; lra.
  - induction (partials h u) as [|[c w] ps IH]; csimpl; [done|].
    rewrite fmap_app, sumR_app, sumR_cons_paths, IH. done.
Qed.

(** Paths only descend, so any bound at least [u] allows all of them. *)
Lemma derivative_upto_enough (n m : nat) (u v : ref) :
  u <= n -> u <= m -> derivative_upto n h u v = derivative_upto m h u v.
Proof.
  revert m u. induction n as [|n IH]; intros m u Hn Hm.
  - assert (u = 0) as -> by lia. destruct m; [done|].
    rewrite derivative_upto_0, derivative_upto_S.
    destruct (partials h 0) as [|[c w] ps] eqn:E; csimpl; [lra|].
    destruct (partials_child h 0 c w Hwf) as [_ ?]; [rewrite E; left | lia].
  - destruct m as [|m].
    + assert (u = 0) as -> by lia.
      rewrite derivative_upto_0, derivative_upto_S.
      destruct (partials h 0) as [|[c w] ps] eqn:E; csimpl; [lra|].
      destruct (partials_child h 0 c w Hwf) as [_ ?]; [rewrite E; left | lia].
    + rewrite !derivative_upto_S. f_equal.
      apply sumR_fmap_ext. intros [c w] Hin.
      destruct (partials_child h u c w Hwf Hin) as [_ Hlt].
      rewrite (IH m c) by lia. done.
Qed.

Lemma partials_out_of_heap (u : ref) : length h <= u -> partials h u = [].
Proof.
  intros Hu. unfold partials, Value.backward_of.
  by rewrite get_ge.
Qed.

Lemma total_derivative_unfold (u v : ref) :
  total_derivative h u v = (delta u v + chain h u v)%R.
Proof.
  unfold total_derivative, chain.
  change (derivative_upto (length h) h u v =
          (delta u v + sumR ((fun '(c, w) => w * derivative_upto (length h) h c v)%R
                               <$> partials h u))%R).
  destruct (decide (u <= length h)) as [Hu|Hu].
  - rewrite (derivative_upto_enough (length h) (S (length h))) by lia.
    apply derivative_upto_S.
  - rewrite partials_out_of_heap by lia. csimpl.
    destruct (length h) eqn:E.
    + rewrite derivative_upto_0. lra.
    + rewrite derivative_upto_S, partials_out_of_heap by lia. csimpl. lra.
Qed.

Lemma total_derivative_self (v : ref) : total_derivative h v v = 1%R.
Proof.
  rewrite total_derivative_unfold. unfold delta, chain.
  destruct (decide (v = v)); [|done].
  assert (forall n u, u < v -> derivative_upto n h u v = 0%R) as Hz.
  { induction n as [|n IH]; intros u Hu.
    - rewrite derivative_upto_0. unfold delta. destruct (decide (u = v)); [lia | done].
    - rewrite derivative_upto_S. unfold delta. destruct (decide (u = v)); [lia|].
      rewrite (sumR_fmap_ext _ (fun _ => 0%R)), sumR_fmap_zero; [lra|].
      intros [c w] Hin. destruct (partials_child h u c w Hwf Hin) as [_ Hlt].
      rewrite IH by lia. lra. }
  rewrite (sumR_fmap_ext _ (fun _ => 0%R)), sumR_fmap_zero; [lra|].
  intros [c w] Hin. destruct (partials_child h v c w Hwf Hin) as [_ Hlt].
  unfold total_derivative. fold (derivative_upto (length h) h c v).
  rewrite Hz by done. lra.
Qed.
End chain_rule.

(** ** Running one backward rule *)

Lemma same_graph_refl h : same_graph h h.
Proof. split; [done | intros i; by split_and!]. Qed.

Lemma same_graph_set_grad h h' r g :
  same_graph h h' -> same_graph h (Value.set_grad h' r g).
Proof.
  intros [Hlen H]. split; [by rewrite length_set_grad|].
  intros i. destruct (H i) as (? & ? & ? & ? & ?).
  rewrite val_of_set_grad, label_of_set_grad, children_of_set_grad,
    op_of_set_grad, backward_of_set_grad. by split_and!.
Qed.

Lemma same_graph_trans h1 h2 h3 :
  same_graph h1 h2 -> same_graph h2 h3 -> same_graph h1 h3.
Proof.
  intros [L12 H12] [L23 H23]. split; [congruence|].
  intros i. destruct (H12 i) as (? & ? & ? & ? & ?).
  destruct (H23 i) as (? & ? & ? & ? & ?). split_and!; congruence.
Qed.

Lemma relu_positive (a : R) :
  (if Rlt_dec 0 (value.relu a) then 1%R else 0%R)
  = (if Rlt_dec 0 a then 1%R else 0%R).
Proof.
  unfold value.relu, Rmax.
  destruct (Rle_dec 0 a); destruct (Rlt_dec 0 a); destruct (Rlt_dec 0 0);
    try done; lra.
Qed.

Ltac grads :=
  rewrite ?grad_of_set_grad by (rewrite ?length_set_grad; lia);
  rewrite ?val_of_set_grad;
  repeat case_decide; subst; try lia; try lra.

(** The backward rule of an accumulating node [n] adds to every operand its
    partial derivative times the accumulator of [n], and touches nothing
    else. *)
Lemma call_accumulates (h0 h : Value.heap) (n : ref) :
  well_formed h0 ->
  same_graph h0 h ->
  n < length h0 ->
  accumulates (Value.backward_of h0 n) ->
  node_value h0 n ->
  pow_safe h0 n ->
  exists h',
    Value.call (Value.backward_of h n) h = Ok h' /\
    same_graph h0 h' /\
    forall x, Value.grad_of h' x
              = (Value.grad_of h x + incr h0 n x * Value.grad_of h n)%R.
Proof.
  intros Hwf Hsame Hn Hacc Hval Hsafe.
  destruct Hsame as [Hlen Hsame0].
  assert (Hsame : same_graph h0 h) by (by split).
  assert (Hv : forall i, Value.val_of h i = Value.val_of h0 i).
  { intros i. by destruct (Hsame0 i) as (-> & _). }
  destruct (Hsame0 n) as (_ & _ & _ & _ & <-).
  specialize (Hwf n). unfold node_shape in Hwf.
  unfold node_value in Hval. unfold pow_safe in Hsafe.
  unfold incr, partials.
  destruct (Value.backward_of h0 n) as
    [|s o out|s o out|s out|s k out|s val out|s val out|s val out|s out];
    simpl in Hacc; try done; csimpl.
  - exists h. split_and!; [done | done | intros x; lra].
  - destruct Hwf as (-> & Hs & Ho & _).
    eexists. split; [done|]. split; [by do 2 apply same_graph_set_grad|].
    intros x. grads.
  - destruct Hwf as (-> & Hs & Ho & _).
    eexists. split; [done|]. split; [by do 2 apply same_graph_set_grad|].
    intros x. rewrite !val_of_set_grad, !Hv. grads.
  - destruct Hwf as (-> & Hs & _).
    destruct Hsafe as [p Hp]. rewrite Hv, Hp. csimpl.
    apply py_pow_value in Hp as ->.
    eexists. split; [done|]. split; [by apply same_graph_set_grad|].
    intros x. grads.
  - destruct Hwf as (-> & Hs & _). destruct Hval as [-> _].
    rewrite py_pow_2_small
      by (pose proof (tanh_bound (Value.val_of h0 s)); lra).
    csimpl.
    eexists. split; [done|]. split; [by apply same_graph_set_grad|].
    intros x. grads.
  - destruct Hwf as (-> & Hs & _). destruct Hval as [-> _].
    rewrite relu_positive.
    eexists. split; [done|]. split; [by apply same_graph_set_grad|].
    intros x. destruct (Rlt_dec 0 (Value.val_of h0 s)); grads.
  - destruct Hwf as (-> & Hs & _).
    eexists. split; [done|]. split; [by apply same_graph_set_grad|].
    intros x. rewrite Hv. apply math_exp_value in Hval as ->. grads.
Qed.

(** ** Running the backward rules, consumers first *)

Lemma parents_first_NoDup h l : parents_first h l -> NoDup l.
Proof. induction 1; constructor; auto. Qed.

Lemma topo_ok_snoc h t n :
  topo_ok h (t ++ [n]) ->
  topo_ok h t /\ (n ∉ t) /\ (forall c, child h n c -> c ∈ t).
Proof.
  intros [Hnd Hbefore]. apply NoDup_app in Hnd as (Hnd & Hdisj & _).
  split_and!.
  - split; [done|]. intros i p c Hi Hc.
    destruct (Hbefore i p c) as (j & Hj & Hjc); [by apply lookup_app_l_Some | done |].
    exists j. split; [done|].
    rewrite lookup_app_l in Hjc; [done|]. apply lookup_lt_Some in Hi. lia.
  - intros Hin. apply (Hdisj n Hin). by apply list_elem_of_singleton.
  - intros c Hc.
    destruct (Hbefore (length t) n c) as (j & Hj & Hjc); [|done|].
    + rewrite lookup_app_r by lia. by rewrite Nat.sub_diag.
    + rewrite lookup_app_l in Hjc by done.
      apply list_elem_of_lookup. by exists j.
Qed.

Lemma topo_ok_reverse h topo : topo_ok h topo -> parents_first h (reverse topo).
Proof.
  induction topo as [|n t IH] using rev_ind; intros Hok.
  - constructor.
  - rewrite reverse_snoc. apply topo_ok_snoc in Hok as (Hok & Hn & Hc).
    constructor; [by rewrite elem_of_reverse | | by apply IH].
    intros c Hcn. rewrite elem_of_reverse. by apply Hc.
Qed.

Lemma incr_delta h n v :
  incr h n v = sumR ((fun '(c, w) => w * delta c v)%R <$> partials h n).
Proof.
  unfold incr. apply sumR_fmap_ext. intros [c w] _. unfold delta.
  destruct (decide (c = v)); lra.
Qed.

Lemma chain_unfold h n v :
  well_formed h ->
  chain h n v
  = (incr h n v + sumR ((fun '(c, w) => w * chain h c v)%R <$> partials h n))%R.
Proof.
  intros Hwf. rewrite incr_delta, <- sumR_fmap_plus. unfold chain at 1.
  apply sumR_fmap_ext. intros [c w] _.
  rewrite (total_derivative_unfold h) by done. lra.
Qed.

(** After the rules of the nodes of [l] have run, every accumulator has
    gained, for each node [u] of [l], the accumulator [u] held at the start
    times the chain-rule sum over the paths from [u]. *)
Lemma run_backward_spec (h0 : Value.heap) (l : list ref) :
  well_formed h0 ->
  parents_first h0 l ->
  (forall n, n ∈ l -> n < length h0 /\ admissible h0 n) ->
  forall h, same_graph h0 h ->
  exists h',
    foldM (fun h n => Value.call (Value.backward_of h n) h) h l = Ok h' /\
    same_graph h0 h' /\
    forall v, Value.grad_of h' v
              = (Value.grad_of h v
                 + sumR ((fun u => Value.grad_of h u * chain h0 u v)%R <$> l))%R.
Proof.
  intros Hwf Hpf. induction Hpf as [|n l Hn Hch Hpf IH]; intros Hall h Hsame.
  - exists h. csimpl. split_and!; [done | done | intros v; lra].
  - destruct (Hall n) as (Hlen & Hacc & Hval & Hsafe); [left|].
    destruct (call_accumulates h0 h n) as (h1 & E1 & Hsame1 & Hg1); try done.
    destruct IH with (h := h1) as (h' & E' & Hsame' & Hg'); [|done|].
    { intros m Hm. apply Hall. by right. }
    exists h'. csimpl. rewrite E1. csimpl. split; [done|]. split; [done|].
    intros v. rewrite Hg', Hg1.
    rewrite (sumR_fmap_ext _
      (fun u => Value.grad_of h u * chain h0 u v
                + Value.grad_of h n * (incr h0 n u * chain h0 u v))%R)
      by (intros u _; rewrite Hg1; lra).
    rewrite sumR_fmap_plus, sumR_fmap_scal.
    rewrite (sumR_incr h0 n l (fun u => chain h0 u v)).
    + rewrite (chain_unfold h0 n v) by done. lra.
    + by apply (parents_first_NoDup h0).
    + intros c w Hin. apply Hch. by apply (partials_child h0 n c w).
Qed.

(** ** [backprop] *)

Lemma foldM_ext {A B} (f g : B -> A -> result B) (b : B) (l : list A) :
  (forall b a, f b a = g b a) -> foldM f b l = foldM g b l.
Proof.
  intros H. revert b. induction l as [|a l IH]; intros b; simpl; [done|].
  rewrite H. destruct (g b a); simpl; auto.
Qed.

(** The traversal reads nothing but the operand sets. *)
Lemma build_topo_ext (h h' : Value.heap) :
  (forall i, Value.children_of h i = Value.children_of h' i) ->
  forall limit v st,
    Value.build_topo limit h v st = Value.build_topo limit h' v st.
Proof.
  intros H. induction limit as [|limit IH]; intros v st; simpl; [done|].
  rewrite H. destruct (decide (v ∈ st.1)); [done|].
  by rewrite (foldM_ext _ (fun st c => Value.build_topo limit h' c st)).
Qed.

Lemma reachable_le (h : Value.heap) (root v : ref) :
  well_formed h -> reachable h root v -> v <= root.
Proof.
  intros Hwf Hr. induction Hr as [|p c v Hpc _ IH]; [done|].
  pose proof (well_formed_acyclic h Hwf p c Hpc). simpl in *. lia.
Qed.

(** [backprop] in general: whatever the accumulators hold before the call,
    the root is set to 1 and every accumulator gains, for each node [u]
    reachable from the root, the content of [u] times the chain-rule sum over
    the paths of at least one edge from [u]. *)
Lemma backprop_spec (h : Value.heap) (rank : ref -> nat) (root : ref)
    (limit : nat) :
  well_formed h ->
  acyclic_by rank h ->
  rank root < limit ->
  root < length h ->
  (forall n, reachable h root n -> admissible h n) ->
  exists h' nodes,
    Value.backprop limit h root = Ok h' /\
    same_graph h h' /\
    NoDup nodes /\
    (forall u, u ∈ nodes <-> reachable h root u) /\
    forall v,
      Value.grad_of h' v
      = (Value.grad_of (Value.set_grad h root 1) v
         + sumR ((fun u => Value.grad_of (Value.set_grad h root 1) u
                           * chain h u v)%R <$> nodes))%R.
Proof.
  intros Hwf Hacyc Hlim Hroot Hdiff.
  destruct (build_topo_root h rank root limit Hacyc Hlim)
    as (vis & topo & E & Hok & Hreach).
  assert (Hin : forall u, u ∈ reverse topo <-> reachable h root u).
  { intros u. by rewrite elem_of_reverse. }
  destruct (run_backward_spec h (reverse topo) Hwf (topo_ok_reverse h topo Hok))
    with (h := Value.set_grad h root 1) as (h' & E' & Hsame & Hgrad).
  { intros n Hn. apply Hin in Hn. split; [|by apply Hdiff].
    pose proof (reachable_le h root n Hwf Hn). lia. }
  { apply same_graph_set_grad, same_graph_refl. }
  exists h', (reverse topo). unfold Value.backprop.
  rewrite (build_topo_ext _ h) by (intros i; apply children_of_set_grad).
  rewrite E. csimpl. split; [done|]. split; [done|].
  split; [|by split].
  apply (parents_first_NoDup h). by apply topo_ok_reverse.
Qed.

(** ** The gradients [backprop] leaves *)

Lemma py_pow_0_r (x : R) : py_pow x 0 = Ok 1%R.
Proof. unfold py_pow. destruct (Req_dec_T 0 0); [done | lra]. Qed.

Lemma py_pow_0_neg (y : R) : (y < 0)%R -> py_pow 0 y = Raise ZeroDivisionError.
Proof.
  intros Hy. unfold py_pow.
  destruct (Req_dec_T y 0); [lra|].
  destruct (Req_dec_T 0 0); [|lra].
  destruct (Rlt_dec y 0); [done | lra].
Qed.

(** C1, as stated, fails.  The graph [y = x ** 0] with [x = 0.0] is acyclic,
    its only non-leaf node is a power, and all accumulators are 0; the forward
    value is 1, but the backward rule evaluates [0.0 ** -1] and [backprop]
    raises ZeroDivisionError instead of setting the gradients. *)
Lemma backprop_zero_power_raises :
  exists h,
    zero_power_graph = Ok (h, 1) /\
    well_formed h /\
    (forall n, accumulates (Value.backward_of h n) /\ node_value h n /\
               Value.grad_of h n = 0%R) /\
    forall limit, 1 < limit ->
      Value.backprop limit h 1 = Raise ZeroDivisionError.
Proof.
  unfold zero_power_graph, Value.__pow__. cbn. rewrite py_pow_0_r. cbn.
  eexists. split; [done|]. split_and!.
  - intros [|[|i]]; cbn; split_and!; done || lia.
  - intros [|[|i]]; cbn; split_and!; try done. apply py_pow_0_r.
  - intros [|[|limit]] Hl; [lia | lia |].
    unfold Value.backprop. cbn. decide_sets. cbn.
    rewrite py_pow_0_neg by lra. done.
Qed.

(** The backward power can be beyond the float range where the forward power
    was not.  The graph [y = x ** -1] with [x = 1 / sys.float_info.max] is
    built without error and [y] holds [float_max]; the backward rule of [y]
    evaluates [x ** -2], the square of [float_max], and [backprop] raises
    OverflowError.  The same happens in [a / b], which is [a * b ** -1]. *)
Lemma backprop_power_overflows :
  exists h,
    reciprocal_graph = Ok (h, 1) /\
    well_formed h /\
    (forall n, accumulates (Value.backward_of h n) /\ node_value h n /\
               Value.grad_of h n = 0%R) /\
    forall limit, 1 < limit ->
      Value.backprop limit h 1 = Raise OverflowError.
Proof.
  unfold reciprocal_graph, Value.__pow__. cbn. rewrite py_pow_reciprocal. cbn.
  eexists. split; [done|]. split_and!.
  - intros [|[|i]]; cbn; split_and!; done || lia.
  - intros [|[|i]]; cbn; split_and!; try done. apply py_pow_reciprocal.
  - intros [|[|limit]] Hl; [lia | lia |].
    unfold Value.backprop. cbn. decide_sets. cbn.
    rewrite py_pow_reciprocal_square. done.
Qed.

(** The first call on a graph whose accumulators are all 0. *)
Lemma backprop_from_zero (h : Value.heap) (rank : ref -> nat)
    (root : ref) (limit : nat) :
  well_formed h ->
  acyclic_by rank h ->
  rank root < limit ->
  root < length h ->
  (forall n, reachable h root n ->
     admissible h n /\ Value.grad_of h n = 0%R) ->
  exists h',
    Value.backprop limit h root = Ok h' /\
    same_graph h h' /\
    forall v, reachable h root v ->
      Value.grad_of h' v = total_derivative h root v.
Proof.
  intros Hwf Hacyc Hlim Hroot Hall.
  destruct (backprop_spec h rank root limit Hwf Hacyc Hlim Hroot)
    as (h' & nodes & E & Hsame & Hnd & Hin & Hgrad).
  { intros n Hn. by apply Hall. }
  exists h'. split; [done|]. split; [done|].
  intros v Hv. rewrite Hgrad, (total_derivative_unfold h) by done.
  rewrite (sumR_fmap_ext _
    (fun u => (if decide (root = u) then 1 else 0) * chain h u v)%R).
  - rewrite (sumR_pick nodes root 1 (fun u => chain h u v) Hnd)
      by (apply Hin, rtc_refl).
    rewrite grad_of_set_grad by done. unfold delta.
    destruct (decide (v = root)) as [->|Hne].
    + destruct (decide (root = root)); [lra | done].
    + destruct (decide (root = v)); [done|].
      destruct (Hall v Hv) as [_ ->]. lra.
  - intros u Hu. rewrite grad_of_set_grad by done.
    destruct (decide (u = root)) as [->|Hne].
    + destruct (decide (root = root)); [lra | done].
    + destruct (decide (root = u)); [done|].
      apply Hin in Hu. destruct (Hall u Hu) as [_ ->]. lra.
Qed.

(** The same for a graph the builders have made: what is left to ask is
    that the nodes the root depends on have accumulating rules and that the
    backward rule of every power among them evaluates a power that is a
    float. *)
Corollary backprop_on_built (h : Value.heap) (root : ref) (limit : nat) :
  built h ->
  root < length h ->
  root < limit ->
  (forall n, reachable h root n ->
     accumulates (Value.backward_of h n) /\ pow_safe h n) ->
  exists h',
    Value.backprop limit h root = Ok h' /\
    forall v, reachable h root v ->
      Value.grad_of h' v = total_derivative h root v.
Proof.
  intros Hb Hroot Hlim Hall.
  destruct (built_pristine h Hb) as [Hwf Hp].
  destruct (backprop_from_zero h (fun r => r) root limit Hwf
              (well_formed_acyclic h Hwf) Hlim Hroot) as (h' & E & _ & Hg).
  { intros n Hn. destruct (Hall n Hn) as [Ha Hs]. destruct (Hp n) as [Hv H0].
    by split_and!. }
  by exists h'.
Qed.

(** C1 (amended).  On a well-formed acyclic graph whose reachable nodes are
    leaves or accumulating operations holding the values their builders
    computed, in which the backward rule of every reachable power node
    [x ** k] evaluates a power [x.val ** (k - 1)] that is a float (it raises
    neither ZeroDivisionError, as for a base 0 with [k] below 1, nor
    OverflowError, as for a result beyond the float range), and with all
    reachable accumulators at 0, [backprop] returns normally; the root's
    accumulator is then 1 and every reachable node's accumulator is the
    total derivative of the root with respect to it, the chain-rule sum over
    all paths from the root to the node.  Floats are idealised as reals:
    the sums and products are exact. *)
Theorem backprop_total_derivative (h : Value.heap) (rank : ref -> nat)
    (root : ref) (limit : nat) :
  well_formed h ->
  acyclic_by rank h ->
  rank root < limit ->
  root < length h ->
  (forall n, reachable h root n ->
     admissible h n /\ Value.grad_of h n = 0%R) ->
  exists h',
    Value.backprop limit h root = Ok h' /\
    Value.grad_of h' root = 1%R /\
    forall v, reachable h root v ->
      Value.grad_of h' v = total_derivative h root v.
Proof.
  intros Hwf Hacyc Hlim Hroot Hall.
  destruct (backprop_from_zero h rank root limit Hwf Hacyc Hlim Hroot Hall)
    as (h' & E & _ & Hreach).
  exists h'. split; [done|]. split; [|done].
  rewrite Hreach by apply rtc_refl. by apply total_derivative_self.
Qed.

(** C4. With all accumulators at 0, [backprop] on [out = (x*y1) + (x*y2)],
    [x = 2], [y1 = 3], [y2 = 5], leaves 8 = y1 + y2 in the accumulator of
    [x], the sum of the contributions of both paths; on [z = x * y], [x = 3],
    [y = 4], it leaves 4 in [x] and 3 in [y].  This holds for every iteration
    order of the operand sets and every recursion limit of at least 3. *)
Theorem fan_in_gradients (f1 f2 f3 f : bool) (k : nat) :
  (exists h',
     Value.backprop (3 + k) (fan_in_graph f1 f2 f3).1 (fan_in_graph f1 f2 f3).2
       = Ok h' /\
     Value.grad_of h' 0 = 8%R) /\
  (exists h',
     Value.backprop (2 + k) (product_graph f).1 (product_graph f).2 = Ok h' /\
     Value.grad_of h' 0 = 4%R /\ Value.grad_of h' 1 = 3%R).
Proof.
  split.
  - destruct f1, f2, f3; unfold Value.backprop; cbn; decide_sets; cbn;
      (eexists; split; [reflexivity | cbn; lra]).
  - destruct f; unfold Value.backprop; cbn; decide_sets; cbn;
      (eexists; split; [reflexivity | cbn; lra]).
Qed.

(** ** Calling [backprop] twice *)

Section same_graph.
Variables h h' : Value.heap.
Hypothesis Hsame : same_graph h h'.

Lemma same_graph_child p c : child h p c <-> child h' p c.
Proof. unfold child. destruct Hsame as [_ H]. by destruct (H p) as (_ & _ & -> & _). Qed.

Lemma same_graph_reachable p c : reachable h p c <-> reachable h' p c.
Proof.
  split; apply rtc_subrel; intros x y; by apply same_graph_child.
Qed.

Lemma same_graph_acyclic rank : acyclic_by rank h -> acyclic_by rank h'.
Proof. intros H p c Hc. apply H. by apply same_graph_child. Qed.

Lemma same_graph_well_formed : well_formed h -> well_formed h'.
Proof.
  intros Hwf i. specialize (Hwf i). unfold node_shape in *.
  destruct Hsame as [_ H]. destruct (H i) as (_ & _ & <- & <- & <-). done.
Qed.

Lemma same_graph_val i : Value.val_of h' i = Value.val_of h i.
Proof. destruct Hsame as [_ H]. by destruct (H i) as (-> & _). Qed.

Lemma same_graph_admissible n : admissible h n -> admissible h' n.
Proof.
  unfold admissible, node_value, pow_safe. cbv zeta.
  destruct Hsame as [_ H]. destruct (H n) as (_ & _ & _ & _ & <-).
  destruct (Value.backward_of h n); by rewrite ?same_graph_val.
Qed.

Lemma same_graph_partials n : partials h' n = partials h n.
Proof.
  unfold partials. cbv zeta. destruct Hsame as [_ H].
  destruct (H n) as (_ & _ & _ & _ & <-).
  destruct (Value.backward_of h n); by rewrite ?same_graph_val.
Qed.

Lemma same_graph_paths n u v : paths n h' u v = paths n h u v.
Proof.
  revert u. induction n as [|n IH]; intros u; simpl; [done|].
  rewrite same_graph_partials. f_equal.
  induction (partials h u) as [|[c w] ps IHps]; csimpl; [done|].
  by rewrite IH, IHps.
Qed.

Lemma same_graph_total_derivative u v :
  total_derivative h' u v = total_derivative h u v.
Proof.
  unfold total_derivative. destruct Hsame as [<- _].
  by rewrite same_graph_paths.
Qed.

Lemma same_graph_chain u v : chain h' u v = chain h u v.
Proof.
  unfold chain. rewrite same_graph_partials.
  apply sumR_fmap_ext. intros [c w] _. by rewrite same_graph_total_derivative.
Qed.
End same_graph.

(** No path of one edge or more leads from a node strictly inside the graph
    to a node that only the root consumes. *)
Lemma chain_consumed_by_root_only (h : Value.heap) (root v : ref) :
  well_formed h ->
  consumed_by_root_only h root v ->
  forall u, reachable h root u -> u <> root -> chain h u v = 0%R.
Proof.
  intros Hwf Honly u. induction u as [u IH] using lt_wf_ind. intros Hu Hne.
  rewrite chain_unfold by done. unfold incr.
  rewrite (sumR_fmap_ext _ (fun _ => 0%R)), sumR_fmap_zero.
  - rewrite (sumR_fmap_ext _ (fun _ => 0%R)), sumR_fmap_zero; [lra|].
    intros [c w] Hin. destruct (partials_child h u c w Hwf Hin) as [Hc Hlt].
    pose proof (reachable_le h root u Hwf Hu).
    rewrite IH; [lra | done | | lia].
    eapply rtc_r; [exact Hu | exact Hc].
  - intros [c w] Hin. destruct (partials_child h u c w Hwf Hin) as [Hc Hlt].
    destruct (decide (c = v)) as [->|]; [|done].
    by specialize (Honly u Hu Hc).
Qed.

(** C2, as stated, fails.  On [out = (x*y1) + (x*y2)] the first call leaves
    8 in the accumulator of [x]; the second call leaves 24, not 16: it adds
    both products' accumulators, which the second call has already doubled,
    on top of the 8.  The root's accumulator is 1 after either call. *)
Lemma second_backprop_not_double :
  exists h1 h2,
    Value.backprop 3 (fan_in_graph false false false).1 5 = Ok h1 /\
    Value.backprop 3 h1 5 = Ok h2 /\
    Value.grad_of h1 0 = 8%R /\
    Value.grad_of h2 0 = 24%R /\
    Value.grad_of h2 0 <> (2 * Value.grad_of h1 0)%R /\
    Value.grad_of h1 5 = 1%R /\
    Value.grad_of h2 5 = 1%R.
Proof.
  unfold Value.backprop. cbn. decide_sets. cbn.
  eexists. eexists. split; [reflexivity|]. cbn. decide_sets. cbn.
  split; [reflexivity|]. cbn. split_and!; lra.
Qed.

(** C2 (amended).  On a graph as in C1 (reachable nodes are leaves or
    accumulating operations holding the values their builders computed, and
    the backward rule of every reachable power node evaluates a power that
    is a float, raising neither ZeroDivisionError nor OverflowError), with
    all reachable accumulators at 0 before the first call, two calls in
    succession both return normally.  The
    second call sets the root's accumulator to 1 again and adds to every
    reachable node [v], for each reachable node [u], the accumulator of [u]
    after the first call times the chain-rule sum over the paths of at least
    one edge from [u] to [v].  A node other than the root that only the root
    consumes ends with exactly twice what the first call left. *)
Theorem second_backprop (h : Value.heap) (rank : ref -> nat)
    (root : ref) (limit : nat) :
  well_formed h ->
  acyclic_by rank h ->
  rank root < limit ->
  root < length h ->
  (forall n, reachable h root n ->
     admissible h n /\ Value.grad_of h n = 0%R) ->
  exists h1 h2 nodes,
    Value.backprop limit h root = Ok h1 /\
    Value.backprop limit h1 root = Ok h2 /\
    NoDup nodes /\
    (forall u, u ∈ nodes <-> reachable h root u) /\
    Value.grad_of h2 root = 1%R /\
    (forall v, reachable h root v ->
       Value.grad_of h2 v
       = (Value.grad_of h1 v
          + sumR ((fun u => Value.grad_of h1 u * chain h u v)%R <$> nodes))%R) /\
    (forall v, reachable h root v -> v <> root ->
       consumed_by_root_only h root v ->
       Value.grad_of h2 v = (2 * Value.grad_of h1 v)%R).
Proof.
  intros Hwf Hacyc Hlim Hroot Hall.
  destruct (backprop_from_zero h rank root limit Hwf Hacyc Hlim Hroot Hall)
    as (h1 & E1 & Hsame & Hg1).
  assert (Hroot1 : Value.grad_of h1 root = 1%R).
  { rewrite Hg1 by apply rtc_refl. by apply total_derivative_self. }
  destruct (backprop_spec h1 rank root limit) as (h2 & nodes & E2 & _ & Hnd & Hin & Hg2).
  { by apply (same_graph_well_formed h). }
  { by apply (same_graph_acyclic h). }
  { done. }
  { destruct Hsame as [<- _]. done. }
  { intros n Hn. apply (same_graph_admissible h); [done|].
    apply Hall. by apply (same_graph_reachable h h1). }
  assert (Hlen : root < length h1) by (destruct Hsame as [<- _]; done).
  assert (Hkeep : forall u, Value.grad_of (Value.set_grad h1 root 1) u
                            = Value.grad_of h1 u).
  { intros u. rewrite grad_of_set_grad by done.
    destruct (decide (u = root)) as [->|]; [by rewrite Hroot1 | done]. }
  assert (Hin' : forall u, u ∈ nodes <-> reachable h root u).
  { intros u. rewrite Hin. symmetry. by apply same_graph_reachable. }
  assert (Hsecond : forall v,
    Value.grad_of h2 v
    = (Value.grad_of h1 v
       + sumR ((fun u => Value.grad_of h1 u * chain h u v)%R <$> nodes))%R).
  { intros v. rewrite Hg2, Hkeep. f_equal.
    apply sumR_fmap_ext. intros u _.
    by rewrite Hkeep, (same_graph_chain h h1). }
  exists h1, h2, nodes. split_and!; try done.
  - rewrite Hsecond, Hroot1.
    rewrite (sumR_fmap_ext _ (fun _ => 0%R)), sumR_fmap_zero; [lra|].
    intros u Hu. unfold chain.
    rewrite (sumR_fmap_ext _ (fun _ => 0%R)), sumR_fmap_zero; [lra|].
    intros [c w] Hc. destruct (partials_child h u c w Hwf Hc) as [Hcu Hlt].
    apply Hin' in Hu. pose proof (reachable_le h root u Hwf Hu).
    rewrite (total_derivative_unfold h) by done. unfold delta.
    destruct (decide (c = root)); [lia|].
    assert (forall x, x < root -> chain h x root = 0%R) as Hz.
    { induction x as [x IHx] using lt_wf_ind. intros Hx.
      unfold chain. rewrite (sumR_fmap_ext _ (fun _ => 0%R)), sumR_fmap_zero; [done|].
      intros [c' w'] Hc'. destruct (partials_child h x c' w' Hwf Hc') as [_ Hlt'].
      rewrite (total_derivative_unfold h) by done. unfold delta.
      destruct (decide (c' = root)); [lia|]. rewrite IHx by lia. lra. }
    rewrite Hz by lia. lra.
  - intros v Hv Hne Honly. rewrite Hsecond.
    rewrite (sumR_fmap_ext _
      (fun u => (if decide (root = u) then 1 else 0) * chain h u v)%R).
    + rewrite (sumR_pick nodes root 1 (fun u => chain h u v) Hnd)
        by (apply Hin', rtc_refl).
      rewrite (Hg1 v Hv), (total_derivative_unfold h) by done.
      unfold delta. destruct (decide (root = v)); [done | lra].
    + intros u Hu. apply Hin' in Hu.
      destruct (decide (root = u)) as [<-|Hru]; [rewrite Hroot1; lra|].
      rewrite (chain_consumed_by_root_only h root v) by auto. lra.
Qed.

(** ** [get_descendants] *)

Lemma get_descendants_flag (limit : nat) (h : Value.heap) (self : ref)
    (a b : bool) :
  Value.get_descendants limit h self a = Value.get_descendants limit h self b.
Proof.
  revert self. induction limit as [|limit IH]; intros self; simpl; [done|].
  apply foldM_ext. intros acc c. by rewrite (IH c).
Qed.

Lemma descendant_inv (h : Value.heap) (p x : ref) :
  descendant h p x <->
  exists c, child h p c /\ (x = c \/ descendant h c x).
Proof.
  split.
  - intros H. destruct H as [p x Hc|p c x Hc Ht].
    + exists x. auto.
    + exists c. auto.
  - intros (c & Hc & [->|Ht]); [by apply tc_once | by eapply tc_l].
Qed.

Section get_descendants.
Variable h : Value.heap.
Variable rank : ref -> nat.
Hypothesis Hacyc : acyclic_by rank h.
Variable include_leafs : bool.

Lemma get_descendants_children (limit : nat) :
  descendants_spec h rank include_leafs limit ->
  forall cs (acc : gset ref),
    (forall c, c ∈ cs -> rank c < limit) ->
    exists s : gset ref,
      foldM (fun acc c =>
               ds ← Value.get_descendants limit h c include_leafs;
               Ok (acc ∪ ({[c]} ∪ ds))) acc cs = Ok s /\
      forall x, x ∈ s <->
        x ∈ acc \/ exists c, c ∈ cs /\ (x = c \/ descendant h c x).
Proof.
  intros Hcall cs. induction cs as [|c cs IH]; intros acc Hlim.
  - exists acc. split; [done|]. intros x. split; [by left|].
    intros [?|(c & Hc & _)]; [done | by apply elem_of_nil in Hc].
  - destruct (Hcall c) as (ds & E & Hds); [apply Hlim; left|].
    destruct (IH (acc ∪ ({[c]} ∪ ds))) as (s & Es & Hs).
    { intros c' Hc'. apply Hlim. by right. }
    exists s. simpl. rewrite E. simpl. split; [done|].
    intros x. rewrite Hs, !elem_of_union, elem_of_singleton, Hds. split.
    + intros [[?|[->|?]]|(c' & Hc' & Hx)].
      * by left.
      * right. exists c. split; [left | by left].
      * right. exists c. split; [left | by right].
      * right. exists c'. split; [by right | done].
    + intros [?|(c' & Hc' & Hx)]; [by left; left|].
      apply elem_of_cons in Hc' as [->|Hc'].
      * left. right. destruct Hx; [by left | by right].
      * right. by exists c'.
Qed.

Lemma get_descendants_spec (limit : nat) : descendants_spec h rank include_leafs limit.
Proof.
  induction limit as [|limit IH]; intros v Hlim; [lia|].
  destruct (get_descendants_children limit IH (Value.children_of h v) ∅)
    as (s & E & Hs).
  { intros c Hc. specialize (Hacyc v c Hc). lia. }
  exists s. split; [exact E|].
  intros x. rewrite Hs, descendant_inv. unfold child. split.
  - intros [Hx|?]; [by apply not_elem_of_empty in Hx | done].
  - by right.
Qed.
End get_descendants.

(** C10. [get_descendants] gives the same result whether [include_leafs] is
    true or false, and on an acyclic graph with recursion depth to spare
    that result is the set of all strict descendants of the node, leaves
    included. *)
Theorem get_descendants_ignores_flag (h : Value.heap) (rank : ref -> nat)
    (self : ref) (limit : nat) :
  acyclic_by rank h ->
  rank self < limit ->
  Value.get_descendants limit h self true
    = Value.get_descendants limit h self false /\
  exists s : gset ref,
    Value.get_descendants limit h self true = Ok s /\
    forall x, x ∈ s <-> descendant h self x.
Proof.
  intros Hacyc Hlim. split; [apply get_descendants_flag|].
  by apply (get_descendants_spec h rank Hacyc true limit).
Qed.

(** ** [grad_dict] *)

Lemma grad_entries_snoc (h : Value.heap) (ds : list ref) (d : ref) :
  Value.grad_entries h (ds ++ [d])
  = <[Value.key h (length ds) d := Value.grad_of h d]> (Value.grad_entries h ds).
Proof.
  unfold Value.grad_entries. rewrite imap_app, foldl_app. simpl.
  by rewrite Nat.add_0_r.
Qed.

(** An entry survives unless a later descendant has the same key. *)
Lemma grad_entries_lookup (h : Value.heap) (ds : list ref) (i : nat) (d : ref) :
  ds !! i = Some d ->
  (forall j d', ds !! j = Some d' -> i < j ->
     Value.key h j d' <> Value.key h i d) ->
  Value.grad_entries h ds !! Value.key h i d = Some (Value.grad_of h d).
Proof.
  revert i d. induction ds as [|e ds IH] using rev_ind; intros i d Hi Hlast.
  - by rewrite lookup_nil in Hi.
  - rewrite grad_entries_snoc.
    apply lookup_app_Some in Hi as [Hi|[Hlen Hi]].
    + pose proof (lookup_lt_Some _ _ _ Hi) as Hlt.
      rewrite lookup_insert_ne.
      * apply IH; [done|]. intros j d' Hj Hij. apply Hlast; [|done].
        by apply lookup_app_l_Some.
      * apply (Hlast (length ds) e); [|done].
        rewrite lookup_app_r by lia. by rewrite Nat.sub_diag.
    + apply list_lookup_singleton_Some in Hi as [Hi0 <-].
      assert (i = length ds) as -> by lia.
      apply lookup_insert_eq.
Qed.

(** Every entry is the key and the accumulator of some descendant. *)
Lemma grad_entries_from (h : Value.heap) (ds : list ref) (k : string) (g : R) :
  Value.grad_entries h ds !! k = Some g ->
  exists i d, ds !! i = Some d /\ Value.key h i d = k /\ g = Value.grad_of h d.
Proof.
  induction ds as [|e ds IH] using rev_ind; intros Hk.
  - unfold Value.grad_entries in Hk. simpl in Hk. by rewrite lookup_empty in Hk.
  - rewrite grad_entries_snoc in Hk.
    destruct (decide (Value.key h (length ds) e = k)) as [<-|Hne].
    + rewrite lookup_insert_eq in Hk. injection Hk as <-.
      exists (length ds), e. split; [|done].
      rewrite lookup_app_r by lia. by rewrite Nat.sub_diag.
    + rewrite lookup_insert_ne in Hk by done.
      destruct (IH Hk) as (i & d & Hi & Hkey & Hg).
      exists i, d. split; [by apply lookup_app_l_Some | done].
Qed.

(** C6, as stated, fails.  In [z = x * y] with both leaves labelled ["a"],
    after [backprop] the accumulators of [x] and [y] are 4 and 3, but for every
    iteration order [z.grad_dict] has the single entry ["a"], holding one of
    the two gradients; the other descendant's gradient is missing. *)
Lemma grad_dict_same_label :
  exists h',
    Value.backprop 2 (same_label_graph false).1 2 = Ok h' /\
    Value.label_of h' 0 = Some "a" /\ Value.grad_of h' 0 = 4%R /\
    Value.label_of h' 1 = Some "a" /\ Value.grad_of h' 1 = 3%R /\
    forall iter, enumerates iter ->
      exists m,
        Value.grad_dict 2 iter h' 2 = Ok m /\
        size m = 1 /\
        (m !! "a" = Some 3%R \/ m !! "a" = Some 4%R).
Proof.
  unfold Value.backprop. cbn. decide_sets. cbn.
  eexists. split; [reflexivity|]. cbn.
  split; [done|]. split; [lra|]. split; [done|]. split; [lra|].
  intros iter Hiter. unfold Value.grad_dict, Value.set2. cbn.
  decide_sets. cbn.
  match goal with |- context [iter ?s0] => set (s := s0) end.
  destruct (Hiter s) as [Hnd Hel].
  assert (Hs : forall x, x ∈ iter s <-> x = 0 \/ x = 1).
  { intros x. rewrite Hel. unfold s. set_lia. }
  assert (iter s = [0; 1] \/ iter s = [1; 0]) as [-> | ->].
  { pose proof (proj2 (Hs 0) (or_introl eq_refl)) as Hz0.
    pose proof (proj2 (Hs 1) (or_intror eq_refl)) as Hz1.
    destruct (iter s) as [|a [|b [|c l]]].
    - by apply elem_of_nil in Hz0.
    - apply list_elem_of_singleton in Hz0, Hz1. lia.
    - assert (Ha : a = 0 \/ a = 1) by (apply Hs; left).
      assert (Hb : b = 0 \/ b = 1) by (apply Hs; right; left).
      apply NoDup_cons in Hnd as [Hab _].
      assert (a <> b) by (intros ->; apply Hab; left).
      destruct Ha as [->| ->], Hb as [->| ->]; try done; auto.
    - exfalso.
      assert (Ha : a = 0 \/ a = 1) by (apply Hs; left).
      assert (Hb : b = 0 \/ b = 1) by (apply Hs; right; left).
      assert (Hc : c = 0 \/ c = 1) by (apply Hs; right; right; left).
      apply NoDup_cons in Hnd as [Hab Hnd]. apply NoDup_cons in Hnd as [Hbc _].
      assert (a <> b) by (intros ->; apply Hab; left).
      assert (a <> c) by (intros ->; apply Hab; right; left).
      assert (b <> c) by (intros ->; apply Hbc; left).
      lia. }
  - eexists. split; [reflexivity|]. unfold Value.grad_entries. cbn.
    rewrite insert_insert_eq, insert_empty, map_size_singleton,
      lookup_singleton_eq.
    split; [done|]. left. f_equal. lra.
  - eexists. split; [reflexivity|]. unfold Value.grad_entries. cbn.
    rewrite insert_insert_eq, insert_empty, map_size_singleton,
      lookup_singleton_eq.
    split; [done|]. right. f_equal. lra.
Qed.

(** C6 (amended).  On an acyclic graph, with recursion depth to spare,
    [grad_dict] returns a mapping built from an enumeration of the strict
    descendants of the root (the root itself is not among them).  A descendant
    has an entry under its key (its label when that is a non-empty string, the
    decimal string of its position in the enumeration otherwise) holding its
    current accumulator, provided no descendant later in the enumeration has
    the same key; and every entry of the mapping is the key and accumulator of
    some descendant.  So no descendant's gradient is missing when the keys are
    pairwise distinct. *)
Theorem grad_dict_entries (h : Value.heap) (rank : ref -> nat) (self : ref)
    (limit : nat) (iter : gset ref -> list ref) :
  acyclic_by rank h ->
  rank self < limit ->
  enumerates iter ->
  exists ds m,
    Value.grad_dict limit iter h self = Ok m /\
    NoDup ds /\
    (forall x, x ∈ ds <-> descendant h self x) /\
    (forall i d, ds !! i = Some d ->
       (forall j d', ds !! j = Some d' -> i < j ->
          Value.key h j d' <> Value.key h i d) ->
       m !! Value.key h i d = Some (Value.grad_of h d)) /\
    (forall k g, m !! k = Some g ->
       exists i d, ds !! i = Some d /\ Value.key h i d = k /\
                   g = Value.grad_of h d).
Proof.
  intros Hacyc Hlim Hiter.
  destruct (get_descendants_spec h rank Hacyc false limit self Hlim)
    as (s & E & Hs).
  destruct (Hiter s) as [Hnd Hel].
  exists (iter s), (Value.grad_entries h (iter s)).
  unfold Value.grad_dict. rewrite E. simpl. split; [done|]. split; [done|].
  split; [|split].
  - intros x. by rewrite Hel.
  - apply grad_entries_lookup.
  - apply grad_entries_from.
Qed.

(** ** [recompute] *)

Lemma exp_1_not_1 : Rtrigo_def.exp 1 <> 1%R.
Proof. pose proof (exp_ineq1 1). lra. Qed.

Lemma Rpower_2_3 : Rpower 2 3 = 8%R.
Proof.
  replace 3%R with (INR 3) by (simpl; lra).
  rewrite Rpower_pow by lra. simpl. lra.
Qed.

(** C3 fails on the code at [Value(0.0).exp().recompute()] and at
    [(Value(2) ** 3).recompute()].  The property asked for is that
    [recompute] without a perturbation returns the node's current value and
    raises nothing.  The exponential node holds [exp 0 = 1], and [recompute]
    returns [exp 1]: it applies the operation to the node's own value, not
    to the recomputed operand.  On the power node it raises AssertionError:
    it asserts two recomputed operands where a power node has one. *)
Theorem recompute_disagrees (k : nat) :
  (exists h, exp_graph = Ok (h, 1) /\
     Value.recompute (2 + k) h 1 None = Ok (Rtrigo_def.exp 1) /\
     Value.val_of h 1 = 1%R /\
     Rtrigo_def.exp 1 <> 1%R) /\
  (exists h, cube_graph = Ok (h, 1) /\
     Value.val_of h 1 = 8%R /\
     Value.recompute (2 + k) h 1 None = Raise AssertionError).
Proof.
  split.
  - unfold exp_graph, Value.exp. cbn.
    rewrite math_exp_small by lra. rewrite exp_0. cbn.
    eexists. split; [reflexivity|]. split_and!.
    + cbn. by rewrite math_exp_small by lra.
    + done.
    + apply exp_1_not_1.
  - unfold cube_graph, Value.__pow__. cbn. rewrite py_pow_pos by lra.
    rewrite Rpower_2_3, range_checked_small by (rewrite Rabs_right; lra). cbn.
    eexists. split; [reflexivity|]. split; done.
Qed.

(** ** [MLP.step] *)

Arguments MLP.update : simpl never.

Lemma val_of_set_val (h : Value.heap) (r i : ref) (x : R) :
  r < length h ->
  Value.val_of (Value.set_val h r x) i
  = if decide (i = r) then x else Value.val_of h i.
Proof.
  intros Hr. unfold Value.val_of, Value.set_val.
  destruct (decide (i = r)) as [->|Hne].
  - by apply get_alter_eq.
  - by apply get_alter_ne.
Qed.

Lemma val_of_set_val_ne (h : Value.heap) (r i : ref) (x : R) :
  i <> r -> Value.val_of (Value.set_val h r x) i = Value.val_of h i.
Proof. intros Hne. by apply get_alter_ne. Qed.

Lemma grad_of_set_val (h : Value.heap) (r i : ref) (x : R) :
  Value.grad_of (Value.set_val h r x) i = Value.grad_of h i.
Proof. by apply get_alter. Qed.

Lemma update_zero (lr : R) (h : Value.heap) (p : ref) :
  Value.grad_of h p = 0%R -> MLP.update lr h p = Raise AssertionError.
Proof. intros Hz. unfold MLP.update. by destruct (Req_dec_T _ _). Qed.

Lemma update_nonzero (lr : R) (h : Value.heap) (p : ref) :
  Value.grad_of h p <> 0%R ->
  MLP.update lr h p
  = Ok (Value.set_val h p (Value.val_of h p - lr * Value.grad_of h p)).
Proof. intros Hz. unfold MLP.update. by destruct (Req_dec_T _ _). Qed.

(** The loop raises exactly when it meets a parameter whose accumulator is 0,
    and then raises AssertionError. *)
Lemma step_loop_raises (lr : R) (ps : list ref) (h : Value.heap) (e : exn) :
  foldM (MLP.update lr) h ps = Raise e <->
  e = AssertionError /\ exists p, p ∈ ps /\ Value.grad_of h p = 0%R.
Proof.
  revert h. induction ps as [|p ps IH]; intros h; simpl.
  - split; [done|]. intros (_ & p & Hp & _). by apply elem_of_nil in Hp.
  - destruct (Req_dec_T (Value.grad_of h p) 0) as [Hz|Hnz].
    + rewrite update_zero by done. simpl. split.
      * intros Heq. injection Heq as <-. split; [done|].
        exists p. split; [left | done].
      * by intros (-> & _).
    + rewrite update_nonzero by done. simpl. rewrite IH. split.
      * intros (-> & q & Hq & Hg). split; [done|]. exists q.
        split; [by right|]. by rewrite grad_of_set_val in Hg.
      * intros (-> & q & Hq & Hg). split; [done|].
        apply elem_of_cons in Hq as [->|Hq]; [done|].
        exists q. split; [done|]. by rewrite grad_of_set_val.
Qed.

(** When no accumulator is 0 the loop subtracts [lr * grad] from the value
    of every parameter and changes nothing else. *)
Lemma step_loop_updates (lr : R) (ps : list ref) (h : Value.heap) :
  NoDup ps ->
  (forall p, p ∈ ps -> p < length h /\ Value.grad_of h p <> 0%R) ->
  exists h',
    foldM (MLP.update lr) h ps = Ok h' /\
    length h' = length h /\
    (forall i, Value.grad_of h' i = Value.grad_of h i) /\
    (forall p, p ∈ ps ->
       Value.val_of h' p = (Value.val_of h p - lr * Value.grad_of h p)%R) /\
    (forall i, i ∉ ps -> Value.val_of h' i = Value.val_of h i).
Proof.
  intros Hnd. revert h. induction Hnd as [|p ps Hp Hnd IH]; intros h Hall.
  - exists h. simpl. split_and!; try done.
    intros p Hp. by apply elem_of_nil in Hp.
  - destruct (Hall p) as [Hlen Hnz]; [left|].
    destruct (IH (Value.set_val h p
                    (Value.val_of h p - lr * Value.grad_of h p)))
      as (h' & E & Hlen' & Hg & Hv & Hother).
    { intros q Hq. rewrite length_set_val, grad_of_set_val.
      apply Hall. by right. }
    exists h'. simpl. rewrite update_nonzero by done. simpl.
    split; [done|]. split; [by rewrite Hlen', length_set_val|].
    split; [intros i; by rewrite Hg, grad_of_set_val|]. split.
    + intros q Hq. apply elem_of_cons in Hq as [->|Hq].
      * rewrite Hother by done. rewrite val_of_set_val by done.
        by destruct (decide (p = p)).
      * rewrite Hv by done. rewrite grad_of_set_val.
        rewrite val_of_set_val_ne; [done|]. by intros ->.
    + intros i Hi. apply not_elem_of_cons in Hi as [Hne Hi].
      rewrite Hother by done. by apply val_of_set_val_ne.
Qed.

Lemma bind_never {A B} (m : result A) (f : A -> result B) (e : exn) :
  m <> Raise e -> (forall a, f a <> Raise e) -> m ≫= f <> Raise e.
Proof.
  intros Hm Hf. destruct m as [a|e']; cbn; [apply Hf|].
  intros [= ->]. by apply Hm.
Qed.

Lemma foldM_never {A B} (f : B -> A -> result B) (e : exn) :
  (forall b a, f b a <> Raise e) ->
  forall l b, foldM f b l <> Raise e.
Proof.
  intros Hf l. induction l as [|a l IH]; intros b; simpl; [done|].
  apply bind_never; [apply Hf | apply IH].
Qed.

Lemma py_pow_no_assert (x y : R) : py_pow x y <> Raise AssertionError.
Proof.
  unfold py_pow, range_checked.
  repeat (destruct (Req_dec_T _ _) || destruct (Rlt_dec _ _)); done.
Qed.

Lemma call_no_assert (b : Backward) (h : Value.heap) :
  Value.call b h <> Raise AssertionError.
Proof.
  destruct b; simpl; try done.
  - repeat destruct (Rlt_dec _ _); done.
  - apply bind_never; [apply py_pow_no_assert | done].
  - apply bind_never; [apply py_pow_no_assert | done].
Qed.

Lemma build_topo_no_assert (limit : nat) (h : Value.heap) (v : ref)
    (st : gset ref * list ref) :
  Value.build_topo limit h v st <> Raise AssertionError.
Proof.
  revert v st. induction limit as [|limit IH]; intros v st; simpl; [done|].
  destruct (decide (v ∈ st.1)); [done|].
  apply bind_never; [|done].
  apply foldM_never. intros st' c. apply IH.
Qed.

Lemma backprop_no_assert (limit : nat) (h : Value.heap) (self : ref) :
  Value.backprop limit h self <> Raise AssertionError.
Proof.
  unfold Value.backprop. apply bind_never; [apply build_topo_no_assert|].
  intros st. apply foldM_never. intros h' n. apply call_no_assert.
Qed.

(** [backprop] neither allocates nor frees. *)
Lemma call_length (b : Backward) (h h' : Value.heap) :
  Value.call b h = Ok h' -> length h' = length h.
Proof.
  destruct b; simpl;
    repeat (destruct (Rlt_dec _ _)); try (destruct (py_pow _ _); cbn);
    intros [= <-]; by rewrite ?length_set_grad.
Qed.

Lemma backprop_length (limit : nat) (h h' : Value.heap) (self : ref) :
  Value.backprop limit h self = Ok h' -> length h' = length h.
Proof.
  unfold Value.backprop.
  destruct (Value.build_topo _ _ _ _) as [st|]; cbn; [|done].
  assert (forall l h0,
    foldM (fun h n => Value.call (Value.backward_of h n) h) h0 l = Ok h' ->
    length h' = length h0) as Hlen.
  { induction l as [|n l IH]; intros h0; simpl; [by intros [= ->]|].
    destruct (Value.call _ h0) as [h1|] eqn:Ec; cbn; [|done].
    intros E. rewrite (IH _ E). by apply call_length in Ec. }
  intros E. rewrite (Hlen _ _ E). apply length_set_grad.
Qed.

(** C7. [MLP.step] runs [backprop] on the loss and then, parameter by
    parameter, asserts a non-zero accumulator and subtracts [lr * grad] from
    the value.  For a network whose parameters are distinct nodes of the heap,
    as the constructor makes them ([MLP_init_parameters] below), it fails with
    AssertionError exactly when [backprop] returned and some parameter's
    accumulator is then 0, which is what that parameter holds at its turn;
    when none is 0, it returns with every parameter's value lowered by [lr]
    times its accumulator, and with all accumulators and all other values as
    [backprop] left them. *)
Theorem step_asserts_nonzero_gradients (limit : nat) (self : MLP.t)
    (h : Value.heap) (loss : ref) (lr : R) :
  NoDup (MLP.parameters self) ->
  (forall p, p ∈ MLP.parameters self -> p < length h) ->
  (MLP.step limit self h loss lr = Raise AssertionError <->
   exists h1, Value.backprop limit h loss = Ok h1 /\
     exists p, p ∈ MLP.parameters self /\ Value.grad_of h1 p = 0%R) /\
  (forall h1, Value.backprop limit h loss = Ok h1 ->
     (forall p, p ∈ MLP.parameters self -> Value.grad_of h1 p <> 0%R) ->
     exists h2,
       MLP.step limit self h loss lr = Ok h2 /\
       (forall p, p ∈ MLP.parameters self ->
          Value.val_of h2 p
          = (Value.val_of h1 p - lr * Value.grad_of h1 p)%R) /\
       (forall i, Value.grad_of h2 i = Value.grad_of h1 i) /\
       (forall i, i ∉ MLP.parameters self ->
          Value.val_of h2 i = Value.val_of h1 i)).
Proof.
  intros Hnd Hvalid. unfold MLP.step. split.
  - pose proof (backprop_no_assert limit h loss) as Hb.
    destruct (Value.backprop limit h loss) as [h1|e]; simpl.
    + rewrite step_loop_raises. split.
      * intros [_ Hp]. by exists h1.
      * intros (h1' & [= <-] & Hp). done.
    + split; [by intros [= ->] | by intros (h1 & ? & _)].
  - intros h1 E Hnz. rewrite E. simpl.
    destruct (step_loop_updates lr (MLP.parameters self) h1 Hnd)
      as (h2 & E2 & _ & Hg & Hv & Hother).
    { intros p Hp. split; [|by apply Hnz].
      rewrite (backprop_length _ _ _ _ E). by apply Hvalid. }
    exists h2. by split_and!.
Qed.

(** ** The parameters of a constructed network *)

Lemma fresh_refs_nil (st : world) : fresh_refs st st [].
Proof. split; [done|]. by rewrite Nat.sub_diag. Qed.

Lemma fresh_refs_app (st1 st2 st3 : world) (ps qs : list ref) :
  fresh_refs st1 st2 ps -> fresh_refs st2 st3 qs ->
  fresh_refs st1 st3 (ps ++ qs).
Proof.
  intros [L12 ->] [L23 ->]. split; [lia|].
  replace (length st3.1 - length st1.1)
    with ((length st2.1 - length st1.1) + (length st3.1 - length st2.1)) by lia.
  rewrite seq_app. do 2 f_equal. lia.
Qed.

Lemma random_value_fresh (rng : nat -> R) (st : world) :
  fresh_refs st (random_value rng st).1 [(random_value rng st).2].
Proof.
  unfold fresh_refs, random_value. simpl. rewrite length_app. simpl.
  split; [lia|]. by replace (length st.1 + 1 - length st.1) with 1 by lia.
Qed.

Lemma comprehension_fresh {A} (f : world -> world * A)
    (params : A -> list ref) :
  (forall st, fresh_refs st (f st).1 (params (f st).2)) ->
  forall n st,
    fresh_refs st (comprehension f st n).1
      (concat (map params (comprehension f st n).2)).
Proof.
  intros Hf n. induction n as [|n IH]; intros st; simpl.
  - apply fresh_refs_nil.
  - eapply fresh_refs_app; [apply Hf | apply IH].
Qed.

Lemma Neuron_init_fresh (rng : nat -> R) (st : world) (n_in : nat) :
  fresh_refs st (Neuron.__init__ rng st n_in).1
    (Neuron.parameters (Neuron.__init__ rng st n_in).2).
Proof.
  unfold Neuron.__init__, Neuron.parameters. simpl.
  eapply fresh_refs_app; [|apply random_value_fresh].
  pose proof (comprehension_fresh (random_value rng) (fun r => [r])
                (random_value_fresh rng) n_in st) as H.
  assert (forall l : list ref, concat (map (fun r => [r]) l) = l) as E
    by (induction l as [|x l IHl]; simpl; [done | by rewrite IHl]).
  by rewrite E in H.
Qed.

Lemma Layer_init_fresh (rng : nat -> R) (st : world) (d_in d_out : nat) :
  fresh_refs st (Layer.__init__ rng st d_in d_out).1
    (Layer.parameters (Layer.__init__ rng st d_in d_out).2).
Proof.
  unfold Layer.__init__, Layer.parameters. simpl.
  apply (comprehension_fresh _ Neuron.parameters).
  intros st'. apply Neuron_init_fresh.
Qed.

Lemma MLP_init_fresh (rng : nat -> R) (st : world)
    (d_in d_hidden n_hidden d_out : nat) :
  fresh_refs st (MLP.__init__ rng st d_in d_hidden n_hidden d_out).1
    (MLP.parameters (MLP.__init__ rng st d_in d_hidden n_hidden d_out).2).
Proof.
  unfold MLP.__init__, MLP.parameters, MLP.layers. simpl.
  rewrite map_app, concat_app. simpl. rewrite app_nil_r.
  eapply fresh_refs_app; [apply Layer_init_fresh|].
  eapply fresh_refs_app; [|apply Layer_init_fresh].
  apply (comprehension_fresh _ Layer.parameters).
  intros st'. apply Layer_init_fresh.
Qed.

(** The parameters of a network made by the constructor are distinct nodes
    of the heap the constructor returns, and stay so as the heap grows. *)
Lemma MLP_init_parameters (rng : nat -> R) (st : world)
    (d_in d_hidden n_hidden d_out : nat) :
  let r := MLP.__init__ rng st d_in d_hidden n_hidden d_out in
  NoDup (MLP.parameters r.2) /\
  forall p, p ∈ MLP.parameters r.2 -> length st.1 <= p < length r.1.1.
Proof.
  intros r. subst r.
  destruct (MLP_init_fresh rng st d_in d_hidden n_hidden d_out) as [Hlen ->].
  split; [apply NoDup_seq|].
  intros p Hp. apply elem_of_seq in Hp. lia.
Qed.

(** ** The partial derivatives are derivatives *)

(** Each rule of [partials] is the derivative, in the sense of real analysis,
    of the forward formula of its operation. *)

Lemma derivable_tanh (x : R) :
  derivable_pt_lim math_tanh x (1 - math_tanh x * math_tanh x)%R.
Proof.
  assert (Hc : cosh x <> 0%R).
  { unfold cosh. pose proof (exp_pos x). pose proof (exp_pos (- x)). lra. }
  pose proof (derivable_pt_lim_div sinh cosh x (cosh x) (sinh x)
                (derivable_pt_lim_sinh x) (derivable_pt_lim_cosh x) Hc) as H.
  eapply derivable_pt_lim_ext in H; [|intros z; reflexivity].
  replace (1 - math_tanh x * math_tanh x)%R
    with ((cosh x * cosh x - sinh x * sinh x) / Rsqr (cosh x))%R; [exact H|].
  unfold math_tanh, Rtrigo_def.tanh, Rsqr. by field.
Qed.

Lemma derivable_sigmoid (x : R) :
  derivable_pt_lim logistic x (logistic x * (1 - logistic x))%R.
Proof.
  set (den := (fct_cte 1 + comp exp (- id))%F).
  assert (Hden : derivable_pt_lim den x (0 + exp (- x) * - 1)%R).
  { apply derivable_pt_lim_plus; [apply derivable_pt_lim_const|].
    apply (derivable_pt_lim_comp (- id)%F exp).
    - apply derivable_pt_lim_opp, derivable_pt_lim_id.
    - apply derivable_pt_lim_exp. }
  assert (Hpos : den x <> 0%R).
  { unfold den, plus_fct, fct_cte, comp, opp_fct, id.
    pose proof (exp_pos (- x)). lra. }
  pose proof (derivable_pt_lim_div (fct_cte 1) den x 0 _
                (derivable_pt_lim_const 1 x) Hden Hpos) as H.
  eapply derivable_pt_lim_ext in H; [|intros z; reflexivity].
  replace (logistic x * (1 - logistic x))%R
    with ((0 * den x - (0 + exp (- x) * -1) * fct_cte 1 x) / Rsqr (den x))%R;
    [exact H|].
  unfold logistic, Rsqr.
  unfold den, plus_fct, fct_cte, comp, opp_fct, id in *. by field.
Qed.

Lemma derivable_relu (x : R) :
  x <> 0%R ->
  derivable_pt_lim value.relu x (if Rlt_dec 0 x then 1%R else 0%R).
Proof.
  intros Hx. destruct (Rlt_dec 0 x) as [Hpos|Hneg].
  - apply (derivable_pt_lim_locally_ext id value.relu x (x / 2) (x + 1));
      [lra | | apply derivable_pt_lim_id].
    intros z Hz. unfold value.relu, id. rewrite Rmax_right; lra.
  - apply (derivable_pt_lim_locally_ext (fct_cte 0) value.relu x (x - 1) (x / 2));
      [lra | | apply derivable_pt_lim_const].
    intros z Hz. unfold value.relu, fct_cte. rewrite Rmax_left; lra.
Qed.

Lemma derivable_abs (x : R) :
  x <> 0%R ->
  derivable_pt_lim Rabs x
    (if Rlt_dec 0 x then 1%R else if Rlt_dec x 0 then (-1)%R else 0%R).
Proof.
  intros Hx. destruct (Rlt_dec 0 x); [by apply Rabs_derive_1|].
  destruct (Rlt_dec x 0); [by apply Rabs_derive_2 | lra].
Qed.

Lemma pow_value_pos (x k : R) :
  (0 < x)%R -> pow_value x k = Rpower x k.
Proof.
  intros Hx. unfold pow_value.
  destruct (Req_dec_T k 0) as [->|Hk]; [by rewrite Rpower_O|].
  destruct (Req_dec_T x 0); [lra|].
  destruct (Rlt_dec 0 x); [done | lra].
Qed.

(** A positive base, any exponent. *)
Lemma derivable_pow_pos (x k : R) :
  (0 < x)%R ->
  derivable_pt_lim (fun y => pow_value y k) x (k * pow_value x (k - 1))%R.
Proof.
  intros Hx. rewrite pow_value_pos by done.
  apply (derivable_pt_lim_locally_ext (fun y => Rpower y k) _ x (x / 2) (x + 1));
    [lra | | by apply derivable_pt_lim_power].
  intros z Hz. rewrite pow_value_pos; [done | lra].
Qed.

Lemma pow_value_nat (x : R) (n : nat) : pow_value x (INR n) = (x ^ n)%R.
Proof.
  unfold pow_value. destruct n as [|n].
  { simpl. destruct (Req_dec_T 0 0); [done | lra]. }
  assert (Hn : (0 < INR (S n))%R) by (apply lt_0_INR; lia).
  destruct (Req_dec_T (INR (S n)) 0) as [H0|_]; [lra|].
  destruct (Req_dec_T x 0) as [->|Hx].
  { symmetry. apply pow_i. lia. }
  destruct (Rlt_dec 0 x); [by apply Rpower_pow|].
  rewrite INR_IZR_INZ, Int_part_IZR.
  by rewrite <- pow_powerRZ.
Qed.

(** Any base, an exponent 1, 2, 3, ... *)
Lemma derivable_pow_nat (x : R) (n : nat) :
  derivable_pt_lim (fun y => pow_value y (INR (S n))) x
    (INR (S n) * pow_value x (INR (S n) - 1))%R.
Proof.
  replace (INR (S n) - 1)%R with (INR n) by (rewrite S_INR; lra).
  rewrite pow_value_nat.
  apply (derivable_pt_lim_ext (fun y => y ^ S n)%R).
  - intros z. by rewrite pow_value_nat.
  - apply (derivable_pt_lim_pow x (S n)).
Qed.

(** ** The chain-rule sum is the derivative of the forward function *)

Section analysis.
Variable h : Value.heap.
Hypothesis Hwf : well_formed h.
Variable v : ref.

Lemma first_node_is_leaf : Value.backward_of h 0 = bw_default.
Proof.
  pose proof (Hwf 0) as H. unfold node_shape in H.
  destruct (Value.backward_of h 0); try done; destruct H as (_ & ? & _); lia.
Qed.

(** The operands named by the closure of [u] were allocated before [u]. *)
Lemma operands_below (u : ref) :
  match Value.backward_of h u with
  | bw_default => True
  | bw_add s o _ | bw_mul s o _ => s < u /\ o < u /\ child h u s /\ child h u o
  | bw_abs s _ | bw_pow s _ _ | bw_sigmoid s _ _ | bw_tanh s _ _
  | bw_relu s _ _ | bw_exp s _ => s < u /\ child h u s
  end.
Proof.
  pose proof (Hwf u) as H. unfold node_shape in H. unfold child.
  destruct (Value.backward_of h u); try done.
  1,2: destruct H as (_ & ? & ? & _ & flip & ->); rewrite !set2_elem; auto.
  all: destruct H as (_ & ? & _ & ->); split; [done | left].
Qed.

Lemma eval_enough (t : R) (n m : nat) (u : ref) :
  u <= n -> u <= m -> eval n h v t u = eval m h v t u.
Proof.
  revert m u. induction n as [|n IH]; intros m u Hn Hm.
  - assert (u = 0) as -> by lia. destruct m; [done|]. simpl.
    by rewrite first_node_is_leaf.
  - destruct m as [|m].
    + assert (u = 0) as -> by lia. simpl. by rewrite first_node_is_leaf.
    + simpl. destruct (decide (u = v)); [done|].
      pose proof (operands_below u) as Hop.
      destruct (Value.backward_of h u); try done.
      1,2: destruct Hop as (? & ? & _);
           by rewrite (IH m self), (IH m other) by lia.
      all: destruct Hop as (? & _); by rewrite (IH m self) by lia.
Qed.

(** One step of the forward function of a node other than [v]. *)
Lemma forward_unfold (t : R) (u : ref) :
  u <> v ->
  forward h u v t =
  match Value.backward_of h u with
  | bw_default => Value.val_of h u
  | bw_add s o _ => (forward h s v t + forward h o v t)%R
  | bw_mul s o _ => (forward h s v t * forward h o v t)%R
  | bw_abs s _ => Rabs (forward h s v t)
  | bw_pow s k _ => pow_value (forward h s v t) k
  | bw_sigmoid s _ _ => logistic (forward h s v t)
  | bw_tanh s _ _ => math_tanh (forward h s v t)
  | bw_relu s _ _ => value.relu (forward h s v t)
  | bw_exp s _ => Rtrigo_def.exp (forward h s v t)
  end.
Proof.
  intros Hne. unfold forward.
  destruct (decide (u < length h)) as [Hu|Hu].
  - destruct (length h) as [|m] eqn:E; [lia|]. simpl.
    destruct (decide (u = v)); [done|].
    pose proof (operands_below u) as Hop.
    destruct (Value.backward_of h u); try done.
    1,2: destruct Hop as (? & ? & _);
         by rewrite (eval_enough t m (S m) self),
                    (eval_enough t m (S m) other) by lia.
    all: destruct Hop as (? & _);
         by rewrite (eval_enough t m (S m) self) by lia.
  - assert (Value.backward_of h u = bw_default) as Hb
      by (unfold Value.backward_of; apply get_ge; lia).
    rewrite Hb.
    destruct (length h); simpl; destruct (decide (u = v)); try done.
    by rewrite Hb.
Qed.

Lemma forward_self (t : R) : forward h v v t = t.
Proof.
  unfold forward. destruct (length h); simpl; by destruct (decide (v = v)).
Qed.

(** At the current value of [v] the forward function returns the current
    value of every node that is up to date. *)
Lemma forward_current (u : ref) :
  (forall n, reachable h u n -> node_value h n) ->
  forward h u v (Value.val_of h v) = Value.val_of h u.
Proof.
  induction u as [u IH] using lt_wf_ind. intros Hval.
  destruct (decide (u = v)) as [->|Hne]; [apply forward_self|].
  rewrite forward_unfold by done.
  pose proof (operands_below u) as Hop.
  pose proof (Hval u (rtc_refl _ _)) as Hu. unfold node_value in Hu.
  assert (Hsub : forall c, c < u -> child h u c ->
            forward h c v (Value.val_of h v) = Value.val_of h c).
  { intros c Hlt Hc. apply IH; [done|]. intros n Hn. apply Hval.
    eapply rtc_l; [exact Hc | exact Hn]. }
  destruct (Value.backward_of h u); try done.
  - destruct Hop as (? & ? & ? & ?). rewrite !Hsub by done. by rewrite Hu.
  - destruct Hop as (? & ? & ? & ?). rewrite !Hsub by done. by rewrite Hu.
  - destruct Hop as (? & ?). rewrite !Hsub by done. by rewrite Hu.
  - destruct Hop as (? & ?). rewrite !Hsub by done.
    symmetry. by apply py_pow_value.
  - destruct Hop as (? & ?). rewrite !Hsub by done.
    destruct Hu as [Hs ->]. symmetry. by apply sigmoid_value.
  - destruct Hop as (? & ?). rewrite !Hsub by done.
    destruct Hu as [-> ->]. done.
  - destruct Hop as (? & ?). rewrite !Hsub by done.
    destruct Hu as [-> ->]. done.
  - destruct Hop as (? & ?). rewrite !Hsub by done.
    symmetry. by apply math_exp_value.
Qed.
End analysis.

Lemma derivable_unary (f g : R -> R) (x a l l' : R) :
  derivable_pt_lim g x l ->
  g x = a ->
  derivable_pt_lim f a l' ->
  derivable_pt_lim (fun t => f (g t)) x (l' * l)%R.
Proof.
  intros Hg <- Hf. apply (derivable_pt_lim_comp g f x l l' Hg Hf).
Qed.

(** On a well-formed graph whose nodes reachable from [u] are up to date and
    smooth, the value of [u] is, as a function of the value of [v],
    differentiable at the current value of [v], and its derivative is the
    chain-rule sum over all paths from [u] to [v]. *)
Theorem total_derivative_is_derivative (h : Value.heap) (u v : ref) :
  well_formed h ->
  (forall n, reachable h u n -> node_value h n /\ smooth h n) ->
  derivable_pt_lim (forward h u v) (Value.val_of h v) (total_derivative h u v).
Proof.
  intros Hwf. induction u as [u IH] using lt_wf_ind. intros Hall.
  destruct (decide (u = v)) as [->|Hne].
  { apply (derivable_pt_lim_ext id); [intros t; by rewrite forward_self|].
    rewrite total_derivative_self by done. apply derivable_pt_lim_id. }
  assert (Hsub : forall c, c < u -> child h u c ->
    derivable_pt_lim (forward h c v) (Value.val_of h v) (total_derivative h c v)
    /\ forward h c v (Value.val_of h v) = Value.val_of h c).
  { intros c Hlt Hc.
    assert (forall n, reachable h c n -> reachable h u n) as Hr
      by (intros n Hn; eapply rtc_l; [exact Hc | exact Hn]).
    split.
    - apply IH; [done|]. intros n Hn. by apply Hall, Hr.
    - apply forward_current; [done|]. intros n Hn. by apply Hall, Hr. }
  eapply derivable_pt_lim_ext;
    [intros t; symmetry; by apply forward_unfold|].
  rewrite total_derivative_unfold by done.
  unfold delta, chain, partials.
  destruct (decide (u = v)); [done|].
  pose proof (operands_below h Hwf u) as Hop.
  destruct (Hall u (rtc_refl _ _)) as [_ Hsm]. unfold smooth in Hsm.
  destruct (Value.backward_of h u) as
    [|s o out|s o out|s out|s k out|s val out|s val out|s val out|s out];
    csimpl.
  - replace (0 + 0)%R with 0%R by lra. apply derivable_pt_lim_const.
  - destruct Hop as (Hs & Ho & Hcs & Hco).
    destruct (Hsub s Hs Hcs) as [Ds _]. destruct (Hsub o Ho Hco) as [Do _].
    replace (0 + _)%R
      with (total_derivative h s v + total_derivative h o v)%R by lra.
    apply (derivable_pt_lim_plus _ _ _ _ _ Ds Do).
  - destruct Hop as (Hs & Ho & Hcs & Hco).
    destruct (Hsub s Hs Hcs) as [Ds Es]. destruct (Hsub o Ho Hco) as [Do Eo].
    replace (0 + _)%R
      with (total_derivative h s v * forward h o v (Value.val_of h v)
            + forward h s v (Value.val_of h v) * total_derivative h o v)%R
      by (rewrite Es, Eo; lra).
    apply (derivable_pt_lim_mult _ _ _ _ _ Ds Do).
  - destruct Hop as (Hs & Hcs). destruct (Hsub s Hs Hcs) as [Ds Es].
    replace (0 + _)%R with
      ((if Rlt_dec 0 (Value.val_of h s) then 1
        else if Rlt_dec (Value.val_of h s) 0 then -1 else 0)
       * total_derivative h s v)%R by lra.
    apply (derivable_unary Rabs _ _ _ _ _ Ds Es). by apply derivable_abs.
  - destruct Hop as (Hs & Hcs). destruct (Hsub s Hs Hcs) as [Ds Es].
    replace (0 + _)%R with
      (k * pow_value (Value.val_of h s) (k - 1) * total_derivative h s v)%R
      by lra.
    apply (derivable_unary (fun y => pow_value y k) _ _ _ _ _ Ds Es).
    destruct Hsm as [Hpos|[m ->]];
      [by apply derivable_pow_pos | apply derivable_pow_nat].
  - destruct Hop as (Hs & Hcs). destruct (Hsub s Hs Hcs) as [Ds Es].
    replace (0 + _)%R with
      (logistic (Value.val_of h s) * (1 - logistic (Value.val_of h s))
       * total_derivative h s v)%R by lra.
    apply (derivable_unary logistic _ _ _ _ _ Ds Es), derivable_sigmoid.
  - destruct Hop as (Hs & Hcs). destruct (Hsub s Hs Hcs) as [Ds Es].
    replace (0 + _)%R with
      ((1 - math_tanh (Value.val_of h s) * math_tanh (Value.val_of h s))
       * total_derivative h s v)%R by lra.
    apply (derivable_unary math_tanh _ _ _ _ _ Ds Es), derivable_tanh.
  - destruct Hop as (Hs & Hcs). destruct (Hsub s Hs Hcs) as [Ds Es].
    replace (0 + _)%R with
      ((if Rlt_dec 0 (Value.val_of h s) then 1 else 0)
       * total_derivative h s v)%R by lra.
    apply (derivable_unary value.relu _ _ _ _ _ Ds Es). by apply derivable_relu.
  - destruct Hop as (Hs & Hcs). destruct (Hsub s Hs Hcs) as [Ds Es].
    replace (0 + _)%R with
      (Rtrigo_def.exp (Value.val_of h s) * total_derivative h s v)%R by lra.
    apply (derivable_unary Rtrigo_def.exp _ _ _ _ _ Ds Es).
    apply derivable_pt_lim_exp.
Qed.

(** The accumulators [backprop] leaves are derivatives in the sense of real
    analysis: on a smooth graph as in C1, the accumulator of every reachable
    node [v] is the derivative, at the current value of [v], of the root's
    value as a function of the value of [v]. *)
Corollary backprop_gradient_is_derivative (h : Value.heap)
    (rank : ref -> nat) (root : ref) (limit : nat) :
  well_formed h ->
  acyclic_by rank h ->
  rank root < limit ->
  root < length h ->
  (forall n, reachable h root n ->
     admissible h n /\ smooth h n /\ Value.grad_of h n = 0%R) ->
  exists h',
    Value.backprop limit h root = Ok h' /\
    forall v, reachable h root v ->
      derivable_pt_lim (forward h root v) (Value.val_of h v)
        (Value.grad_of h' v).
Proof.
  intros Hwf Hacyc Hlim Hroot Hall.
  destruct (backprop_from_zero h rank root limit Hwf Hacyc Hlim Hroot)
    as (h' & E & _ & Hgrad).
  { intros n Hn. destruct (Hall n Hn) as (? & _ & ?). done. }
  exists h'. split; [done|]. intros v Hv. rewrite (Hgrad v Hv).
  apply total_derivative_is_derivative; [done|].
  intros n Hn. destruct (Hall n Hn) as ((_ & ? & _) & ? & _). done.
Qed.

(** ** The theorems on concrete graphs *)

Lemma fan_in_well_formed (f1 f2 f3 : bool) :
  well_formed (fan_in_graph f1 f2 f3).1.
Proof.
  intros [|[|[|[|[|[|i]]]]]]; unfold node_shape; cbn; split_and!;
    try done; try lia; eauto.
Qed.

Lemma fan_in_admissible (f1 f2 f3 : bool) (n : ref) :
  admissible (fan_in_graph f1 f2 f3).1 n /\
  Value.grad_of (fan_in_graph f1 f2 f3).1 n = 0%R.
Proof.
  destruct n as [|[|[|[|[|[|i]]]]]]; unfold admissible, node_value, pow_safe;
    cbn; split_and!; try done; lra.
Qed.

Lemma build_topo_topological_witness :
  let h := (fan_in_graph false false false).1 in
  acyclic_by (fun r => r) h /\ 5 < 6 /\
  exists visited topo,
    Value.build_topo 6 h 5 (∅, []) = Ok (visited, topo) /\
    NoDup topo /\
    (forall v, v ∈ topo <-> reachable h 5 v) /\
    (forall p c, p ∈ topo -> child h p c -> before topo c p) /\
    (forall p c, p ∈ topo -> child h p c -> before (reverse topo) p c).
Proof.
  intros h.
  assert (Ha : acyclic_by (fun r => r) h)
    by apply well_formed_acyclic, fan_in_well_formed.
  assert (Hl : 5 < 6) by lia.
  split; [exact Ha|]. split; [exact Hl|].
  exact (build_topo_topological h (fun r => r) 5 6 Ha Hl).
Defined.

Lemma backprop_total_derivative_witness :
  let h := (fan_in_graph false false false).1 in
  well_formed h /\ acyclic_by (fun r => r) h /\ 5 < 6 /\ 5 < length h /\
  (forall n, reachable h 5 n ->
     admissible h n /\ Value.grad_of h n = 0%R) /\
  exists h',
    Value.backprop 6 h 5 = Ok h' /\
    Value.grad_of h' 5 = 1%R /\
    forall v, reachable h 5 v -> Value.grad_of h' v = total_derivative h 5 v.
Proof.
  intros h.
  assert (Hwf : well_formed h) by apply fan_in_well_formed.
  assert (Ha : acyclic_by (fun r => r) h) by apply well_formed_acyclic, Hwf.
  assert (Hl : 5 < 6) by lia.
  assert (Hr : 5 < length h) by (cbn; lia).
  assert (Hd : forall n, reachable h 5 n ->
            admissible h n /\ Value.grad_of h n = 0%R)
    by (intros n _; apply fan_in_admissible).
  split_and!; try assumption.
  exact (backprop_total_derivative h (fun r => r) 5 6 Hwf Ha Hl Hr Hd).
Defined.

Lemma second_backprop_witness :
  let h := (fan_in_graph false false false).1 in
  well_formed h /\ acyclic_by (fun r => r) h /\ 5 < 6 /\ 5 < length h /\
  (forall n, reachable h 5 n ->
     admissible h n /\ Value.grad_of h n = 0%R) /\
  exists h1 h2 nodes,
    Value.backprop 6 h 5 = Ok h1 /\
    Value.backprop 6 h1 5 = Ok h2 /\
    NoDup nodes /\
    (forall u, u ∈ nodes <-> reachable h 5 u) /\
    Value.grad_of h2 5 = 1%R /\
    (forall v, reachable h 5 v ->
       Value.grad_of h2 v
       = (Value.grad_of h1 v
          + sumR ((fun u => Value.grad_of h1 u * chain h u v)%R <$> nodes))%R) /\
    (forall v, reachable h 5 v -> v <> 5 ->
       consumed_by_root_only h 5 v ->
       Value.grad_of h2 v = (2 * Value.grad_of h1 v)%R).
Proof.
  intros h.
  assert (Hwf : well_formed h) by apply fan_in_well_formed.
  assert (Ha : acyclic_by (fun r => r) h) by apply well_formed_acyclic, Hwf.
  assert (Hl : 5 < 6) by lia.
  assert (Hr : 5 < length h) by (cbn; lia).
  assert (Hd : forall n, reachable h 5 n ->
            admissible h n /\ Value.grad_of h n = 0%R)
    by (intros n _; apply fan_in_admissible).
  split_and!; try assumption.
  exact (second_backprop h (fun r => r) 5 6 Hwf Ha Hl Hr Hd).
Defined.

Lemma get_descendants_ignores_flag_witness :
  let h := (fan_in_graph false false false).1 in
  acyclic_by (fun r => r) h /\ 5 < 6 /\
  Value.get_descendants 6 h 5 true = Value.get_descendants 6 h 5 false /\
  exists s : gset ref,
    Value.get_descendants 6 h 5 true = Ok s /\
    forall x, x ∈ s <-> descendant h 5 x.
Proof.
  intros h.
  assert (Ha : acyclic_by (fun r => r) h)
    by apply well_formed_acyclic, fan_in_well_formed.
  assert (Hl : 5 < 6) by lia.
  split; [exact Ha|]. split; [exact Hl|].
  exact (get_descendants_ignores_flag h (fun r => r) 5 6 Ha Hl).
Defined.

Lemma enumerates_elements : enumerates elements.
Proof.
  intros s. split; [apply NoDup_elements|].
  intros x. apply elem_of_elements.
Qed.

Lemma grad_dict_entries_witness :
  let h := (fan_in_graph false false false).1 in
  acyclic_by (fun r => r) h /\ 5 < 6 /\ enumerates elements /\
  exists ds m,
    Value.grad_dict 6 elements h 5 = Ok m /\
    NoDup ds /\
    (forall x, x ∈ ds <-> descendant h 5 x) /\
    (forall i d, ds !! i = Some d ->
       (forall j d', ds !! j = Some d' -> i < j ->
          Value.key h j d' <> Value.key h i d) ->
       m !! Value.key h i d = Some (Value.grad_of h d)) /\
    (forall k g, m !! k = Some g ->
       exists i d, ds !! i = Some d /\ Value.key h i d = k /\
                   g = Value.grad_of h d).
Proof.
  intros h.
  assert (Ha : acyclic_by (fun r => r) h)
    by apply well_formed_acyclic, fan_in_well_formed.
  assert (Hl : 5 < 6) by lia.
  split; [exact Ha|]. split; [exact Hl|]. split; [exact enumerates_elements|].
  exact (grad_dict_entries h (fun r => r) 5 6 elements Ha Hl enumerates_elements).
Defined.

Lemma two_parameter_net_parameters : MLP.parameters two_parameter_net = [0; 1].
Proof. reflexivity. Qed.

(** [step] on [z = x * y] with learning rate 0.5: [x] goes from 3 to
    3 - 0.5 * 4 and [y] from 4 to 4 - 0.5 * 3. *)
Example step_product_graph :
  exists h',
    MLP.step 2 two_parameter_net (product_graph false).1 2 (1 / 2) = Ok h' /\
    Value.val_of h' 0 = 1%R /\ Value.val_of h' 1 = (5 / 2)%R.
Proof.
  unfold MLP.step, Value.backprop, product_graph, Value.__mul__, Value.set2.
  cbn. decide_sets. cbn.
  rewrite update_nonzero by (cbn; lra). cbn.
  rewrite update_nonzero by (cbn; lra). cbn.
  eexists. split; [reflexivity|]. cbn. split; lra.
Qed.

(** [step] from a loss that does not depend on the second parameter. *)
Example step_unused_parameter :
  MLP.step 1 two_parameter_net (leaves [3; 4]%R) 0 (1 / 2)
  = Raise AssertionError.
Proof.
  unfold MLP.step, Value.backprop. cbn. decide_sets. cbn.
  rewrite update_nonzero by (cbn; lra). cbn.
  by rewrite update_zero by (cbn; lra).
Qed.

Lemma step_asserts_nonzero_gradients_witness :
  let net := small_net.2 in
  let h := small_net.1.1 in
  let lr := (1 / 2)%R in
  NoDup (MLP.parameters net) /\
  (forall p, p ∈ MLP.parameters net -> p < length h) /\
  (MLP.step 2 net h 0 lr = Raise AssertionError <->
   exists h1, Value.backprop 2 h 0 = Ok h1 /\
     exists p, p ∈ MLP.parameters net /\ Value.grad_of h1 p = 0%R) /\
  (forall h1, Value.backprop 2 h 0 = Ok h1 ->
     (forall p, p ∈ MLP.parameters net -> Value.grad_of h1 p <> 0%R) ->
     exists h2,
       MLP.step 2 net h 0 lr = Ok h2 /\
       (forall p, p ∈ MLP.parameters net ->
          Value.val_of h2 p
          = (Value.val_of h1 p - lr * Value.grad_of h1 p)%R) /\
       (forall i, Value.grad_of h2 i = Value.grad_of h1 i) /\
       (forall i, i ∉ MLP.parameters net ->
          Value.val_of h2 i = Value.val_of h1 i)).
Proof.
  intros net h lr.
  destruct (MLP_init_parameters (fun _ => (1 / 2)%R) ([], 0) 1 1 0 1)
    as [Hnd Hrange].
  assert (Hv : forall p, p ∈ MLP.parameters net -> p < length h)
    by (intros p Hp; apply (Hrange p Hp)).
  split; [exact Hnd|]. split; [exact Hv|].
  exact (step_asserts_nonzero_gradients 2 net h 0 lr Hnd Hv).
Defined.
(** * Further properties of the engine *)

(** ** Constructors and derived operators *)

Lemma make_fold (vals : list R) (h : Value.heap) (rs : list ref) :
  foldl (fun '(h, rs) x =>
           let '(h, r) := Value.new h (Value.__init__ x None None None) in
           (h, rs ++ [r]))
        (h, rs) vals
  = (h ++ ((fun x => Value.__init__ x None None None) <$> vals),
     rs ++ seq (length h) (length vals)).
Proof.
  revert h rs. induction vals as [|x vals IH]; intros h rs; simpl.
  - by rewrite !app_nil_r.
  - rewrite IH, length_app. simpl.
    rewrite <- !app_assoc. simpl. by rewrite Nat.add_1_r.
Qed.

(** X1. [Value.make(v1, ..., vn)] appends [n] leaves to the heap, one per
    number and in the order given, and returns their references; every node
    that existed keeps all its attributes. *)
Theorem make_allocates_leaves (h : Value.heap) (vals : list R) :
  Value.make h vals
  = (h ++ ((fun x => Value.__init__ x None None None) <$> vals),
     seq (length h) (length vals)) /\
  frame (length vals) h (Value.make h vals).1 /\
  forall i x, vals !! i = Some x ->
    let r := length h + i in
    let h' := (Value.make h vals).1 in
    (Value.make h vals).2 !! i = Some r /\
    Value.val_of h' r = x /\ Value.grad_of h' r = 0%R /\
    Value.label_of h' r = None /\ Value.children_of h' r = [] /\
    Value.op_of h' r = None /\ Value.backward_of h' r = bw_default.
Proof.
  assert (E : Value.make h vals
    = (h ++ ((fun x => Value.__init__ x None None None) <$> vals),
       seq (length h) (length vals))).
  { unfold Value.make. by rewrite make_fold. }
  rewrite E. simpl. split; [done|]. split.
  - split; [|by rewrite length_app, length_fmap].
    intros i Hi. by rewrite lookup_app_l.
  - intros i x Hi.
    split; [apply lookup_seq; split; [done | by apply lookup_lt_Some in Hi]|].
    unfold Value.val_of, Value.grad_of, Value.label_of, Value.children_of,
      Value.op_of, Value.backward_of, Value.get.
    rewrite lookup_app_r by lia.
    replace (length h + i - length h) with i by lia.
    rewrite list_lookup_fmap, Hi. simpl. by split_and!.
Qed.

Lemma py_pow_0_m1 : py_pow 0 (-1) = Raise ZeroDivisionError.
Proof. apply py_pow_0_neg. lra. Qed.

(** What the builders return: the reference of the new node, its value, and
    the heap extended by the nodes made. *)
Lemma add_node_spec (flip : bool) (h : Value.heap) (self other : ref) :
  self < length h -> other < length h ->
  exists h', Value.__add__ flip h self (inl other) = (h', length h) /\
    frame 1 h h' /\
    Value.val_of h' (length h) = (Value.val_of h self + Value.val_of h other)%R.
Proof.
  intros Hs Ho. eexists. split; [reflexivity|].
  split; [apply (frame_add flip h self (inl other))|].
  unfold Value.val_of. by rewrite get_node.
Qed.

Lemma add_number_spec (flip : bool) (h : Value.heap) (self : ref) (x : R) :
  self < length h ->
  exists h', Value.__add__ flip h self (inr x) = (h', S (length h)) /\
    frame 2 h h' /\
    Value.val_of h' (S (length h)) = (Value.val_of h self + x)%R.
Proof.
  intros Hs. pose proof (frame_add flip h self (inr x)) as Hf.
  unfold Value.__add__ in *. simpl in *.
  rewrite length_app in *. simpl in *. rewrite Nat.add_1_r in *.
  eexists. split; [reflexivity|]. split; [exact Hf|].
  replace (S (length h))
    with (length (h ++ [Value.__init__ x None None None]))
    by (rewrite length_app; simpl; lia).
  unfold Value.val_of. rewrite get_node. simpl.
  unfold Value.val_of. by rewrite get_app_l, get_new.
Qed.

Lemma mul_node_spec (flip : bool) (h : Value.heap) (self other : ref) :
  self < length h -> other < length h ->
  exists h', Value.__mul__ flip h self (inl other) = (h', length h) /\
    frame 1 h h' /\
    Value.val_of h' (length h) = (Value.val_of h self * Value.val_of h other)%R.
Proof.
  intros Hs Ho. eexists. split; [reflexivity|].
  split; [apply (frame_mul flip h self (inl other))|].
  unfold Value.val_of. by rewrite get_node.
Qed.

Lemma pow_2_spec (h : Value.heap) (self : ref) :
  (Rabs (Value.val_of h self * Value.val_of h self) <= float_max)%R ->
  exists h', Value.__pow__ h self 2 = Ok (h', length h) /\
    frame 1 h h' /\
    Value.val_of h' (length h) = (Value.val_of h self * Value.val_of h self)%R.
Proof.
  intros Hr. pose proof (frame_pow h self 2) as Hf.
  unfold Value.__pow__ in *.
  rewrite py_pow_2, range_checked_ok in * by done. cbn in *.
  eexists. split; [reflexivity|]. split; [exact Hf|].
  unfold Value.val_of. by rewrite get_node.
Qed.

Lemma pow_2_overflow (h : Value.heap) (self : ref) :
  (float_max < Rabs (Value.val_of h self * Value.val_of h self))%R ->
  Value.__pow__ h self 2 = Raise OverflowError.
Proof.
  intros Hr. unfold Value.__pow__.
  by rewrite py_pow_2, range_checked_overflow by done.
Qed.

Lemma tanh_spec (h : Value.heap) (self : ref) :
  exists h', Value.tanh h self = (h', length h) /\
    frame 1 h h' /\
    Value.val_of h' (length h) = math_tanh (Value.val_of h self).
Proof.
  eexists. split; [reflexivity|]. split; [apply frame_node|].
  unfold Value.val_of. by rewrite get_node.
Qed.

Lemma rsub_number_spec (flips : bool * bool) (h : Value.heap) (self : ref)
    (x : R) :
  self < length h ->
  exists h', Value.__rsub__ flips h self (inr x) = (h', S (length h)) /\
    frame 2 h h' /\
    Value.val_of h' (S (length h)) = (Value.val_of h self - x)%R.
Proof.
  intros Hs. unfold Value.__rsub__, Value.__sub__.
  destruct (add_number_spec flips.2 h self (- x) Hs) as (h' & E & Hf & Hv).
  exists h'. split; [done|]. split; [done|]. rewrite Hv. lra.
Qed.

(** X2. The reflected subtraction [x - v], with [x] a number, is evaluated as
    [v.__rsub__(x)], which returns [v - x]: the node it makes holds
    [v.val - x], the negation of the difference that was written. *)
Theorem rsub_swaps_operands (flips : bool * bool) (h : Value.heap)
    (self : ref) (x : R) :
  self < length h ->
  out_val (Value.__rsub__ flips h self (inr x)) = (Value.val_of h self - x)%R /\
  (out_val (Value.__rsub__ flips h self (inr x)) = (x - Value.val_of h self)%R
   <-> Value.val_of h self = x).
Proof.
  intros Hs.
  destruct (rsub_number_spec flips h self x Hs) as (h' & E & _ & Hv).
  unfold out_val. rewrite E. simpl. rewrite Hv.
  split; [done|]. split; intros; lra.
Qed.

(** X3. [a / b] on two nodes is [a * b**-1].  It raises ZeroDivisionError
    when [b] holds 0, and OverflowError when [b] is not 0 and [1 / b] lies
    beyond the float range; otherwise it makes two nodes, the second holding
    the quotient, and leaves the existing nodes as they were. *)
Theorem truediv_quotient_or_raise (flip : bool) (h : Value.heap)
    (self other : ref) :
  self < length h -> other < length h ->
  (Value.val_of h other = 0%R ->
   Value.__truediv__ flip h self (inl other) = Raise ZeroDivisionError) /\
  (Value.val_of h other <> 0%R ->
   (float_max < Rabs (/ Value.val_of h other))%R ->
   Value.__truediv__ flip h self (inl other) = Raise OverflowError) /\
  (Value.val_of h other <> 0%R ->
   (Rabs (/ Value.val_of h other) <= float_max)%R ->
   exists r, Value.__truediv__ flip h self (inl other) = Ok r /\
     out_val r = (Value.val_of h self / Value.val_of h other)%R /\
     frame 2 h r.1).
Proof.
  intros Hs Ho. split_and!.
  - intros Hv.
    unfold Value.__truediv__, Value.__pow__. rewrite Hv, py_pow_0_m1. done.
  - intros Hv Hbig. unfold Value.__truediv__, Value.__pow__.
    by rewrite (py_pow_m1 _ Hv), range_checked_overflow by done.
  - intros Hv Hin.
    pose proof (frame_truediv flip h self (inl other)) as Hf.
    unfold Value.__truediv__, Value.__pow__ in *.
    rewrite (py_pow_m1 _ Hv), range_checked_ok in * by done. cbn in *.
    eexists. split; [done|]. split; [|exact Hf].
    unfold out_val, Value.__mul__. simpl.
    unfold Value.val_of at 1. rewrite get_node. simpl.
    unfold Value.val_of.
    rewrite get_node, get_node_old by done. simpl.
    unfold Rdiv. done.
Qed.

(** A divisor whose reciprocal is beyond the float range:
    [Value(1.0) / Value(1 / (2 * sys.float_info.max))]. *)
Example truediv_overflows (flip : bool) :
  Value.__truediv__ flip (leaves [1; / (2 * float_max)]%R) 0 (inl 1)
  = Raise OverflowError.
Proof.
  pose proof float_max_pos.
  unfold Value.__truediv__, Value.__pow__. cbn.
  rewrite py_pow_m1 by (apply Rinv_neq_0_compat; lra).
  rewrite range_checked_overflow; [done|].
  rewrite Rinv_inv, Rabs_right; lra.
Qed.
(** ** What [backprop] writes *)

Lemma call_same_graph (b : Backward) (h h' : Value.heap) :
  Value.call b h = Ok h' -> same_graph h h'.
Proof.
  destruct b; simpl;
    repeat (destruct (Rlt_dec _ _)); try (destruct (py_pow _ _); cbn);
    intros [= <-];
    repeat apply same_graph_set_grad; apply same_graph_refl.
Qed.

Lemma run_same_graph (l : list ref) (h h' : Value.heap) :
  foldM (fun h n => Value.call (Value.backward_of h n) h) h l = Ok h' ->
  same_graph h h'.
Proof.
  revert h. induction l as [|n l IH]; intros h; simpl.
  - intros [= <-]. apply same_graph_refl.
  - destruct (Value.call _ h) as [h1|] eqn:E; cbn; [|done].
    intros E'. eapply same_graph_trans; [by eapply call_same_graph | by apply IH].
Qed.

Lemma backprop_same_graph (limit : nat) (h h' : Value.heap) (self : ref) :
  Value.backprop limit h self = Ok h' -> same_graph h h'.
Proof.
  unfold Value.backprop.
  destruct (Value.build_topo _ _ _ _) as [st|]; cbn; [|done].
  intros E. apply run_same_graph in E.
  eapply same_graph_trans; [|exact E].
  apply same_graph_set_grad, same_graph_refl.
Qed.

(** X4. Whenever [backprop] returns, whatever the graph, it has written to
    gradient accumulators only: no node was allocated or dropped, and every
    node has the value, label, operand set, operation tag and backward rule
    it had. *)
Theorem backprop_writes_gradients_only (limit : nat) (h h' : Value.heap)
    (self : ref) :
  Value.backprop limit h self = Ok h' ->
  length h' = length h /\
  forall i,
    Value.val_of h' i = Value.val_of h i /\
    Value.label_of h' i = Value.label_of h i /\
    Value.children_of h' i = Value.children_of h i /\
    Value.op_of h' i = Value.op_of h i /\
    Value.backward_of h' i = Value.backward_of h i.
Proof.
  intros E. destruct (backprop_same_graph _ _ _ _ E) as [Hlen H].
  split; [done|]. intros i. destruct (H i) as (? & ? & ? & ? & ?).
  by split_and!.
Qed.

Lemma grad_of_set_grad_ne (h : Value.heap) (r i : ref) (g : R) :
  i <> r -> Value.grad_of (Value.set_grad h r g) i = Value.grad_of h i.
Proof. intros Hne. by apply get_alter_ne. Qed.

(** A backward rule writes to operands of its node only. *)
Lemma call_touches_children (h0 h h' : Value.heap) (n : ref) :
  well_formed h0 -> same_graph h0 h ->
  Value.call (Value.backward_of h n) h = Ok h' ->
  forall v, ~ child h0 n v -> Value.grad_of h' v = Value.grad_of h v.
Proof.
  intros Hwf [_ Hsame] E v Hv.
  destruct (Hsame n) as (_ & _ & _ & _ & Hb). rewrite <- Hb in E.
  specialize (Hwf n). unfold node_shape in Hwf. unfold child in Hv.
  destruct (Value.backward_of h0 n); simpl in E.
  - by injection E as <-.
  - destruct Hwf as (_ & _ & _ & _ & flip & Hc). rewrite Hc, set2_elem in Hv.
    injection E as <-. rewrite !grad_of_set_grad_ne by tauto. done.
  - destruct Hwf as (_ & _ & _ & _ & flip & Hc). rewrite Hc, set2_elem in Hv.
    injection E as <-. rewrite !grad_of_set_grad_ne by tauto. done.
  - destruct Hwf as (_ & _ & _ & Hc). rewrite Hc, list_elem_of_singleton in Hv.
    repeat destruct (Rlt_dec _ _); injection E as <-;
      rewrite ?grad_of_set_grad_ne by done; done.
  - destruct Hwf as (_ & _ & _ & Hc). rewrite Hc, list_elem_of_singleton in Hv.
    destruct (py_pow _ _); cbn in E; [|done]. injection E as <-.
    by rewrite grad_of_set_grad_ne.
  - destruct Hwf as (_ & _ & _ & Hc). rewrite Hc, list_elem_of_singleton in Hv.
    injection E as <-. by rewrite grad_of_set_grad_ne.
  - destruct Hwf as (_ & _ & _ & Hc). rewrite Hc, list_elem_of_singleton in Hv.
    destruct (py_pow _ _); cbn in E; [|done]. injection E as <-.
    by rewrite grad_of_set_grad_ne.
  - destruct Hwf as (_ & _ & _ & Hc). rewrite Hc, list_elem_of_singleton in Hv.
    injection E as <-. by rewrite grad_of_set_grad_ne.
  - destruct Hwf as (_ & _ & _ & Hc). rewrite Hc, list_elem_of_singleton in Hv.
    injection E as <-. by rewrite grad_of_set_grad_ne.
Qed.

Lemma run_touches_reachable (h0 : Value.heap) (root : ref) (l : list ref) :
  well_formed h0 ->
  (forall n, n ∈ l -> reachable h0 root n) ->
  forall h h', same_graph h0 h ->
    foldM (fun h n => Value.call (Value.backward_of h n) h) h l = Ok h' ->
    forall v, ~ reachable h0 root v -> Value.grad_of h' v = Value.grad_of h v.
Proof.
  intros Hwf. induction l as [|n l IH]; intros Hl h h' Hsame; simpl.
  - by intros [= <-].
  - destruct (Value.call _ h) as [h1|] eqn:E; cbn; [|done].
    intros E' v Hv.
    rewrite (IH (fun m Hm => Hl m (list_elem_of_further _ _ _ Hm)) h1 h'); try done.
    + apply (call_touches_children h0 h h1 n Hwf Hsame E).
      intros Hc. apply Hv. eapply rtc_r; [apply Hl; left | exact Hc].
    + eapply same_graph_trans; [exact Hsame | by eapply call_same_graph].
Qed.

(** X5. On a well-formed heap, [backprop] leaves the accumulator of every node
    that the root does not depend on as it was: nodes of other graphs that
    share the heap are not disturbed. *)
Theorem backprop_leaves_other_nodes (limit : nat) (h h' : Value.heap)
    (root : ref) :
  well_formed h ->
  root < limit ->
  Value.backprop limit h root = Ok h' ->
  forall v, ~ reachable h root v -> Value.grad_of h' v = Value.grad_of h v.
Proof.
  intros Hwf Hlim E v Hv.
  destruct (build_topo_root h (fun r => r) root limit
              (well_formed_acyclic h Hwf) Hlim) as (vis & topo & Et & _ & Hin).
  unfold Value.backprop in E.
  rewrite (build_topo_ext _ h) in E by (intros i; apply children_of_set_grad).
  rewrite Et in E. cbn in E.
  rewrite (run_touches_reachable h root (reverse topo) Hwf) with
    (h := Value.set_grad h root 1) (h' := h'); try done.
  - apply grad_of_set_grad_ne. intros ->. apply Hv, rtc_refl.
  - intros n Hn. apply Hin. by rewrite elem_of_reverse in Hn.
  - apply same_graph_set_grad, same_graph_refl.
Qed.

(** ** Rules that assign instead of accumulating *)

(** [backprop] on a node with one operand that is a leaf: the traversal
    lists the two nodes, and only the rule of the root does anything. *)
Lemma backprop_unary_leaf (limit : nat) (h : Value.heap) (self out : ref) :
  self <> out ->
  Value.children_of h out = [self] ->
  Value.children_of h self = [] ->
  Value.backward_of h self = bw_default ->
  Value.backprop (S (S limit)) h out
  = Value.call (Value.backward_of h out) (Value.set_grad h out 1).
Proof.
  intros Hne Hout Hself Hleaf. unfold Value.backprop.
  rewrite (build_topo_ext _ h) by (intros i; apply children_of_set_grad).
  simpl. destruct (decide (out ∈ (∅ : gset ref))) as [Hin|_]; [exfalso; set_lia|].
  rewrite Hout. simpl.
  destruct (decide (self ∈ (∅ ∪ {[out]} : gset ref))) as [Hin|_];
    [exfalso; set_lia|].
  rewrite Hself. cbn. rewrite backward_of_set_grad.
  destruct (Value.call _ _) as [h1|] eqn:E; cbn; [|done].
  destruct (call_same_graph _ _ _ E) as [_ Hsame].
  destruct (Hsame self) as (_ & _ & _ & _ & <-).
  by rewrite backward_of_set_grad, Hleaf.
Qed.

(** X6. The backward rule of [abs] tests the sign of the result, which is never
    negative, instead of the sign of the operand.  After [backprop] on
    [abs(x)], for a leaf [x], the accumulator of [x] is 1 whenever [x] holds
    a non-zero number, also a negative one (where the derivative is -1); for
    [x] holding 0 it is left as it was. *)
Theorem abs_gradient_ignores_sign (limit : nat) (h : Value.heap) (self : ref) :
  self < length h ->
  Value.children_of h self = [] ->
  Value.backward_of h self = bw_default ->
  exists h',
    Value.backprop (2 + limit) (Value.__abs__ h self).1 (Value.__abs__ h self).2
    = Ok h' /\
    Value.grad_of h' self
    = if Req_dec_T (Value.val_of h self) 0 then Value.grad_of h self else 1%R.
Proof.
  intros Hs Hc Hb. unfold Value.__abs__. simpl.
  set (v := Value.__init__ _ _ _ _).
  set (h1 := Value.set_backward (h ++ [v]) (length h) _).
  assert (Hlen : length h1 = S (length h)).
  { unfold h1. rewrite length_set_backward, length_app. simpl. lia. }
  rewrite (backprop_unary_leaf limit h1 self (length h)).
  - unfold h1 at 1, Value.backward_of. rewrite get_node. simpl.
    rewrite val_of_set_grad.
    assert (Hv : Value.val_of h1 (length h) = Rabs (Value.val_of h self)).
    { unfold h1, Value.val_of. by rewrite get_node. }
    assert (Hg : Value.grad_of h1 self = Value.grad_of h self).
    { unfold h1, Value.grad_of. by rewrite get_node_old. }
    rewrite Hv.
    destruct (Req_dec_T (Value.val_of h self) 0) as [Hz|Hnz].
    + rewrite Hz, Rabs_R0.
      destruct (Rlt_dec 0 0); [lra|].
      eexists. split; [done|].
      rewrite grad_of_set_grad_ne by lia. done.
    + pose proof (Rabs_pos_lt _ Hnz).
      destruct (Rlt_dec 0 (Rabs (Value.val_of h self))); [|lra].
      eexists. split; [done|].
      rewrite grad_of_set_grad by (rewrite length_set_grad; lia).
      destruct (decide (self = self)); [|done].
      rewrite grad_of_set_grad by lia.
      by destruct (decide (length h = length h)).
  - lia.
  - unfold h1, Value.children_of. by rewrite get_node.
  - unfold h1, Value.children_of. by rewrite get_node_old.
  - unfold h1, Value.backward_of. by rewrite get_node_old.
Qed.

(** X7. The backward rule of [sigmoid] assigns to the operand's accumulator.
    When the sigmoid [s] of the value of a leaf [x] is computed, so that
    [x.sigmoid()] makes its node, then after [backprop] on that node the
    accumulator of [x] is [s * (1 - s)], whatever the accumulator held
    before; a second [backprop] leaves the same number, where an
    accumulating rule would have doubled it. *)
Theorem sigmoid_gradient_overwrites (limit : nat) (h : Value.heap)
    (self : ref) (s : R) :
  self < length h ->
  Value.children_of h self = [] ->
  Value.backward_of h self = bw_default ->
  value.sigmoid (Value.val_of h self) = Ok s ->
  exists r h1 h2,
    Value.sigmoid h self = Ok r /\
    Value.backprop (2 + limit) r.1 r.2 = Ok h1 /\
    Value.grad_of h1 self = (s * (1 - s))%R /\
    Value.backprop (2 + limit) h1 r.2 = Ok h2 /\
    Value.grad_of h2 self = (s * (1 - s))%R.
Proof.
  intros Hs Hc Hb Hsig. unfold Value.sigmoid. rewrite Hsig.
  cbn [mbind result_bind]. simpl.
  set (v := Value.__init__ _ _ _ _).
  set (h0 := Value.set_backward (h ++ [v]) (length h) _).
  assert (Hlen : length h0 = S (length h)).
  { unfold h0. rewrite length_set_backward, length_app. simpl. lia. }
  assert (Hrun : forall hx, same_graph h0 hx ->
    exists hy, Value.backprop (2 + limit) hx (length h) = Ok hy /\
      same_graph h0 hy /\ Value.grad_of hy self = (s * (1 - s))%R).
  { intros hx [Hl Hsame].
    destruct (Hsame self) as (_ & _ & Hcs & _ & Hbs).
    destruct (Hsame (length h)) as (_ & _ & Hco & _ & Hbo).
    change (2 + limit) with (S (S limit)).
    rewrite (backprop_unary_leaf limit hx self (length h)).
    - rewrite <- Hbo. unfold h0 at 1, Value.backward_of. rewrite get_node. simpl.
      eexists. split; [done|]. split.
      + split; [by rewrite !length_set_grad|].
        intros i. destruct (Hsame i) as (? & ? & ? & ? & ?).
        rewrite !val_of_set_grad, !label_of_set_grad, !children_of_set_grad,
          !op_of_set_grad, !backward_of_set_grad. by split_and!.
      + rewrite grad_of_set_grad by (rewrite length_set_grad; lia).
        destruct (decide (self = self)); [|done].
        rewrite grad_of_set_grad by lia.
        destruct (decide (length h = length h)); [lra | done].
    - lia.
    - rewrite <- Hco. unfold h0, Value.children_of. by rewrite get_node.
    - rewrite <- Hcs. unfold h0, Value.children_of. by rewrite get_node_old.
    - rewrite <- Hbs. unfold h0, Value.backward_of. by rewrite get_node_old. }
  destruct (Hrun h0 (same_graph_refl h0)) as (h1 & E1 & Hs1 & Hg1).
  destruct (Hrun h1 Hs1) as (h2 & E2 & _ & Hg2).
  eexists. exists h1, h2. split; [reflexivity|]. done.
Qed.

(** ** When [backprop] returns *)

Lemma call_ok (b : Backward) (h : Value.heap) :
  (forall s k o, b <> bw_pow s k o) ->
  (forall s val o, b = bw_tanh s val o -> exists x, val = math_tanh x) ->
  exists h', Value.call b h = Ok h'.
Proof.
  intros Hb Ht. destruct b; simpl; eauto.
  - repeat destruct (Rlt_dec _ _); eauto.
  - by destruct (Hb self other out).
  - destruct (Ht self val out eq_refl) as [x ->].
    rewrite py_pow_2_small by (pose proof (tanh_bound x); lra). cbn. eauto.
Qed.

Lemma run_ok (h0 : Value.heap) (l : list ref) :
  (forall n, n ∈ l ->
     (forall s k o, Value.backward_of h0 n <> bw_pow s k o) /\
     tanh_captured h0 n) ->
  forall h, same_graph h0 h ->
    exists h',
      foldM (fun h n => Value.call (Value.backward_of h n) h) h l = Ok h'.
Proof.
  induction l as [|n l IH]; intros Hl h Hsame; simpl; [eauto|].
  destruct (call_ok (Value.backward_of h n) h) as [h1 E].
  { pose proof Hsame as [_ Hattr].
    destruct (Hattr n) as (_ & _ & _ & _ & <-). apply Hl. left. }
  { pose proof Hsame as [_ Hattr].
    destruct (Hattr n) as (_ & _ & _ & _ & <-).
    intros s val o Hb. destruct (Hl n) as [_ Ht]; [left|].
    unfold tanh_captured in Ht. by rewrite Hb in Ht. }
  rewrite E. cbn. apply IH.
  - intros m Hm. apply Hl. by right.
  - eapply same_graph_trans; [exact Hsame | by eapply call_same_graph].
Qed.

(** X29. Only a power node can make [backprop] raise.  On every acyclic graph
    without power nodes under the root (sums, products, abs, sigmoid, tanh,
    relu and exp nodes in any arrangement, and whatever the accumulators
    hold), [backprop] returns normally when the recursion limit exceeds the
    depth of the graph.  The rule of a tanh node squares the number its
    closure captured; that number is a result of [math.tanh], which is what
    keeps the square within the float range. *)
Theorem backprop_returns_without_power (h : Value.heap) (rank : ref -> nat)
    (root : ref) (limit : nat) :
  acyclic_by rank h ->
  rank root < limit ->
  (forall n, reachable h root n ->
     (forall s k o, Value.backward_of h n <> bw_pow s k o) /\
     tanh_captured h n) ->
  exists h', Value.backprop limit h root = Ok h'.
Proof.
  intros Hacyc Hlim Hnopow.
  destruct (build_topo_root h rank root limit Hacyc Hlim)
    as (vis & topo & E & _ & Hin).
  unfold Value.backprop.
  rewrite (build_topo_ext _ h) by (intros i; apply children_of_set_grad).
  rewrite E. cbn [mbind result_bind snd]. apply (run_ok h).
  - intros n Hn. apply Hnopow, Hin. by rewrite elem_of_reverse in Hn.
  - apply same_graph_set_grad, same_graph_refl.
Qed.
(** ** [recompute] *)

(** X8. The operand set [{x, x}] has one element, so [recompute] on [x + x] and
    on [x * x] adds up, or multiplies, a single recomputed operand: it
    returns the value of [x] where the node holds [2 * x] or [x * x]. *)
Theorem recompute_same_operand (flip : bool) (limit : nat) (h : Value.heap)
    (self : ref) :
  self < length h ->
  Value.op_of h self = None ->
  let s := Value.__add__ flip h self (inl self) in
  let p := Value.__mul__ flip h self (inl self) in
  Value.recompute (2 + limit) s.1 s.2 None = Ok (Value.val_of h self) /\
  out_val s = (Value.val_of h self + Value.val_of h self)%R /\
  Value.recompute (2 + limit) p.1 p.2 None = Ok (Value.val_of h self) /\
  out_val p = (Value.val_of h self * Value.val_of h self)%R.
Proof.
  intros Hs Hop. unfold Value.__add__, Value.__mul__, out_val. cbn -[Value.recompute].
  split_and!.
  - change (2 + limit) with (S (S limit)). cbn.
    unfold Value.op_of, Value.children_of, Value.label_of, Value.val_of.
    rewrite !get_node. simpl. unfold Value.set2.
    destruct (decide (self = self)); [|done]. simpl.
    rewrite !get_node_old by done. fold (Value.op_of h self). rewrite Hop.
    destruct (Value.get Value.label None h self); cbn; f_equal;
      unfold py_sum; simpl; lra.
  - unfold Value.val_of. by rewrite get_node.
  - change (2 + limit) with (S (S limit)). cbn.
    unfold Value.op_of, Value.children_of, Value.label_of, Value.val_of.
    rewrite !get_node. simpl. unfold Value.set2.
    destruct (decide (self = self)); [|done]. simpl.
    rewrite !get_node_old by done. fold (Value.op_of h self). rewrite Hop.
    destruct (Value.get Value.label None h self); cbn; f_equal;
      unfold py_prod; simpl; lra.
  - unfold Value.val_of. by rewrite get_node.
Qed.

(** [recompute] on a graph of leaves, sums and products of two different
    nodes computes any function [G] that agrees with [new_val] on the
    leaves and is the sum, or the product, of its values at the operands on
    the other nodes. *)
Lemma recompute_arith (h : Value.heap) (m : option (gmap string R))
    (G : ref -> R) :
  well_formed h ->
  forall limit u, u < limit ->
    (forall n, reachable h u n ->
       match Value.backward_of h n with
       | bw_default => new_val h m n = G n
       | bw_add s o _ => s <> o /\ G n = (G s + G o)%R
       | bw_mul s o _ => s <> o /\ G n = (G s * G o)%R
       | _ => False
       end) ->
    Value.recompute limit h u m = Ok (G u).
Proof.
  intros Hwf. induction limit as [|limit IH]; intros u Hu Hall; [lia|].
  pose proof (Hwf u) as Hshape. unfold node_shape in Hshape.
  pose proof (Hall u (rtc_refl _ _)) as Hnode.
  assert (Hsub : forall c, c < u -> child h u c ->
            Value.recompute limit h c m = Ok (G c)).
  { intros c Hc Hch. apply IH; [lia|]. intros n Hn. apply Hall.
    eapply rtc_l; [exact Hch | exact Hn]. }
  unfold child in Hsub. simpl.
  destruct (Value.backward_of h u) as [|s o out|s o out| | | | | |]; try done.
  - destruct Hshape as [-> _]. by rewrite <- Hnode.
  - destruct Hshape as (_ & Hs & Ho & -> & flip & Hc).
    destruct Hnode as [Hne ->]. rewrite Hc in *.
    unfold Value.set2 in *. destruct (decide (s = o)); [done|].
    destruct flip; cbn; rewrite ?Hsub by (done || set_lia); cbn;
      f_equal; unfold py_sum; simpl; lra.
  - destruct Hshape as (_ & Hs & Ho & -> & flip & Hc).
    destruct Hnode as [Hne ->]. rewrite Hc in *.
    unfold Value.set2 in *. destruct (decide (s = o)); [done|].
    destruct flip; cbn; rewrite ?Hsub by (done || set_lia); cbn;
      f_equal; unfold py_prod; simpl; lra.
Qed.

(** X9. On a graph made of leaves, sums and products of two different nodes, all
    holding the values their builders computed, [recompute] without [mod]
    returns the value the node holds. *)
Theorem recompute_returns_value (limit : nat) (h : Value.heap) (root : ref) :
  well_formed h ->
  root < limit ->
  (forall n, reachable h root n -> arithmetic h n /\ node_value h n) ->
  Value.recompute limit h root None = Ok (Value.val_of h root).
Proof.
  intros Hwf Hlim Hall.
  apply (recompute_arith h None (Value.val_of h) Hwf limit root Hlim).
  intros n Hn. destruct (Hall n Hn) as [Ha Hv].
  unfold arithmetic in Ha. unfold node_value in Hv.
  destruct (Value.backward_of h n); done.
Qed.

Lemma recompute_leaf_forward (limit : nat) (h : Value.heap) (root d : ref)
    (l : string) (t : R) :
  well_formed h ->
  root < limit ->
  (forall n, reachable h root n -> arithmetic h n) ->
  Value.backward_of h d = bw_default ->
  Value.label_of h d = Some l ->
  (forall n, reachable h root n -> Value.backward_of h n = bw_default ->
     Value.label_of h n = Some l -> n = d) ->
  Value.recompute limit h root (Some {[ l := t ]}) = Ok (forward h root d t).
Proof.
  intros Hwf Hlim Hall Hleaf Hlab Huniq.
  apply (recompute_arith h (Some {[ l := t ]}) (fun u => forward h u d t)
           Hwf limit root Hlim).
  intros n Hn. pose proof (Hall n Hn) as Ha. unfold arithmetic in Ha.
  destruct (decide (n = d)) as [->|Hne].
  - rewrite Hleaf. unfold new_val. rewrite Hlab, lookup_singleton_eq. simpl.
    by rewrite forward_self.
  - rewrite (forward_unfold h Hwf d t n Hne).
    destruct (Value.backward_of h n) eqn:Hb; try done.
    unfold new_val. destruct (Value.label_of h n) as [l'|] eqn:Hl'; [|done].
    destruct (decide (l' = l)) as [->|Hll].
    + by destruct Hne; apply Huniq.
    + by rewrite lookup_singleton_ne.
Qed.

(** X10. On such a graph, [recompute] with [mod = {l: t}], where the label [l] is
    carried by one leaf [d] and by no other leaf under the root, returns the
    value the root takes when [d] holds [t] and every node above it is
    evaluated again: the forward function of the graph at [t]. *)
Theorem recompute_follows_leaf (limit : nat) (h : Value.heap) (root d : ref)
    (l : string) (t : R) :
  well_formed h ->
  root < limit ->
  (forall n, reachable h root n -> arithmetic h n) ->
  Value.backward_of h d = bw_default ->
  Value.label_of h d = Some l ->
  (forall n, reachable h root n -> Value.backward_of h n = bw_default ->
     Value.label_of h n = Some l -> n = d) ->
  Value.recompute limit h root (Some {[ l := t ]}) = Ok (forward h root d t).
Proof. apply recompute_leaf_forward. Qed.

(** ** [naive_backprop] *)

Lemma recompute_ext (h h' : Value.heap) (m : option (gmap string R)) :
  same_graph h h' ->
  forall limit u, Value.recompute limit h u m = Value.recompute limit h' u m.
Proof.
  intros [_ Hsame]. induction limit as [|limit IH]; intros u; simpl; [done|].
  destruct (Hsame u) as (-> & -> & -> & -> & _).
  destruct (Value.op_of h' u); [|done].
  assert (forall cs, forM (fun c => Value.recompute limit h c m) cs
                   = forM (fun c => Value.recompute limit h' c m) cs) as ->.
  { induction cs as [|c cs IHcs]; simpl; [done|]. by rewrite IH, IHcs. }
  done.
Qed.

Lemma get_descendants_ext (h h' : Value.heap) (flag : bool) :
  (forall i, Value.children_of h i = Value.children_of h' i) ->
  forall limit v,
    Value.get_descendants limit h v flag = Value.get_descendants limit h' v flag.
Proof.
  intros H. induction limit as [|limit IH]; intros v; simpl; [done|].
  rewrite H. apply foldM_ext. intros acc c. by rewrite IH.
Qed.

Lemma descendant_dict_ext (h h' : Value.heap) (ds : list ref) :
  (forall i, Value.label_of h i = Value.label_of h' i) ->
  Value.descendant_dict h ds = Value.descendant_dict h' ds.
Proof.
  intros H. unfold Value.descendant_dict. generalize (@nil (string * ref)).
  induction ds as [|d ds IH]; intros acc; simpl; [done|].
  by rewrite H, IH.
Qed.

Lemma dict_set_fresh {V : Type} (k : string) (v : V) (d : list (string * V)) :
  k ∉ d.*1 -> dict_set k v d = d ++ [(k, v)].
Proof.
  induction d as [|[k' v'] d IH]; simpl; intros Hk; [done|].
  rewrite not_elem_of_cons in Hk. destruct Hk as [Hne Hk].
  destruct (decide (k' = k)); [congruence|]. by rewrite IH.
Qed.

Lemma descendant_dict_snoc (h : Value.heap) (ds : list ref) (d : ref) :
  Value.descendant_dict h (ds ++ [d])
  = match Value.label_of h d with
    | Some l => dict_set l d (Value.descendant_dict h ds)
    | None => Value.descendant_dict h ds
    end.
Proof. unfold Value.descendant_dict. by rewrite foldl_app. Qed.

(** When no two of the listed nodes carry the same label, the dict holds the
    labelled nodes in the order of the list. *)
Lemma descendant_dict_distinct (h : Value.heap) (ds : list ref) :
  NoDup ds ->
  (forall d d' l, d ∈ ds -> d' ∈ ds ->
     Value.label_of h d = Some l -> Value.label_of h d' = Some l -> d = d') ->
  forall l d,
    (l, d) ∈ Value.descendant_dict h ds <->
    d ∈ ds /\ Value.label_of h d = Some l.
Proof.
  induction ds as [|e ds IH] using rev_ind; intros Hnd Huniq l d.
  - unfold Value.descendant_dict. simpl. set_lia.
  - apply NoDup_app in Hnd as (Hnd & Hdisj & _).
    assert (IH' : forall l d, (l, d) ∈ Value.descendant_dict h ds <->
                    d ∈ ds /\ Value.label_of h d = Some l).
    { apply IH; [done|]. intros a b k Ha Hb. apply Huniq; set_lia. }
    rewrite descendant_dict_snoc, elem_of_app, list_elem_of_singleton.
    destruct (Value.label_of h e) as [le|] eqn:Hle.
    + rewrite dict_set_fresh.
      * rewrite elem_of_app, list_elem_of_singleton, IH'.
        split.
        -- intros [[? ?]|[= -> ->]]; auto.
        -- intros [[?| ->] Hl]; [by left; split|].
           right. congruence.
      * intros Hin. apply list_elem_of_fmap in Hin as ([k x] & -> & Hin).
        simpl in *. apply IH' in Hin as [Hx Hlx].
        assert (x = e) as -> by (apply (Huniq x e k); set_lia).
        by apply (Hdisj e), list_elem_of_singleton.
    + rewrite IH'. split; [tauto|].
      intros [[?| ->] Hl]; [done | congruence].
Qed.

Lemma dict_set_keys {V : Type} (k : string) (v : V) (d : list (string * V)) :
  NoDup d.*1 -> NoDup (dict_set k v d).*1 /\
  forall k', k' ∈ (dict_set k v d).*1 <-> k' = k \/ k' ∈ d.*1.
Proof.
  induction d as [|[k0 v0] d IH]; simpl; intros Hnd.
  - split; [apply NoDup_singleton | set_lia].
  - apply NoDup_cons in Hnd as [Hk0 Hnd]. destruct (IH Hnd) as [IH1 IH2].
    destruct (decide (k0 = k)) as [->|Hne]; simpl.
    + split; [by apply NoDup_cons | set_lia].
    + split; [apply NoDup_cons; split; [|done]|].
      * rewrite IH2. tauto.
      * intros k'. rewrite !elem_of_cons, IH2. tauto.
Qed.

(** The keys of the dict are distinct, and so are the nodes it holds, since
    a node has one label. *)
Lemma descendant_dict_NoDup (h : Value.heap) (ds : list ref) :
  NoDup (Value.descendant_dict h ds).*1 /\
  (forall l d, (l, d) ∈ Value.descendant_dict h ds ->
     d ∈ ds /\ Value.label_of h d = Some l).
Proof.
  induction ds as [|e ds [IH1 IH2]] using rev_ind.
  - unfold Value.descendant_dict. simpl. split; [constructor | set_lia].
  - rewrite descendant_dict_snoc.
    destruct (Value.label_of h e) as [le|] eqn:Hle.
    + split; [by apply dict_set_keys|].
      intros l d Hin.
      assert (forall (dict : list (string * ref)),
        (l, d) ∈ dict_set le e dict -> (l, d) = (le, e) \/ (l, d) ∈ dict) as Hset.
      { induction dict as [|[k0 v0] dict IHd]; simpl; [set_lia|].
        destruct (decide (k0 = le)); rewrite !elem_of_cons; [tauto|].
        intros [?|?]; [tauto|]. destruct (IHd H); tauto. }
      destruct (Hset _ Hin) as [[= -> ->]|Hold]; [set_lia|].
      destruct (IH2 _ _ Hold). set_lia.
    + split; [done|]. intros l d Hin. destruct (IH2 _ _ Hin). set_lia.
Qed.

Lemma dict_values_NoDup (h : Value.heap) (dict : list (string * ref)) :
  NoDup dict.*1 ->
  (forall l d, (l, d) ∈ dict -> Value.label_of h d = Some l) ->
  NoDup dict.*2.
Proof.
  induction dict as [|[k v] dict IH]; simpl; intros Hnd Hlab; [constructor|].
  apply NoDup_cons in Hnd as [Hk Hnd]. apply NoDup_cons. split.
  - intros Hin. apply list_elem_of_fmap in Hin as ([k' v'] & Hv & Hin).
    simpl in Hv. subst v'.
    assert (k' = k) as ->.
    { pose proof (Hlab k' v (list_elem_of_further _ _ _ Hin)).
      pose proof (Hlab k v (list_elem_of_here _ _)). congruence. }
    apply Hk, list_elem_of_fmap. by exists (k, v).
  - apply IH; [done|]. intros l d Hin. apply Hlab. by right.
Qed.

Lemma py_div_nonzero (x y : R) : y <> 0%R -> py_div x y = Ok (x / y)%R.
Proof. intros Hy. unfold py_div. by destruct (Req_dec_T y 0). Qed.

Lemma py_div_zero (x : R) : py_div x 0 = Raise ZeroDivisionError.
Proof. unfold py_div. by destruct (Req_dec_T 0 0). Qed.

(** The loop of [naive_backprop] over the items of the dict: the runs of
    [recompute] do not read what the loop writes, so each node of the dict
    ends with the quotient of its own run. *)
Lemma naive_loop (limit : nat) (hp0 : Value.heap) (self : ref) (h : R)
    (NV : ref -> R) (items : list (string * ref)) :
  h <> 0%R ->
  NoDup items.*2 ->
  (forall l d, (l, d) ∈ items ->
     d < length hp0 /\
     Value.recompute limit hp0 self
       (Some {[ l := (Value.val_of hp0 d + h)%R ]}) = Ok (NV d)) ->
  forall hp, same_graph hp0 hp ->
    exists hp',
      foldM (fun hp '(label, d) =>
               let mod_ : gmap string R :=
                 {[ label := (Value.val_of hp d + h)%R ]} in
               new_val ← Value.recompute limit hp self (Some mod_);
               grad ← py_div (new_val - Value.val_of hp self) h;
               Ok (Value.set_grad hp d grad))
            hp items = Ok hp' /\
      same_graph hp0 hp' /\
      (forall l d, (l, d) ∈ items ->
         Value.grad_of hp' d = ((NV d - Value.val_of hp0 self) / h)%R) /\
      (forall v, v ∉ items.*2 -> Value.grad_of hp' v = Value.grad_of hp v).
Proof.
  intros Hh. induction items as [|[l d] items IH]; intros Hnd Hrun hp Hsame.
  - exists hp. simpl. split_and!; [done | done | set_lia | done].
  - simpl in Hnd. apply NoDup_cons in Hnd as [Hd Hnd].
    destruct (Hrun l d (list_elem_of_here _ _)) as [Hlt Hrec].
    pose proof Hsame as [Hlen Hattr].
    destruct (Hattr d) as (Hvd & _). destruct (Hattr self) as (Hvs & _).
    simpl. rewrite <- (recompute_ext hp0 hp _ Hsame), <- Hvd, <- Hvs, Hrec.
    cbn. rewrite (py_div_nonzero _ h Hh). cbn.
    set (g := ((NV d - Value.val_of hp0 self) / h)%R).
    destruct (IH Hnd (fun l' d' Hin => Hrun l' d' (list_elem_of_further _ _ _ Hin))
                (Value.set_grad hp d g)) as (hp' & E & Hs' & Hin' & Hout').
    { by apply same_graph_set_grad. }
    exists hp'. split; [exact E|]. split; [done|]. split.
    + intros l' d' Hin. apply elem_of_cons in Hin as [[= -> ->]|Hin].
      * rewrite Hout' by done. rewrite grad_of_set_grad by lia.
        by destruct (decide (d = d)).
      * by apply (Hin' l').
    + intros v Hv. rewrite not_elem_of_cons in Hv. destruct Hv as [Hne Hv].
      rewrite Hout' by done. by apply grad_of_set_grad_ne.
Qed.

Lemma descendant_dict_keys (h : Value.heap) (ds : list ref) (k : string) :
  k ∈ (Value.descendant_dict h ds).*1 <->
  exists d, d ∈ ds /\ Value.label_of h d = Some k.
Proof.
  induction ds as [|e ds IH] using rev_ind.
  - unfold Value.descendant_dict. simpl. split; [set_lia|].
    intros (d & Hd & _). by apply elem_of_nil in Hd.
  - rewrite descendant_dict_snoc.
    assert (Hex : (exists d, d ∈ ds ++ [e] /\ Value.label_of h d = Some k) <->
                  (exists d, d ∈ ds /\ Value.label_of h d = Some k) \/
                  Value.label_of h e = Some k).
    { split.
      - intros (d & Hd & Hl). apply elem_of_app in Hd as [Hd|Hd]; [left; eauto|].
        apply list_elem_of_singleton in Hd as ->. by right.
      - intros [(d & Hd & Hl)|Hl]; [exists d | exists e]; set_lia. }
    rewrite Hex, <- IH.
    destruct (Value.label_of h e) as [le|] eqn:Hle.
    + destruct (dict_set_keys le e (Value.descendant_dict h ds)) as [_ ->];
        [apply descendant_dict_NoDup|].
      split; intros [?|?]; auto; [by right; f_equal | left; congruence].
    + split; [auto | by intros [?|?]].
Qed.

Lemma reachable_inv (h : Value.heap) (u n : ref) :
  reachable h u n <-> n = u \/ descendant h u n.
Proof.
  split.
  - intros Hr. destruct Hr as [|u c n Hc Hr]; [by left|].
    right. eapply tc_rtc_r; [by apply tc_once | exact Hr].
  - intros [->|Ht]; [apply rtc_refl | by apply tc_rtc].
Qed.

Lemma labelled_in_heap (h : Value.heap) (d : ref) (l : string) :
  Value.label_of h d = Some l -> d < length h.
Proof.
  intros Hl. destruct (decide (d < length h)); [done|].
  unfold Value.label_of in Hl. rewrite get_ge in Hl by lia. done.
Qed.

(** [naive_backprop] when no two descendants share a label: every labelled
    descendant ends with the quotient of its own run of [recompute], and
    nothing else is written but the root's accumulator. *)
Lemma naive_backprop_spec (limit : nat) (iter : gset ref -> list ref)
    (hp : Value.heap) (rank : ref -> nat) (self : ref) (h : R)
    (NV : ref -> R) :
  acyclic_by rank hp -> rank self < limit -> enumerates iter ->
  labels_distinct hp self -> h <> 0%R ->
  (forall d l, descendant hp self d -> Value.label_of hp d = Some l ->
     Value.recompute limit hp self
       (Some {[ l := (Value.val_of hp d + h)%R ]}) = Ok (NV d)) ->
  exists hp',
    Value.naive_backprop limit iter hp self h = Ok hp' /\
    same_graph hp hp' /\
    (forall d l, descendant hp self d -> Value.label_of hp d = Some l ->
       Value.grad_of hp' d = ((NV d - Value.val_of hp self) / h)%R) /\
    (forall v, (descendant hp self v -> Value.label_of hp v = None) ->
       Value.grad_of hp' v = Value.grad_of (Value.set_grad hp self 1) v).
Proof.
  intros Hacyc Hlim Hiter Huniq Hh Hrun. unfold Value.naive_backprop.
  rewrite (get_descendants_ext _ hp) by (intros i; apply children_of_set_grad).
  destruct (get_descendants_spec hp rank Hacyc true limit self Hlim)
    as (s & E & Hs).
  rewrite E. cbn.
  rewrite (descendant_dict_ext _ hp) by (intros i; apply label_of_set_grad).
  destruct (Hiter s) as [Hnd Hin].
  assert (Hdict : forall l d, (l, d) ∈ Value.descendant_dict hp (iter s) <->
                    descendant hp self d /\ Value.label_of hp d = Some l).
  { intros l d. rewrite descendant_dict_distinct, Hin, Hs; [done | done |].
    intros a b k Ha Hb. apply Huniq; by apply Hs, Hin. }
  destruct (descendant_dict_NoDup hp (iter s)) as [Hkeys Hlab].
  destruct (naive_loop limit hp self h NV (Value.descendant_dict hp (iter s)) Hh)
    with (hp := Value.set_grad hp self 1) as (hp' & E' & Hsame & Hg & Hother).
  - apply (dict_values_NoDup hp); [done|]. intros l d Hld. by apply Hlab.
  - intros l d Hld. apply Hdict in Hld as [Hd Hl].
    split; [by eapply labelled_in_heap | by apply Hrun].
  - apply same_graph_set_grad, same_graph_refl.
  - exists hp'. split; [exact E'|]. split; [done|]. split.
    + intros d l Hd Hl. apply (Hg l). by apply Hdict.
    + intros v Hv. apply Hother. intros Hvin.
      apply list_elem_of_fmap in Hvin as ([l d] & -> & Hld).
      apply Hdict in Hld as [Hd Hl]. simpl in Hv. rewrite (Hv Hd) in Hl. done.
Qed.

(** X11. With no labelled descendant there is nothing to loop over:
    [naive_backprop] sets the root's accumulator to 1 and returns, whatever
    the operations of the graph and whatever the step. *)
Theorem naive_backprop_without_labels (limit : nat)
    (iter : gset ref -> list ref) (hp : Value.heap) (rank : ref -> nat)
    (self : ref) (h : R) :
  acyclic_by rank hp -> rank self < limit -> enumerates iter ->
  (forall d, descendant hp self d -> Value.label_of hp d = None) ->
  Value.naive_backprop limit iter hp self h = Ok (Value.set_grad hp self 1).
Proof.
  intros Hacyc Hlim Hiter Hnone. unfold Value.naive_backprop.
  rewrite (get_descendants_ext _ hp) by (intros i; apply children_of_set_grad).
  destruct (get_descendants_spec hp rank Hacyc true limit self Hlim)
    as (s & E & Hs).
  rewrite E. cbn.
  rewrite (descendant_dict_ext _ hp) by (intros i; apply label_of_set_grad).
  destruct (Hiter s) as [Hnd Hin].
  destruct (Value.descendant_dict hp (iter s)) as [|[l d] dict] eqn:Ed; [done|].
  destruct (descendant_dict_NoDup hp (iter s)) as [_ Hlab].
  destruct (Hlab l d) as [Hd Hl]; [rewrite Ed; left|].
  apply Hin, Hs, Hnone in Hd. congruence.
Qed.

(** X12. With the step 0 and at least one labelled descendant, [naive_backprop]
    never returns: the first quotient divides by zero, unless [recompute]
    has raised before. *)
Theorem naive_backprop_zero_step (limit : nat) (iter : gset ref -> list ref)
    (hp : Value.heap) (rank : ref -> nat) (self d : ref) (l : string) :
  acyclic_by rank hp -> rank self < limit -> enumerates iter ->
  descendant hp self d -> Value.label_of hp d = Some l ->
  exists e, Value.naive_backprop limit iter hp self 0 = Raise e /\
    (e = ZeroDivisionError \/
     exists m, Value.recompute limit (Value.set_grad hp self 1) self m
               = Raise e).
Proof.
  intros Hacyc Hlim Hiter Hd Hl. unfold Value.naive_backprop.
  rewrite (get_descendants_ext _ hp) by (intros i; apply children_of_set_grad).
  destruct (get_descendants_spec hp rank Hacyc true limit self Hlim)
    as (s & E & Hs).
  rewrite E. cbn.
  rewrite (descendant_dict_ext _ hp) by (intros i; apply label_of_set_grad).
  destruct (Hiter s) as [Hnd Hin].
  assert (Hk : l ∈ (Value.descendant_dict hp (iter s)).*1).
  { apply descendant_dict_keys. exists d. split; [by apply Hin, Hs | done]. }
  destruct (Value.descendant_dict hp (iter s)) as [|[l0 d0] dict];
    [by apply elem_of_nil in Hk|].
  simpl.
  destruct (Value.recompute limit _ self _) as [nv|e] eqn:Er; cbn.
  - rewrite py_div_zero. cbn. exists ZeroDivisionError. auto.
  - exists e. split; [done|]. right. eauto.
Qed.

(** [recompute] returns on every graph of leaves, sums and products of two
    different nodes, whatever [mod] is. *)
Lemma recompute_arith_ok (h : Value.heap) (m : option (gmap string R)) :
  well_formed h ->
  forall limit u, u < limit ->
    (forall n, reachable h u n -> arithmetic h n) ->
    exists r, Value.recompute limit h u m = Ok r.
Proof.
  intros Hwf. induction limit as [|limit IH]; intros u Hu Hall; [lia|].
  pose proof (Hwf u) as Hshape. unfold node_shape in Hshape.
  pose proof (Hall u (rtc_refl _ _)) as Hnode. unfold arithmetic in Hnode.
  assert (Hsub : forall c, c < u -> child h u c ->
            exists r, Value.recompute limit h c m = Ok r).
  { intros c Hc Hch. apply IH; [lia|]. intros n Hn. apply Hall.
    eapply rtc_l; [exact Hch | exact Hn]. }
  unfold child in Hsub. simpl.
  destruct (Value.backward_of h u) as [|s o out|s o out| | | | | |]; try done.
  - destruct Hshape as [-> _]. eauto.
  - destruct Hshape as (_ & Hs & Ho & -> & flip & Hc). rewrite Hc in *.
    destruct (Hsub s) as [rs Es]; [done | apply set2_elem; auto|].
    destruct (Hsub o) as [ro Eo]; [done | apply set2_elem; auto|].
    unfold Value.set2. destruct (decide (s = o)); [done|].
    destruct flip; cbn; rewrite Es, Eo; cbn; eauto.
  - destruct Hshape as (_ & Hs & Ho & -> & flip & Hc). rewrite Hc in *.
    destruct (Hsub s) as [rs Es]; [done | apply set2_elem; auto|].
    destruct (Hsub o) as [ro Eo]; [done | apply set2_elem; auto|].
    unfold Value.set2. destruct (decide (s = o)); [done|].
    destruct flip; cbn; rewrite Es, Eo; cbn; eauto.
Qed.

(** On a sigmoid, tanh, relu or exp node whose operand graph is made of
    leaves, sums and products, [recompute] evaluates the operand and then
    returns the operation applied to the node's own value. *)
Lemma recompute_activation (hp : Value.heap) (m : option (gmap string R))
    (limit : nat) (self : ref) :
  well_formed hp -> self < limit ->
  unary_activation (Value.op_of hp self) ->
  (forall n, descendant hp self n -> arithmetic hp n) ->
  Value.recompute limit hp self m = reapplied hp self.
Proof.
  intros Hwf Hlim Hop Harith. destruct limit as [|limit]; [lia|].
  pose proof (Hwf self) as Hshape. unfold node_shape in Hshape.
  assert (Hchild : forall s, s < self -> Value.children_of hp self = [s] ->
            exists r, Value.recompute limit hp s m = Ok r).
  { intros s Hs Hc. apply recompute_arith_ok; [done | lia |].
    intros n Hn. apply Harith. eapply tc_rtc_r; [|exact Hn].
    apply tc_once. unfold child. rewrite Hc. by left. }
  unfold reapplied. simpl.
  destruct Hop as [Ho|[Ho|[Ho|Ho]]]; rewrite Ho in *;
    destruct (Value.backward_of hp self);
    try (destruct Hshape as [? _]; congruence);
    try (destruct Hshape as (_ & _ & _ & ? & _); congruence);
    destruct Hshape as (_ & Hs & _ & Hc);
    destruct (Hchild self0 Hs Hc) as [r Er]; rewrite Hc; cbn;
    rewrite Er; cbn; done.
Qed.

(** The only error of the operation applied again is an overflow. *)
Lemma reapplied_raise (hp : Value.heap) (n : ref) (e : exn) :
  reapplied hp n = Raise e -> e = OverflowError.
Proof.
  unfold reapplied, value.sigmoid, math_exp.
  destruct (Value.op_of hp n) as [[]|]; try done.
  - destruct (range_checked _) as [x|e'] eqn:E; cbn; [done|].
    intros [= <-]. by apply range_checked_raise in E.
  - apply range_checked_raise.
Qed.

(** With a labelled descendant, an error of the first run of [recompute] is
    the outcome of [naive_backprop]. *)
Lemma naive_backprop_raises (limit : nat) (iter : gset ref -> list ref)
    (hp : Value.heap) (rank : ref -> nat) (self : ref) (h : R) (e : exn) :
  acyclic_by rank hp -> rank self < limit -> enumerates iter ->
  (exists d l, descendant hp self d /\ Value.label_of hp d = Some l) ->
  (forall m, Value.recompute limit hp self m = Raise e) ->
  Value.naive_backprop limit iter hp self h = Raise e.
Proof.
  intros Hacyc Hlim Hiter (d & l & Hd & Hl) Hrec. unfold Value.naive_backprop.
  rewrite (get_descendants_ext _ hp) by (intros i; apply children_of_set_grad).
  destruct (get_descendants_spec hp rank Hacyc true limit self Hlim)
    as (s & E & Hs).
  rewrite E. cbn.
  rewrite (descendant_dict_ext _ hp) by (intros i; apply label_of_set_grad).
  destruct (Hiter s) as [Hnd Hin].
  assert (Hk : l ∈ (Value.descendant_dict hp (iter s)).*1).
  { apply descendant_dict_keys. exists d. split; [by apply Hin, Hs | done]. }
  destruct (Value.descendant_dict hp (iter s)) as [|[l0 d0] dict];
    [by apply elem_of_nil in Hk|].
  simpl.
  rewrite <- (recompute_ext hp (Value.set_grad hp self 1))
    by apply same_graph_set_grad, same_graph_refl.
  by rewrite Hrec.
Qed.

(** X13. When the root is a sigmoid, tanh, relu or exp node, [recompute] applies
    the operation to the root's own value and does not use the recomputed
    operand, so the perturbation of a descendant never reaches the result.
    When the operation applied once more to the root's value is within the
    float range, [naive_backprop] returns and gives every labelled
    descendant the same number: that result minus the root's value, over
    the step.  When it is not (the only error is the OverflowError of
    [math.exp], in a sigmoid or an exp root) and there is a labelled
    descendant, [naive_backprop] raises OverflowError. *)
Theorem naive_backprop_activation_root (limit : nat)
    (iter : gset ref -> list ref) (hp : Value.heap) (self : ref) (h : R) :
  well_formed hp -> self < limit -> enumerates iter ->
  labels_distinct hp self -> h <> 0%R ->
  unary_activation (Value.op_of hp self) ->
  (forall n, descendant hp self n -> arithmetic hp n) ->
  match reapplied hp self with
  | Ok r =>
      exists hp',
        Value.naive_backprop limit iter hp self h = Ok hp' /\
        forall d l, descendant hp self d -> Value.label_of hp d = Some l ->
          Value.grad_of hp' d = ((r - Value.val_of hp self) / h)%R
  | Raise e =>
      e = OverflowError /\
      ((exists d l, descendant hp self d /\ Value.label_of hp d = Some l) ->
       Value.naive_backprop limit iter hp self h = Raise OverflowError)
  end.
Proof.
  intros Hwf Hlim Hiter Huniq Hh Hop Harith.
  pose proof (fun m => recompute_activation hp m limit self Hwf Hlim Hop Harith)
    as Hrec.
  destruct (reapplied hp self) as [r|e] eqn:Er.
  - destruct (naive_backprop_spec limit iter hp (fun r => r) self h
                (fun _ => r)) as (hp' & E & _ & Hg & _);
      try done; [by apply well_formed_acyclic | by exists hp'].
  - apply reapplied_raise in Er as ->. split; [done|]. intros Hex.
    apply (naive_backprop_raises limit iter hp (fun r => r)); try done.
    by apply well_formed_acyclic.
Qed.

(** X14. On a graph of leaves, sums and products of two different nodes, all
    holding the values their builders computed and no two descendants
    sharing a label, [naive_backprop] with a step [h] other than 0 returns;
    it leaves 1 at the root, at every labelled leaf the difference quotient
    of the graph's forward function over the step, at every labelled node
    that is not a leaf 0 (the perturbation of such a node is ignored), and
    the accumulators of unlabelled descendants as they were. *)
Theorem naive_backprop_difference_quotient (limit : nat)
    (iter : gset ref -> list ref) (hp : Value.heap) (self : ref) (h : R) :
  well_formed hp -> self < limit -> self < length hp -> enumerates iter ->
  labels_distinct hp self -> h <> 0%R ->
  (forall n, reachable hp self n -> arithmetic hp n /\ node_value hp n) ->
  exists hp',
    Value.naive_backprop limit iter hp self h = Ok hp' /\
    Value.grad_of hp' self = 1%R /\
    (forall d l, descendant hp self d -> Value.label_of hp d = Some l ->
       Value.grad_of hp' d
       = match Value.backward_of hp d with
         | bw_default =>
             ((forward hp self d (Value.val_of hp d + h)
               - forward hp self d (Value.val_of hp d)) / h)%R
         | _ => 0%R
         end) /\
    (forall d, descendant hp self d -> Value.label_of hp d = None ->
       Value.grad_of hp' d = Value.grad_of hp d).
Proof.
  intros Hwf Hlim Hlen Hiter Huniq Hh Hall.
  pose proof (well_formed_acyclic hp Hwf) as Hacyc.
  assert (Hself : ~ descendant hp self self).
  { intros Ht. assert (forall a b, descendant hp a b -> b < a) as Hlt.
    { induction 1 as [a b Hc|a b c Hc _ IH];
        [apply (Hacyc a b Hc) | pose proof (Hacyc a b Hc); simpl in *; lia]. }
    specialize (Hlt _ _ Ht). lia. }
  assert (Hleaf_label : forall d l n, descendant hp self d ->
            Value.label_of hp d = Some l -> reachable hp self n ->
            Value.label_of hp n = Some l ->
            Value.backward_of hp n = bw_default -> n = d).
  { intros d l n Hd Hl Hn Hln Hbn. apply reachable_inv in Hn as [->|Hn].
    - exfalso. pose proof (Hwf self) as Hshape. unfold node_shape in Hshape.
      rewrite Hbn in Hshape. destruct Hshape as [_ Hc].
      apply descendant_inv in Hd as (c & Hch & _). unfold child in Hch.
      rewrite Hc in Hch. by apply elem_of_nil in Hch.
    - by apply (Huniq n d l). }
  destruct (naive_backprop_spec limit iter hp (fun r => r) self h
    (fun d => match Value.backward_of hp d with
              | bw_default => forward hp self d (Value.val_of hp d + h)
              | _ => Value.val_of hp self
              end)) as (hp' & E & _ & Hg & Hother); try done.
  - intros d l Hd Hl.
    destruct (Value.backward_of hp d) eqn:Hb.
    1: { apply recompute_leaf_forward; try done.
         - intros n Hn. by apply Hall.
         - intros n Hn Hbn Hln. by apply (Hleaf_label d l). }
    all: apply (recompute_arith hp _ (Value.val_of hp) Hwf limit self Hlim);
      intros n Hn; destruct (Hall n Hn) as [Ha Hv];
      unfold arithmetic in Ha; unfold node_value in Hv;
      destruct (Value.backward_of hp n) eqn:Hbn; try done;
      unfold new_val;
      destruct (Value.label_of hp n) as [l'|] eqn:Hl'; try done;
      (destruct (decide (l' = l)) as [->|Hll];
       [pose proof (Hleaf_label d l n Hd Hl Hn Hl' Hbn); congruence
       | by rewrite lookup_singleton_ne]).
  - exists hp'. split; [exact E|]. split; [|split].
    + rewrite Hother by (intros Ht; by destruct Hself).
      rewrite grad_of_set_grad by done. by destruct (decide (self = self)).
    + intros d l Hd Hl. rewrite (Hg d l Hd Hl).
      destruct (Value.backward_of hp d) eqn:Hb.
      1: { rewrite (forward_current hp Hwf d self); [done|].
           intros n Hn. by apply Hall. }
      all: unfold Rdiv; replace (Value.val_of hp self - Value.val_of hp self)%R
             with 0%R by lra; apply Rmult_0_l.
    + intros d Hd Hl. rewrite Hother by done.
      apply grad_of_set_grad_ne. intros ->. by apply Hself.
Qed.
(** * [utils.py] *)

Lemma flatten_fold {T : Type} (xs : list (list T)) (acc : list T) :
  foldl (fun acc x => acc ++ x) acc xs = acc ++ concat xs.
Proof.
  revert acc. induction xs as [|x xs IH]; intros acc; simpl.
  - by rewrite app_nil_r.
  - by rewrite IH, app_assoc.
Qed.

Lemma flatten_concat {T : Type} (xs : list (list T)) :
  utils.flatten xs = concat xs.
Proof. unfold utils.flatten. by rewrite flatten_fold. Qed.

(** X23. [flatten] is concatenation: the elements of the lists, lists in order
    and elements in order within each list; nothing is dropped, repeated or
    reordered, and the empty list of lists gives the empty list. *)
Theorem flatten_is_concat {T : Type} (xs : list (list T)) :
  utils.flatten xs = concat xs /\
  length (utils.flatten xs) = sum_list (length <$> xs) /\
  (forall x, x ∈ utils.flatten xs <-> exists l, l ∈ xs /\ x ∈ l) /\
  (forall ys, utils.flatten (xs ++ ys) = utils.flatten xs ++ utils.flatten ys).
Proof.
  rewrite flatten_concat. split; [done|]. split; [|split].
  - induction xs as [|x xs IH]; simpl; [done|]. by rewrite length_app, IH.
  - intros x. induction xs as [|a xs IH]; simpl.
    + split; [set_lia | intros (l & Hl & _); by apply elem_of_nil in Hl].
    + rewrite elem_of_app, IH. split.
      * intros [H|(l & Hl & Hx)];
          [exists a; split; [left | done] | exists l; split; [by right | done]].
      * intros (l & Hl & Hx). apply elem_of_cons in Hl as [->|Hl];
          [by left | right; eauto].
  - intros ys. by rewrite !flatten_concat, concat_app.
Qed.

(** X24. [deriv] adds the absolute values of the forward and of the backward
    difference, so the sign of the slope is lost: with a step above 0 it
    returns a number that is never negative, and for a function
    [a * x + b] it returns [|a|]. *)
Theorem deriv_is_unsigned (f : R -> R) (hp : Value.heap) (x : ref + R)
    (h : R) :
  (0 < h)%R ->
  exists d, utils.deriv f hp x h = Ok d /\ (0 <= d)%R /\
    forall a b, (forall t, f t = a * t + b)%R -> d = Rabs a.
Proof.
  intros Hh. unfold utils.deriv.
  set (x0 := match x with inl r => Value.val_of hp r | inr x1 => x1 end).
  rewrite py_div_nonzero by lra.
  eexists. split; [done|]. split.
  - apply Rmult_le_pos; [|left; apply Rinv_0_lt_compat; lra].
    pose proof (Rabs_pos (f x0 - f (x0 + h))%R).
    pose proof (Rabs_pos (f x0 - f (x0 - h))%R). lra.
  - intros a b Hf. rewrite !Hf.
    replace (a * x0 + b - (a * (x0 + h) + b))%R with (- (a * h))%R by lra.
    replace (a * x0 + b - (a * (x0 - h) + b))%R with (a * h)%R by lra.
    rewrite Rabs_Ropp, Rabs_mult, (Rabs_right h) by lra. field. lra.
Qed.

(** X25. With the step 0 [deriv] divides by zero, whatever the function and the
    point; given a node, it differentiates at the node's value. *)
Theorem deriv_zero_step (f : R -> R) (hp : Value.heap) (x : ref + R) (h : R) :
  utils.deriv f hp x 0 = Raise ZeroDivisionError /\
  forall r, utils.deriv f hp (inl r) h
            = utils.deriv f hp (inr (Value.val_of hp r)) h.
Proof.
  split; [|done]. unfold utils.deriv.
  replace (2 * 0)%R with 0%R by lra. apply py_div_zero.
Qed.
(** * The network *)

(** ** What the constructors allocate *)

Lemma draws_app (rng : nat -> R) (k n m : nat) :
  draws rng k (n + m) = draws rng k n ++ draws rng (k + n) m.
Proof.
  unfold draws. rewrite seq_app, fmap_app. f_equal. simpl.
  replace (seq n m) with ((fun x => n + x) <$> seq 0 m)
    by (rewrite fmap_add_seq; f_equal; lia).
  rewrite <- list_fmap_compose.
  apply list_fmap_ext. intros _ i _. simpl. by rewrite Nat.add_assoc.
Qed.

Lemma length_draws (rng : nat -> R) (k n : nat) : length (draws rng k n) = n.
Proof. unfold draws. by rewrite length_fmap, length_seq. Qed.

Lemma allocates_nil (rng : nat -> R) (st : world) : allocates rng 0 st st [].
Proof.
  unfold allocates, draws. simpl. rewrite app_nil_r.
  split; [done|]. split; [lia | done].
Qed.

Lemma allocates_app (rng : nat -> R) (c1 c2 : nat) (st1 st2 st3 : world)
    (ps qs : list ref) :
  allocates rng c1 st1 st2 ps -> allocates rng c2 st2 st3 qs ->
  allocates rng (c1 + c2) st1 st3 (ps ++ qs).
Proof.
  intros (H1 & K1 & ->) (H2 & K2 & ->). unfold allocates.
  rewrite H2, H1, K1, draws_app, <- app_assoc. split; [done|].
  split; [lia|]. rewrite seq_app, length_app, length_draws. done.
Qed.

Lemma random_value_allocates (rng : nat -> R) (st : world) :
  allocates rng 1 st (random_value rng st).1 [(random_value rng st).2].
Proof.
  unfold allocates, random_value, draws. simpl. rewrite Nat.add_0_r.
  split; [done|]. split; [lia | done].
Qed.

Lemma comprehension_allocates {A} (rng : nat -> R) (c : nat)
    (f : world -> world * A) (params : A -> list ref) :
  (forall st, allocates rng c st (f st).1 (params (f st).2)) ->
  forall n st,
    allocates rng (n * c) st (comprehension f st n).1
      (concat (map params (comprehension f st n).2)).
Proof.
  intros Hf n. induction n as [|n IH]; intros st; simpl.
  - apply allocates_nil.
  - eapply allocates_app; [apply Hf | apply IH].
Qed.

Lemma comprehension_length {A} (f : world -> world * A) (st : world)
    (n : nat) :
  length (comprehension f st n).2 = n.
Proof. revert st. induction n as [|n IH]; intros st; simpl; [done|]. by rewrite IH. Qed.

Lemma concat_singletons (l : list ref) : concat (map (fun r => [r]) l) = l.
Proof. induction l as [|x l IH]; simpl; [done | by rewrite IH]. Qed.

Lemma Neuron_init_allocates (rng : nat -> R) (st : world) (n_in : nat) :
  allocates rng (n_in + 1) st (Neuron.__init__ rng st n_in).1
    (Neuron.parameters (Neuron.__init__ rng st n_in).2).
Proof.
  unfold Neuron.__init__, Neuron.parameters. simpl.
  eapply allocates_app; [|apply random_value_allocates].
  pose proof (comprehension_allocates rng 1 (random_value rng) (fun r => [r])
                (random_value_allocates rng) n_in st) as H.
  by rewrite concat_singletons, Nat.mul_1_r in H.
Qed.

Lemma Layer_init_allocates (rng : nat -> R) (st : world) (d_in d_out : nat) :
  allocates rng (d_out * (d_in + 1)) st (Layer.__init__ rng st d_in d_out).1
    (Layer.parameters (Layer.__init__ rng st d_in d_out).2).
Proof.
  unfold Layer.__init__, Layer.parameters. simpl.
  apply (comprehension_allocates rng _ _ Neuron.parameters).
  intros st'. apply Neuron_init_allocates.
Qed.

Lemma MLP_init_allocates (rng : nat -> R) (st : world)
    (d_in d_hidden n_hidden d_out : nat) :
  allocates rng (parameter_count d_in d_hidden n_hidden d_out) st
    (MLP.__init__ rng st d_in d_hidden n_hidden d_out).1
    (MLP.parameters (MLP.__init__ rng st d_in d_hidden n_hidden d_out).2).
Proof.
  unfold MLP.__init__, MLP.parameters, MLP.layers, parameter_count. simpl.
  rewrite map_app, concat_app. simpl. rewrite app_nil_r.
  rewrite <- Nat.add_assoc.
  eapply allocates_app; [apply Layer_init_allocates|].
  eapply allocates_app; [|apply Layer_init_allocates].
  apply (comprehension_allocates rng _ _ Layer.parameters).
  intros st'. apply Layer_init_allocates.
Qed.

(** X15. [MLP(d_in, d_hidden, n_hidden, d_out)] has
    [d_hidden * (d_in + 1) + n_hidden * d_hidden * (d_hidden + 1)
     + d_out * (d_hidden + 1)] parameters.  The constructor draws that many
    random numbers, stores each in a fresh leaf in the order drawn, and
    [parameters] lists exactly these leaves in that order: the [i]-th
    parameter holds the [i]-th draw, with gradient 0; nothing else is
    allocated and no existing node is changed. *)
Theorem MLP_init_parameter_count (rng : nat -> R) (h : Value.heap) (k : nat)
    (d_in d_hidden n_hidden d_out : nat) :
  let r := MLP.__init__ rng (h, k) d_in d_hidden n_hidden d_out in
  let n := parameter_count d_in d_hidden n_hidden d_out in
  length (MLP.parameters r.2) = n /\
  MLP.parameters r.2 = seq (length h) n /\
  frame n h r.1.1 /\
  r.1.2 = k + n /\
  forall i, i < n ->
    Value.val_of r.1.1 (length h + i) = rng (k + i) /\
    Value.grad_of r.1.1 (length h + i) = 0%R /\
    Value.children_of r.1.1 (length h + i) = [] /\
    Value.op_of r.1.1 (length h + i) = None.
Proof.
  intros r n. subst r n.
  destruct (MLP_init_allocates rng (h, k) d_in d_hidden n_hidden d_out)
    as (Hh & Hk & Hp).
  simpl in *. rewrite Hp, Hh, Hk, length_seq.
  split; [done|]. split; [done|]. split; [|split; [done|]].
  - split; [|by rewrite length_app, length_draws].
    intros i Hi. by rewrite lookup_app_l.
  - intros i Hi.
    unfold Value.val_of, Value.grad_of, Value.children_of, Value.op_of, Value.get.
    rewrite lookup_app_r by lia.
    replace (length h + i - length h) with i by lia.
    unfold draws. rewrite list_lookup_fmap, lookup_seq_lt by done. simpl.
    by split_and!.
Qed.

(** ** [zero_grad] and stale gradients *)

Lemma grad_of_set_grad_same (h : Value.heap) (r : ref) :
  Value.grad_of (Value.set_grad h r 0) r = 0%R.
Proof.
  destruct (decide (r < length h)).
  - rewrite grad_of_set_grad by done. by destruct (decide (r = r)).
  - unfold Value.grad_of. apply get_ge. rewrite length_set_grad. lia.
Qed.

Lemma zero_grad_fold (ps : list ref) (h : Value.heap) :
  let h' := foldl (fun h p => Value.set_grad h p 0) h ps in
  same_graph h h' /\
  (forall p, p ∈ ps -> Value.grad_of h' p = 0%R) /\
  (forall i, i ∉ ps -> Value.grad_of h' i = Value.grad_of h i).
Proof.
  revert h. induction ps as [|p ps IH]; intros h; simpl.
  - split; [apply same_graph_refl|]. split; [set_lia | done].
  - destruct (IH (Value.set_grad h p 0)) as (Hs & Hz & Ho).
    split; [|split].
    + eapply same_graph_trans; [|exact Hs].
      apply same_graph_set_grad, same_graph_refl.
    + intros q Hq. destruct (decide (q ∈ ps)) as [Hin|Hout]; [by apply Hz|].
      apply elem_of_cons in Hq as [->|Hq]; [|done].
      rewrite Ho by done. apply grad_of_set_grad_same.
    + intros i Hi. rewrite not_elem_of_cons in Hi. destruct Hi as [Hne Hi].
      rewrite Ho by done. by apply grad_of_set_grad_ne.
Qed.

(** X16. [zero_grad] sets the accumulator of every parameter to 0, leaves the
    accumulator of every other node as it was (also the nodes of a loss
    graph built on the parameters), and changes nothing else. *)
Theorem zero_grad_clears_parameters_only (self : MLP.t) (h : Value.heap) :
  let h' := MLP.zero_grad self h in
  same_graph h h' /\
  (forall p, p ∈ MLP.parameters self -> Value.grad_of h' p = 0%R) /\
  (forall i, i ∉ MLP.parameters self -> Value.grad_of h' i = Value.grad_of h i).
Proof. apply zero_grad_fold. Qed.

Lemma chain_leaf (h : Value.heap) (u v : ref) :
  Value.backward_of h u = bw_default -> chain h u v = 0%R.
Proof. intros Hb. unfold chain, partials. by rewrite Hb. Qed.

(** [backprop] on a graph whose interior nodes have accumulator 0, as a
    freshly built graph has, while its leaves may hold anything. *)
Lemma backprop_stale_leaves (h : Value.heap) (root : ref) (limit : nat) :
  well_formed h ->
  root < limit ->
  root < length h ->
  (forall n, reachable h root n -> admissible h n) ->
  (forall n, reachable h root n -> n <> root ->
     Value.backward_of h n <> bw_default -> Value.grad_of h n = 0%R) ->
  exists h',
    Value.backprop limit h root = Ok h' /\
    same_graph h h' /\
    Value.grad_of h' root = 1%R /\
    forall v, reachable h root v -> v <> root ->
      Value.grad_of h' v
      = (Value.grad_of h v + total_derivative h root v)%R.
Proof.
  intros Hwf Hlim Hroot Hadm Hzero.
  destruct (backprop_spec h (fun r => r) root limit Hwf
              (well_formed_acyclic h Hwf) Hlim Hroot Hadm)
    as (h' & nodes & E & Hsame & Hnd & Hin & Hgrad).
  assert (Hsum : forall v,
    sumR ((fun u => Value.grad_of (Value.set_grad h root 1) u * chain h u v)%R
            <$> nodes) = chain h root v).
  { intros v.
    rewrite (sumR_fmap_ext _
      (fun u => (if decide (root = u) then 1 else 0) * chain h u v)%R).
    - rewrite (sumR_pick nodes root 1 (fun u => chain h u v) Hnd)
        by (apply Hin, rtc_refl). lra.
    - intros u Hu. rewrite grad_of_set_grad by done.
      destruct (decide (u = root)) as [->|Hne].
      + by destruct (decide (root = root)).
      + destruct (decide (root = u)); [done|]. apply Hin in Hu.
        assert (Value.backward_of h u = bw_default \/
                Value.backward_of h u <> bw_default) as [Hb|Hb]
          by (destruct (Value.backward_of h u); (by left) || (by right)).
        * rewrite (chain_leaf h u v Hb). lra.
        * rewrite (Hzero u Hu Hne Hb). lra. }
  exists h'. split; [done|]. split; [done|]. split.
  - rewrite Hgrad, Hsum, grad_of_set_grad by done.
    destruct (decide (root = root)); [|done].
    pose proof (total_derivative_self h Hwf root) as Hself.
    rewrite (total_derivative_unfold h Hwf) in Hself. unfold delta in Hself.
    destruct (decide (root = root)); [lra | done].
  - intros v Hv Hne. rewrite Hgrad, Hsum, grad_of_set_grad by done.
    destruct (decide (v = root)); [done|].
    rewrite (total_derivative_unfold h Hwf). unfold delta.
    destruct (decide (root = v)); [congruence | lra].
Qed.

(** X17. [backprop] adds to what the accumulators hold.  Take a well-formed
    graph whose reachable nodes are leaves or accumulating operations
    holding the values their builders computed, in which the backward rule
    of every reachable power node [x ** k] evaluates a power
    [x.val ** (k - 1)] that is a float (neither ZeroDivisionError nor
    OverflowError), and whose interior accumulators are at 0, as on a
    freshly built graph, while its leaves may still hold gradients from
    earlier calls.  Then [backprop] returns, and every reachable node other
    than the root ends with what it held before plus the total derivative
    of the root with respect to it: without [zero_grad] between two
    training steps, the parameters carry the sum of the gradients of both
    losses. *)
Theorem backprop_adds_to_stale_leaves (h : Value.heap) (root : ref)
    (limit : nat) :
  well_formed h ->
  root < limit ->
  root < length h ->
  (forall n, reachable h root n -> admissible h n) ->
  (forall n, reachable h root n -> n <> root ->
     Value.backward_of h n <> bw_default -> Value.grad_of h n = 0%R) ->
  exists h',
    Value.backprop limit h root = Ok h' /\
    forall v, reachable h root v -> v <> root ->
      Value.grad_of h' v
      = (Value.grad_of h v + total_derivative h root v)%R.
Proof.
  intros Hwf Hlim Hroot Hadm Hzero.
  destruct (backprop_stale_leaves h root limit Hwf Hlim Hroot Hadm Hzero)
    as (h' & E & _ & _ & Hg).
  by exists h'.
Qed.

(** X18. [zero_grad] followed by [backprop] on a well-formed loss graph whose
    reachable nodes are leaves or accumulating operations holding the
    values their builders computed, in which the backward rule of every
    reachable power node [x ** k] evaluates a power [x.val ** (k - 1)] that
    is a float (neither ZeroDivisionError nor OverflowError), and whose
    interior accumulators are at 0: [backprop] returns, and every parameter
    the loss depends on ends with exactly the total derivative of the loss
    with respect to it, whatever the parameters held before. *)
Theorem zero_grad_then_backprop (self : MLP.t) (h : Value.heap) (loss : ref)
    (limit : nat) :
  well_formed h ->
  loss < limit ->
  loss < length h ->
  (forall n, reachable h loss n -> admissible h n) ->
  (forall n, reachable h loss n -> n <> loss ->
     Value.backward_of h n <> bw_default -> Value.grad_of h n = 0%R) ->
  exists h',
    Value.backprop limit (MLP.zero_grad self h) loss = Ok h' /\
    forall p, p ∈ MLP.parameters self -> reachable h loss p ->
      Value.grad_of h' p = total_derivative h loss p.
Proof.
  intros Hwf Hlim Hloss Hadm Hzero.
  destruct (zero_grad_fold (MLP.parameters self) h) as (Hsame & Hz & Ho).
  fold (MLP.zero_grad self h) in Hsame, Hz, Ho.
  set (h0 := MLP.zero_grad self h) in *.
  pose proof Hsame as [Hlen Hattr].
  destruct (backprop_stale_leaves h0 loss limit) as (h' & E & _ & Hroot & Hg).
  - by apply (same_graph_well_formed h).
  - done.
  - by rewrite <- Hlen.
  - intros n Hn. apply (same_graph_admissible h h0 Hsame), Hadm.
    by apply (same_graph_reachable h h0 Hsame).
  - intros n Hn Hne Hb. apply (same_graph_reachable h h0 Hsame) in Hn.
    destruct (Hattr n) as (_ & _ & _ & _ & Hbn). rewrite <- Hbn in Hb.
    destruct (decide (n ∈ MLP.parameters self)) as [Hp|Hp]; [by apply Hz|].
    rewrite Ho by done. by apply Hzero.
  - exists h'. split; [done|]. intros p Hp Hr.
    rewrite <- (same_graph_total_derivative h h0 Hsame).
    destruct (decide (p = loss)) as [->|Hne].
    + rewrite Hroot. symmetry. apply total_derivative_self.
      by apply (same_graph_well_formed h).
    + rewrite Hg, Hz by (done || by apply (same_graph_reachable h h0 Hsame)).
      lra.
Qed.

(** ** The forward pass *)

Lemma neuron_sum (order : ref -> ref -> bool) (h0 : Value.heap)
    (wxs : list (ref * ref)) :
  (forall w x, (w, x) ∈ wxs -> w < length h0 /\ x < length h0) ->
  forall (k : nat) (h : Value.heap) (total : ref),
    frame k h0 h -> total < length h ->
    let r :=
      foldl (fun '(h, total) '(w, x) =>
               let '(h, wx) := mul order h w (inl x) in
               add order h total (inl wx))
            (h, total) wxs in
    frame (2 * length wxs) h r.1 /\
    r.2 < length r.1 /\
    (wxs <> [] -> r.2 = length h + 2 * length wxs - 1) /\
    Value.val_of r.1 r.2
    = foldl (fun acc '(w, x) =>
               (acc + Value.val_of h0 w * Value.val_of h0 x)%R)
            (Value.val_of h total) wxs.
Proof.
  induction wxs as [|[w x] wxs IH]; intros Hin k h total Hf Ht;
    cbn [foldl length].
  - simpl. split; [apply frame_refl|]. by split_and!.
  - assert (Hw : w < length h0 /\ x < length h0) by (apply Hin; left).
    destruct Hw as [Hw Hx]. pose proof Hf as [_ Hlen].
    destruct (mul_node_spec (order w x) h w x) as (h1 & Em & Hf1 & Hv1);
      [lia | lia |].
    change (mul order h w (inl x))
      with (Value.__mul__ (order w x) h w (inl x)).
    rewrite Em. pose proof Hf1 as [_ Hlen1].
    destruct (add_node_spec (order total (length h)) h1 total (length h))
      as (h2 & Ea & Hf2 & Hv2); [lia | lia |].
    change (add order h1 total (inl (length h)))
      with (Value.__add__ (order total (length h)) h1 total (inl (length h))).
    rewrite Ea. pose proof Hf2 as [_ Hlen2].
    destruct (IH (fun w' x' H' => Hin w' x' (list_elem_of_further _ _ _ H'))
                (k + 1 + 1) h2 (length h1))
      as (Hf3 & Hlt & Hlast & Hval).
    { eapply frame_trans; [eapply frame_trans; [exact Hf | exact Hf1] | exact Hf2]. }
    { lia. }
    split_and!.
    + replace (2 * S (length wxs)) with ((1 + 1) + 2 * length wxs) by lia.
      eapply frame_trans; [eapply frame_trans; [exact Hf1 | exact Hf2] | exact Hf3].
    + done.
    + intros _. destruct wxs as [|wx wxs]; [simpl; lia|].
      rewrite Hlast by done. simpl in *. lia.
    + rewrite Hval, Hv2, Hv1. f_equal. unfold Value.val_of.
      by rewrite (get_frame _ _ 1 h h1 total Hf1 Ht),
        (get_frame _ _ k h0 h w Hf Hw), (get_frame _ _ k h0 h x Hf Hx).
Qed.

Lemma Neuron_call_spec (order : ref -> ref -> bool) (h : Value.heap)
    (self : Neuron.t) (xs : list ref) :
  (forall w, w ∈ Neuron.w self -> w < length h) ->
  Neuron.b self < length h ->
  (forall x, x ∈ xs -> x < length h) ->
  let r := Neuron.__call__ order h self xs in
  let n := length (Neuron.w self) `min` length xs in
  r.2 = length h + 2 * n /\
  frame (2 * n + 1) h r.1 /\
  out_val r
  = math_tanh (weighted_sum h (Neuron.b self) (zip (Neuron.w self) xs)).
Proof.
  intros Hw Hb Hx r n. subst r n. unfold Neuron.__call__, out_val.
  rewrite <- (length_zip (Neuron.w self) xs).
  destruct (neuron_sum order h (zip (Neuron.w self) xs)) with
    (k := 0) (h := h) (total := Neuron.b self) as (Hf & Hlt & Hlast & Hval);
    [|apply frame_refl|done|].
  { intros w x Hin. apply elem_of_zip_l in Hin as Hl.
    apply elem_of_zip_r in Hin as Hr. auto. }
  destruct (foldl _ _ _) as [h1 total]. cbn [fst snd] in *.
  destruct (tanh_spec h1 total) as (h2 & -> & Hf2 & Hv2). cbn [fst snd].
  pose proof Hf as [_ Hlen].
  split; [lia|]. split; [by eapply frame_trans|].
  rewrite Hv2, Hval. done.
Qed.

(** X19. A neuron called on inputs [xs] makes two nodes for each pair of a weight
    and an input ([zip] stops at the shorter list, with no check of the
    lengths) and one for the activation; the node it returns is the last one
    made and holds the hyperbolic tangent of the bias plus the products of
    the paired weights and inputs.  No existing node is changed. *)
Theorem Neuron_call_value (order : ref -> ref -> bool) (h : Value.heap)
    (self : Neuron.t) (xs : list ref) :
  (forall w, w ∈ Neuron.w self -> w < length h) ->
  Neuron.b self < length h ->
  (forall x, x ∈ xs -> x < length h) ->
  let r := Neuron.__call__ order h self xs in
  let n := length (Neuron.w self) `min` length xs in
  r.2 = length h + 2 * n /\
  frame (2 * n + 1) h r.1 /\
  out_val r
  = math_tanh (weighted_sum h (Neuron.b self) (zip (Neuron.w self) xs)).
Proof. apply Neuron_call_spec. Qed.


Lemma for_each_length {A B : Type} (f : Value.heap -> A -> Value.heap * B)
    (h : Value.heap) (l : list A) :
  length (for_each f h l).2 = length l.
Proof. revert h. induction l as [|a l IH]; intros h; simpl; [done|]. by rewrite IH. Qed.

Lemma for_each_Forall {A B : Type} (f : Value.heap -> A -> Value.heap * B)
    (P : B -> Prop) (l : list A) :
  (forall h a, P (f h a).2) -> forall h, Forall P (for_each f h l).2.
Proof.
  intros Hf. induction l as [|a l IH]; intros h; simpl; constructor; auto.
Qed.

Lemma MLP_call_length (order : ref -> ref -> bool) (h : Value.heap)
    (self : MLP.t) (xs : list ref) :
  length (MLP.__call__ order h self xs).2
  = length (Layer.neurons (MLP.layer_out self)).
Proof.
  unfold MLP.__call__, MLP.layers. cbn [foldl]. rewrite foldl_app. cbn [foldl].
  destruct (foldl _ _ _) as [h' xs']. apply for_each_length.
Qed.

Lemma concat_length_uniform {T : Type} (d : nat) (xs : list (list T)) :
  Forall (fun l => length l = d) xs -> length (concat xs) = length xs * d.
Proof.
  induction 1 as [|x xs Hx _ IH]; simpl; [done|]. by rewrite length_app, Hx, IH.
Qed.

(** X21. A network made by [MLP(d_in, d_hidden, n_hidden, d_out)] returns [d_out]
    outputs for every list of inputs, whatever its length: an input of the
    wrong size is not refused.  [batch_call] returns one such list per batch,
    and [flatten] of its result has [d_out] entries per batch. *)
Theorem MLP_output_length (rng : nat -> R) (st : world)
    (d_in d_hidden n_hidden d_out : nat) (order : ref -> ref -> bool)
    (h : Value.heap) :
  let net := (MLP.__init__ rng st d_in d_hidden n_hidden d_out).2 in
  (forall xs, length (MLP.__call__ order h net xs).2 = d_out) /\
  (forall xss, length (MLP.batch_call order h net xss).2 = length xss) /\
  (forall xss,
     length (utils.flatten (MLP.batch_call order h net xss).2)
     = length xss * d_out).
Proof.
  intros net.
  assert (Hcall : forall h' xs, length (MLP.__call__ order h' net xs).2 = d_out).
  { intros h' xs. rewrite MLP_call_length. subst net.
    unfold MLP.__init__, Layer.__init__. simpl. apply comprehension_length. }
  split; [apply Hcall|]. split.
  - intros xss. apply for_each_length.
  - intros xss. rewrite flatten_concat.
    rewrite (concat_length_uniform d_out).
    + unfold MLP.batch_call. by rewrite for_each_length.
    + apply (for_each_Forall _ (fun l => length l = d_out)). apply Hcall.
Qed.

(** ** The loss *)

Lemma square_swap (a b : R) : ((a - b) * (a - b) = (b - a) ^ 2)%R.
Proof. simpl. lra. Qed.

Lemma square_abs (a b : R) : Rabs ((a - b) * (a - b)) = ((b - a) ^ 2)%R.
Proof.
  rewrite Rabs_right; [apply square_swap|].
  apply Rle_ge, (Rle_0_sqr (a - b)).
Qed.

Lemma squared_error_cons (h : Value.heap) (y : R) (p : ref)
    (pairs : list (R * ref)) :
  squared_error h ((y, p) :: pairs)
  = ((y - Value.val_of h p) ^ 2 + squared_error h pairs)%R.
Proof. done. Qed.

(** The terms after the first: the running total is a node. *)
Lemma loss_sum (order : ref -> ref -> bool) (h0 : Value.heap)
    (pairs : list (R * ref)) :
  (forall y p, (y, p) ∈ pairs -> p < length h0) ->
  (forall y p, (y, p) ∈ pairs ->
     ((y - Value.val_of h0 p) ^ 2 <= float_max)%R) ->
  forall (k : nat) (h : Value.heap) (total : ref),
    frame k h0 h -> total < length h ->
    exists h' total',
      foldM (fun '(h, total) '(y, pred) =>
               let '(h, diff) :=
                 Value.__rsub__ (order pred (length h), order pred (length h))
                   h pred (inr y) in
               '(h, term) ← Value.__pow__ h diff 2;
               let '(h, total) :=
                 match total with
                 | inr n =>
                     Value.__radd__ (order term (length h)) h term (inr n)
                 | inl total => add order h total (inl term)
                 end in
               Ok (h, inl total))
            (h, inl total) pairs = Ok (h', inl total') /\
      frame (4 * length pairs) h h' /\
      total' < length h' /\
      (pairs <> [] -> S total' = length h') /\
      Value.val_of h' total'
      = (Value.val_of h total + squared_error h0 pairs)%R.
Proof.
  induction pairs as [|[y p] pairs IH]; intros Hin Hrange k h total Hf Ht.
  - exists h, total. simpl. split; [done|]. split; [apply frame_refl|].
    split; [done|]. split; [done|]. unfold squared_error. simpl. lra.
  - assert (Hp : p < length h0) by (apply (Hin y); left).
    pose proof Hf as [_ Hlen].
    cbn [foldM length].
    destruct (rsub_number_spec (order p (length h), order p (length h)) h p y)
      as (h1 & -> & Hf1 & Hv1); [lia|].
    pose proof Hf1 as [_ Hlen1].
    assert (Hvp : Value.val_of h p = Value.val_of h0 p).
    { unfold Value.val_of. by rewrite (get_frame _ _ k h0 h p Hf Hp). }
    destruct (pow_2_spec h1 (S (length h))) as (h2 & E2 & Hf2 & Hv2).
    { rewrite Hv1, Hvp, square_abs. apply Hrange. left. }
    rewrite E2. cbn [mbind result_bind]. pose proof Hf2 as [_ Hlen2].
    destruct (add_node_spec (order total (length h1)) h2 total (length h1))
      as (h3 & E3 & Hf3 & Hv3); [lia | lia |].
    change (add order h2 total (inl (length h1)))
      with (Value.__add__ (order total (length h1)) h2 total (inl (length h1))).
    rewrite E3. pose proof Hf3 as [_ Hlen3].
    destruct (IH (fun y' p' H' => Hin y' p' (list_elem_of_further _ _ _ H'))
                (fun y' p' H' => Hrange y' p' (list_elem_of_further _ _ _ H'))
                (k + 2 + 1 + 1) h3 (length h2))
      as (h' & total' & E & Hf' & Hlt & Hlast & Hval).
    { eapply frame_trans; [|exact Hf3].
      eapply frame_trans; [|exact Hf2]. eapply frame_trans; eassumption. }
    { lia. }
    exists h', total'. split; [exact E|]. split; [|split; [done|split]].
    + replace (4 * S (length pairs)) with (2 + 1 + 1 + 4 * length pairs) by lia.
      eapply frame_trans; [|exact Hf'].
      eapply frame_trans; [|exact Hf3]. eapply frame_trans; eassumption.
    + intros _. destruct pairs as [|pr pairs]; [|by apply Hlast].
      simpl in E. injection E as <- <-. lia.
    + rewrite Hval, Hv3, Hv2, Hv1, squared_error_cons, square_swap.
      unfold Value.val_of.
      rewrite (get_frame _ _ 1 h1 h2 total Hf2) by lia.
      rewrite (get_frame _ _ 2 h h1 total Hf1 Ht).
      rewrite (get_frame _ _ k h0 h p Hf Hp). lra.
Qed.

(** A square beyond the float range stops the loop with OverflowError,
    whatever the running total is. *)
Lemma loss_overflow (order : ref -> ref -> bool) (h0 : Value.heap)
    (pairs : list (R * ref)) :
  (forall y p, (y, p) ∈ pairs -> p < length h0) ->
  (exists y p, (y, p) ∈ pairs /\
     (float_max < (y - Value.val_of h0 p) ^ 2)%R) ->
  forall (k : nat) (h : Value.heap) (total : ref + R),
    frame k h0 h ->
    match total with inl t => t < length h | inr _ => True end ->
    foldM (fun '(h, total) '(y, pred) =>
             let '(h, diff) :=
               Value.__rsub__ (order pred (length h), order pred (length h))
                 h pred (inr y) in
             '(h, term) ← Value.__pow__ h diff 2;
             let '(h, total) :=
               match total with
               | inr n =>
                   Value.__radd__ (order term (length h)) h term (inr n)
               | inl total => add order h total (inl term)
               end in
             Ok (h, inl total))
          (h, total) pairs = Raise OverflowError.
Proof.
  induction pairs as [|[y p] pairs IH]; intros Hin Hex k h total Hf Ht.
  { destruct Hex as (y & p & Hyp & _). by apply elem_of_nil in Hyp. }
  assert (Hp : p < length h0) by (apply (Hin y); left).
  pose proof Hf as [_ Hlen].
  cbn [foldM length].
  destruct (rsub_number_spec (order p (length h), order p (length h)) h p y)
    as (h1 & -> & Hf1 & Hv1); [lia|].
  pose proof Hf1 as [_ Hlen1].
  assert (Hvp : Value.val_of h p = Value.val_of h0 p).
  { unfold Value.val_of. by rewrite (get_frame _ _ k h0 h p Hf Hp). }
  destruct (Rlt_dec float_max ((y - Value.val_of h0 p) ^ 2)) as [Hbig|Hsmall].
  { rewrite pow_2_overflow; [done|]. by rewrite Hv1, Hvp, square_abs. }
  destruct (pow_2_spec h1 (S (length h))) as (h2 & E2 & Hf2 & Hv2).
  { rewrite Hv1, Hvp, square_abs. lra. }
  rewrite E2. cbn [mbind result_bind]. pose proof Hf2 as [_ Hlen2].
  assert (Hrest : exists y' p', (y', p') ∈ pairs /\
            (float_max < (y' - Value.val_of h0 p') ^ 2)%R).
  { destruct Hex as (y' & p' & Hyp & Hbig).
    apply elem_of_cons in Hyp as [[= -> ->]|Hyp]; [done | eauto]. }
  destruct total as [total|n].
  - destruct (add_node_spec (order total (length h1)) h2 total (length h1))
      as (h3 & E3 & Hf3 & Hv3); [lia | lia |].
    change (add order h2 total (inl (length h1)))
      with (Value.__add__ (order total (length h1)) h2 total (inl (length h1))).
    rewrite E3. pose proof Hf3 as [_ Hlen3].
    apply (IH (fun y' p' H' => Hin y' p' (list_elem_of_further _ _ _ H'))
              Hrest (k + 2 + 1 + 1) h3 (inl (length h2))); [|simpl; lia].
    eapply frame_trans; [|exact Hf3].
    eapply frame_trans; [|exact Hf2]. eapply frame_trans; eassumption.
  - destruct (add_number_spec (order (length h1) (length h2)) h2 (length h1) n)
      as (h3 & E3 & Hf3 & Hv3); [lia|].
    change (Value.__radd__ (order (length h1) (length h2)) h2 (length h1)
              (inr n))
      with (Value.__add__ (order (length h1) (length h2)) h2 (length h1)
              (inr n)).
    rewrite E3. pose proof Hf3 as [_ Hlen3].
    apply (IH (fun y' p' H' => Hin y' p' (list_elem_of_further _ _ _ H'))
              Hrest (k + 2 + 1 + 2) h3 (inl (S (length h2)))); [|simpl; lia].
    eapply frame_trans; [|exact Hf3].
    eapply frame_trans; [|exact Hf2]. eapply frame_trans; eassumption.
Qed.

(** X22. [compute_loss] squares every difference with [**], which raises
    OverflowError for a square beyond the float range.  When the square of
    [y - pred] is within the range for every pair ([zip] stops at the
    shorter list), [compute_loss] returns: with no pair the number 0,
    allocating nothing; otherwise the last node it made, which holds the sum
    over the pairs of the squares of [y - pred], after making four nodes per
    pair and one more and changing no existing node.  When every difference
    is itself within the range and the square is beyond it for some pair,
    [compute_loss] raises OverflowError.  The reflected subtraction computes
    [pred - y], which the square hides. *)
Theorem compute_loss_value (order : ref -> ref -> bool) (h : Value.heap)
    (ys : list R) (preds : list ref) :
  (forall p, p ∈ preds -> p < length h) ->
  ((forall y p, (y, p) ∈ zip ys preds ->
      ((y - Value.val_of h p) ^ 2 <= float_max)%R) ->
   exists r, MLP.compute_loss order h ys preds = Ok r /\
     match r.2 with
     | inr n => zip ys preds = [] /\ n = 0%R /\ r.1 = h
     | inl out =>
         zip ys preds <> [] /\
         S out = length r.1 /\
         frame (4 * length (zip ys preds) + 1) h r.1 /\
         Value.val_of r.1 out = squared_error h (zip ys preds)
     end) /\
  ((forall y p, (y, p) ∈ zip ys preds ->
      (Rabs (y - Value.val_of h p) <= float_max)%R) ->
   (exists y p, (y, p) ∈ zip ys preds /\
      (float_max < (y - Value.val_of h p) ^ 2)%R) ->
   MLP.compute_loss order h ys preds = Raise OverflowError).
Proof.
  intros Hpreds. unfold MLP.compute_loss.
  assert (Hin : forall y p, (y, p) ∈ zip ys preds -> p < length h).
  { intros y p Hyp. apply Hpreds. by apply elem_of_zip_r in Hyp. }
  split;
    [|intros _ Hex; by apply (loss_overflow order h _ Hin Hex 0 h (inr 0%R))].
  intros Hrange.
  destruct (zip ys preds) as [|[y p] pairs].
  - exists (h, inr 0%R). simpl. by split_and!.
  - assert (Hp : p < length h) by (apply (Hin y); left).
    cbn [foldM length].
    destruct (rsub_number_spec (order p (length h), order p (length h)) h p y)
      as (h1 & -> & Hf1 & Hv1); [lia|].
    pose proof Hf1 as [_ Hlen1].
    destruct (pow_2_spec h1 (S (length h))) as (h2 & E2 & Hf2 & Hv2).
    { rewrite Hv1, square_abs. apply Hrange. left. }
    rewrite E2. cbn [mbind result_bind]. pose proof Hf2 as [_ Hlen2].
    destruct (add_number_spec (order (length h1) (length h2)) h2 (length h1) 0)
      as (h3 & E3 & Hf3 & Hv3); [lia|].
    change (Value.__radd__ (order (length h1) (length h2)) h2 (length h1)
              (inr 0%R))
      with (Value.__add__ (order (length h1) (length h2)) h2 (length h1)
              (inr 0%R)).
    rewrite E3. pose proof Hf3 as [_ Hlen3].
    destruct (loss_sum order h pairs
                (fun y' p' H' => Hin y' p' (list_elem_of_further _ _ _ H'))
                (fun y' p' H' => Hrange y' p' (list_elem_of_further _ _ _ H'))
                (2 + 1 + 2) h3 (S (length h2)))
      as (h' & total' & E & Hf' & Hlt & Hlast & Hval).
    { eapply frame_trans; [|exact Hf3]. eapply frame_trans; eassumption. }
    { lia. }
    exists (h', inl total'). split; [exact E|]. cbn [fst snd].
    pose proof Hf' as [_ Hlen'].
    split; [done|]. split; [|split].
    + destruct pairs as [|pr pairs]; [|by apply Hlast].
      simpl in E. injection E as <- <-. lia.
    + replace (4 * S (length pairs) + 1)
        with (2 + 1 + 2 + 4 * length pairs) by lia.
      eapply frame_trans; [|exact Hf'].
      eapply frame_trans; [|exact Hf3]. eapply frame_trans; eassumption.
    + rewrite Hval, Hv3, Hv2, Hv1, squared_error_cons, square_swap. lra.
Qed.

(** A target beyond the square root of the float range: the loss of
    [compute_loss([2 * sys.float_info.max], [Value(0.0)])] is not computed. *)
Example compute_loss_overflows (order : ref -> ref -> bool) :
  MLP.compute_loss order (leaves [0%R]) [(2 * float_max)%R] [0]
  = Raise OverflowError.
Proof.
  unfold MLP.compute_loss.
  apply (loss_overflow order (leaves [0%R]) _) with (k := 0).
  - intros y p Hyp. apply list_elem_of_singleton in Hyp as [= -> ->]. cbn. lia.
  - exists (2 * float_max)%R, 0. split; [by left|].
    pose proof float_max_large. cbn. nra.
  - apply frame_refl.
  - done.
Qed.

(** ** The function the forward pass computes *)

Lemma weighted_sum_values (h : Value.heap) (ws xs : list ref) (acc : R) :
  foldl (fun acc '(w, x) => (acc + Value.val_of h w * Value.val_of h x)%R)
        acc (zip ws xs)
  = foldl (fun acc '(w, x) => (acc + Value.val_of h w * x)%R)
          acc (zip ws (Value.val_of h <$> xs)).
Proof.
  revert xs acc. induction ws as [|w ws IH]; intros [|x xs] acc; simpl; auto.
Qed.

Lemma frame_values (k : nat) (h h' : Value.heap) (xs : list ref) :
  frame k h h' -> (forall x, x ∈ xs -> x < length h) ->
  Value.val_of h' <$> xs = Value.val_of h <$> xs.
Proof.
  intros Hf Hx. apply list_fmap_ext. intros i x Hi.
  apply (get_frame _ _ k h h' x Hf), Hx. by eapply list_elem_of_lookup_2.
Qed.

Lemma neuron_output_frame (k : nat) (h0 h : Value.heap) (n : Neuron.t)
    (xs : list R) :
  frame k h0 h ->
  (forall p, p ∈ Neuron.parameters n -> p < length h0) ->
  neuron_output h n xs = neuron_output h0 n xs.
Proof.
  intros Hf Hp. unfold neuron_output, Neuron.parameters in *. f_equal.
  assert (Hb : Value.val_of h (Neuron.b n) = Value.val_of h0 (Neuron.b n)).
  { apply (get_frame _ _ k h0 h _ Hf), Hp. set_lia. }
  rewrite Hb. generalize (Value.val_of h0 (Neuron.b n)).
  assert (Hw : forall w, w ∈ Neuron.w n -> w < length h0)
    by (intros w Hw; apply Hp; set_lia).
  revert Hw xs. generalize (Neuron.w n) as ws.
  induction ws as [|w ws IH]; intros Hw [|x xs] acc; simpl; try done.
  assert (Value.val_of h w = Value.val_of h0 w) as ->
    by (apply (get_frame _ _ k h0 h w Hf), Hw; left).
  apply IH. intros w' Hw'. apply Hw. by right.
Qed.

Lemma Layer_call_spec (order : ref -> ref -> bool) (h0 : Value.heap)
    (xs : list ref) (neurons : list Neuron.t) :
  (forall n p, n ∈ neurons -> p ∈ Neuron.parameters n -> p < length h0) ->
  forall (k : nat) (h : Value.heap),
    frame k h0 h -> (forall x, x ∈ xs -> x < length h) ->
    let r := for_each (fun h n => Neuron.__call__ order h n xs) h neurons in
    (exists k', frame k' h r.1) /\
    (forall o, o ∈ r.2 -> o < length r.1) /\
    Value.val_of r.1 <$> r.2
    = (fun n => neuron_output h0 n (Value.val_of h <$> xs)) <$> neurons.
Proof.
  induction neurons as [|n neurons IH]; intros Hp k h Hf Hx; cbn [for_each].
  - simpl. split; [exists 0; apply frame_refl|]. split; [set_lia | done].
  - assert (Hpn : forall p, p ∈ Neuron.parameters n -> p < length h0)
      by (intros p; apply Hp; left).
    pose proof Hf as [_ Hlen].
    destruct (Neuron_call_spec order h n xs) as (Hout & Hf1 & Hv1); [| |done|].
    { intros w Hw. unfold Neuron.parameters in Hpn.
      specialize (Hpn w). rewrite elem_of_app in Hpn. specialize (Hpn (or_introl Hw)). lia. }
    { unfold Neuron.parameters in Hpn. specialize (Hpn (Neuron.b n)).
      rewrite elem_of_app, list_elem_of_singleton in Hpn.
      specialize (Hpn (or_intror eq_refl)). lia. }
    unfold out_val in Hv1.
    destruct (Neuron.__call__ order h n xs) as [h1 out]. cbn [fst snd] in *.
    pose proof Hf1 as [_ Hlen1].
    destruct (IH (fun n' p Hn' => Hp n' p (list_elem_of_further _ _ _ Hn'))
                (k + _) h1 (frame_trans _ _ _ _ _ Hf Hf1))
      as ((k2 & Hf2) & Hvalid & Hvals).
    { intros x Hxin. specialize (Hx x Hxin). lia. }
    destruct (for_each _ h1 neurons) as [h2 outs]. cbn [fst snd] in *.
    pose proof Hf2 as [_ Hlen2].
    split; [eexists; eapply frame_trans; eassumption|]. split.
    + intros o Ho. apply elem_of_cons in Ho as [->|Ho]; [lia | by apply Hvalid].
    + rewrite !fmap_cons. rewrite Hvals. f_equal.
      * unfold Value.val_of. rewrite (get_frame _ _ k2 h1 h2 out Hf2) by lia.
        fold (Value.val_of h1 out). rewrite Hv1.
        unfold weighted_sum. rewrite weighted_sum_values.
        fold (neuron_output h n (Value.val_of h <$> xs)).
        by apply (neuron_output_frame k).
      * apply list_fmap_ext. intros i n' Hn'. f_equal.
        exact (frame_values _ h h1 xs Hf1 Hx).
Qed.

Lemma MLP_call_spec (order : ref -> ref -> bool) (h0 : Value.heap)
    (layers : list Layer.t) :
  (forall l n p, l ∈ layers -> n ∈ Layer.neurons l ->
     p ∈ Neuron.parameters n -> p < length h0) ->
  forall (k : nat) (h : Value.heap) (xs : list ref),
    frame k h0 h -> (forall x, x ∈ xs -> x < length h) ->
    let r := foldl (fun '(h, xs) layer => Layer.__call__ order h layer xs)
                   (h, xs) layers in
    (exists k', frame k' h r.1) /\
    (forall o, o ∈ r.2 -> o < length r.1) /\
    Value.val_of r.1 <$> r.2
    = foldl (fun xs l => layer_output h0 l xs) (Value.val_of h <$> xs) layers.
Proof.
  induction layers as [|l layers IH]; intros Hp k h xs Hf Hx; cbn [foldl].
  - simpl. split; [exists 0; apply frame_refl|]. by split.
  - destruct (Layer_call_spec order h0 xs (Layer.neurons l)
                (fun n p => Hp l n p (list_elem_of_here _ _)) k h Hf Hx)
      as ((k1 & Hf1) & Hvalid & Hvals).
    change (Layer.__call__ order h l xs)
      with (for_each (fun h n => Neuron.__call__ order h n xs) h
              (Layer.neurons l)).
    destruct (for_each _ h (Layer.neurons l)) as [h1 outs]. cbn [fst snd] in *.
    destruct (IH (fun l' n p Hl' => Hp l' n p (list_elem_of_further _ _ _ Hl'))
                (k + k1) h1 outs (frame_trans _ _ _ _ _ Hf Hf1) Hvalid)
      as ((k2 & Hf2) & Hvalid2 & Hvals2).
    split; [eexists; eapply frame_trans; eassumption|]. split; [done|].
    rewrite Hvals2, Hvals. done.
Qed.

(** X20. The forward pass computes the network function.  Called on input nodes
    [xs], a network whose parameters are nodes of the heap returns nodes
    that hold the outputs of the last layer, each layer being applied to the
    values of the layer before and each neuron returning the hyperbolic
    tangent of its bias plus the weighted inputs; the pass only allocates. *)
Theorem MLP_call_values (order : ref -> ref -> bool) (h : Value.heap)
    (self : MLP.t) (xs : list ref) :
  (forall p, p ∈ MLP.parameters self -> p < length h) ->
  (forall x, x ∈ xs -> x < length h) ->
  let r := MLP.__call__ order h self xs in
  Value.val_of r.1 <$> r.2 = network_output h self (Value.val_of h <$> xs) /\
  (exists k, frame k h r.1) /\
  (forall o, o ∈ r.2 -> o < length r.1).
Proof.
  intros Hp Hx r. subst r. unfold MLP.__call__, network_output.
  destruct (MLP_call_spec order h (MLP.layers self)) with
    (k := 0) (h := h) (xs := xs) as (Hf & Hvalid & Hvals);
    [|apply frame_refl|done|by split_and!].
  intros l n p Hl Hn Hpn. apply Hp. unfold MLP.parameters, Layer.parameters.
  apply list_elem_of_In, in_concat. exists (Layer.parameters l).
  split; [apply in_map; by apply list_elem_of_In|].
  unfold Layer.parameters. apply in_concat. exists (Neuron.parameters n).
  split; [apply in_map; by apply list_elem_of_In | by apply list_elem_of_In].
Qed.
(** * The traversal of [draw.py] *)

(** [trace] visits the nodes as the traversal of [backprop] does, and
    collects on the way the edges from the operands of every node it
    visits. *)
Lemma build_children (h : Value.heap) (limit : nat) (v : ref) :
  (forall c nodes edges topo,
     match Value.build_topo limit h c (nodes, topo) with
     | Ok st' =>
         exists edges',
           draw.build limit h c (nodes, edges) = Ok (st'.1, edges') /\
           (nodes ⊆ st'.1) /\
           forall e, e ∈ edges' <->
             e ∈ edges \/ (e.2 ∈ st'.1 /\ (e.2 ∉ nodes) /\ child h e.2 e.1)
     | Raise e => draw.build limit h c (nodes, edges) = Raise e
     end) ->
  forall cs (nodes : gset ref) (edges : gset (ref * ref)) topo,
    match foldM (fun st c => Value.build_topo limit h c st) (nodes, topo) cs with
    | Ok st' =>
        exists edges',
          foldM (fun st child =>
                   draw.build limit h child (st.1, st.2 ∪ {[(child, v)]}))
                (nodes, edges) cs = Ok (st'.1, edges') /\
          (nodes ⊆ st'.1) /\
          forall e, e ∈ edges' <->
            e ∈ edges \/ (e.1 ∈ cs /\ e.2 = v) \/
            (e.2 ∈ st'.1 /\ (e.2 ∉ nodes) /\ child h e.2 e.1)
    | Raise e =>
        foldM (fun st child =>
                 draw.build limit h child (st.1, st.2 ∪ {[(child, v)]}))
              (nodes, edges) cs = Raise e
    end.
Proof.
  intros IH. induction cs as [|c cs IHcs]; intros nodes edges topo.
  - simpl. exists edges. split; [done|]. split; [done|].
    intros e. rewrite elem_of_nil. tauto.
  - cbn [foldM]. specialize (IH c nodes (edges ∪ {[(c, v)]}) topo).
    destruct (Value.build_topo limit h c (nodes, topo)) as [[n1 t1]|err];
      cbn [mbind result_bind fst snd] in *.
    + destruct IH as (e1 & -> & Hsub1 & He1). cbn [mbind result_bind].
      specialize (IHcs n1 e1 t1).
      destruct (foldM _ (n1, t1) cs) as [[n2 t2]|err]; cbn [fst snd] in *.
      * destruct IHcs as (e2 & -> & Hsub2 & He2).
        exists e2. split; [done|]. split; [by transitivity n1|].
        intros [a b]. rewrite He2, He1, elem_of_union, elem_of_singleton,
          elem_of_cons. cbn [fst snd].
        pose proof (Hsub1 b). pose proof (Hsub2 b).
        destruct (decide (b ∈ n1)); split; intros;
          repeat (destruct_or?; destruct_and?; simplify_eq); eauto 8.
      * done.
    + by rewrite IH.
Qed.

Lemma build_simulates (h : Value.heap) (limit : nat) :
  forall v nodes edges topo,
    match Value.build_topo limit h v (nodes, topo) with
    | Ok st' =>
        exists edges',
          draw.build limit h v (nodes, edges) = Ok (st'.1, edges') /\
          (nodes ⊆ st'.1) /\
          forall e, e ∈ edges' <->
            e ∈ edges \/ (e.2 ∈ st'.1 /\ (e.2 ∉ nodes) /\ child h e.2 e.1)
    | Raise e => draw.build limit h v (nodes, edges) = Raise e
    end.
Proof.
  induction limit as [|limit IH]; intros v nodes edges topo; [done|].
  cbn [Value.build_topo draw.build fst snd].
  destruct (decide (v ∈ nodes)) as [Hin|Hout].
  - exists edges. split; [done|]. split; [done|]. intros e. tauto.
  - pose proof (build_children h limit v IH (Value.children_of h v)
                  (nodes ∪ {[v]}) edges topo) as H.
    destruct (foldM _ (nodes ∪ {[v]}, topo) _) as [[n1 t1]|err];
      cbn [mbind result_bind fst snd] in *; [|done].
    destruct H as (e1 & -> & Hsub & He).
    exists e1. split; [done|].
    split; [intros x Hx; apply Hsub, elem_of_union; by left|].
    intros [a b]. rewrite He. cbn [fst snd]. unfold child.
    rewrite not_elem_of_union, elem_of_singleton.
    pose proof (Hsub v (proj2 (elem_of_union _ _ _)
                          (or_intror (proj2 (elem_of_singleton _ _) eq_refl)))).
    destruct (decide (b = v)) as [->|Hne]; split; intros;
      repeat (destruct_or?; destruct_and?; simplify_eq); eauto 8.
Qed.

Lemma trace_spec (h : Value.heap) (rank : ref -> nat)
    (root : ref) (limit : nat) :
  acyclic_by rank h ->
  rank root < limit ->
  exists nodes edges,
    draw.trace limit h root = Ok (nodes, edges) /\
    (forall x, x ∈ nodes <-> reachable h root x) /\
    (forall c p, (c, p) ∈ edges <-> reachable h root p /\ child h p c).
Proof.
  intros Hacyc Hlim.
  destruct (build_topo_spec h rank Hacyc limit root ∅ [])
    as (vis & new & E & Hvis & _ & Hroot & Hok & Hreach).
  - done.
  - intros x Hx. by apply elem_of_nil in Hx.
  - intros u Hu. by apply not_elem_of_empty in Hu.
  - split; [apply NoDup_nil_2|]. intros i p c Hi. by rewrite lookup_nil in Hi.
  - simpl in *.
    assert (Hnodes : forall x, x ∈ vis <-> reachable h root x).
    { intros x. rewrite Hvis. split.
      - intros [Hx|Hx]; [by apply not_elem_of_empty in Hx | by apply Hreach].
      - intros Hx. right. by apply (topo_ok_closed h new root). }
    pose proof (build_simulates h limit root ∅ ∅ []) as H. rewrite E in H.
    destruct H as (edges & Eb & _ & He). simpl in *.
    exists vis, edges. split; [exact Eb|]. split; [exact Hnodes|].
    intros c p. rewrite He. simpl. rewrite Hnodes, elem_of_empty.
    split; [intros [[]|(? & _ & ?)]; done | intros [? ?]; right; split_and!; auto].
    apply not_elem_of_empty.
Qed.

(** X26. On an acyclic graph, with recursion depth to spare, [trace] returns the
    set of the nodes reachable from the root, the root included, and the set
    of the pairs (operand, node) for every reachable node and each of its
    operands. *)
Theorem trace_nodes_and_edges (h : Value.heap) (rank : ref -> nat)
    (root : ref) (limit : nat) :
  acyclic_by rank h ->
  rank root < limit ->
  exists nodes edges,
    draw.trace limit h root = Ok (nodes, edges) /\
    (forall x, x ∈ nodes <-> reachable h root x) /\
    (forall c p, (c, p) ∈ edges <-> reachable h root p /\ child h p c).
Proof. apply trace_spec. Qed.

(** X28. The two traversals agree: on an acyclic graph, with recursion depth
    to spare, the nodes [trace] returns are the root together with the set
    [get_descendants] returns, and the edges [trace] returns lead to the
    root or to one of these descendants. *)
Theorem trace_nodes_are_root_and_descendants (h : Value.heap)
    (rank : ref -> nat) (root : ref) (limit : nat) :
  acyclic_by rank h ->
  rank root < limit ->
  exists nodes edges (s : gset ref),
    draw.trace limit h root = Ok (nodes, edges) /\
    Value.get_descendants limit h root false = Ok s /\
    nodes = {[root]} ∪ s /\
    (forall c p, (c, p) ∈ edges -> (p = root \/ p ∈ s) /\ c ∈ s).
Proof.
  intros Hacyc Hlim.
  destruct (trace_spec h rank root limit Hacyc Hlim)
    as (nodes & edges & Et & Hn & He).
  destruct (get_descendants_spec h rank Hacyc false limit root Hlim)
    as (s & Es & Hs).
  exists nodes, edges, s. split; [exact Et|]. split; [exact Es|]. split.
  - apply set_eq. intros x.
    rewrite Hn, elem_of_union, elem_of_singleton, Hs. apply reachable_inv.
  - intros c p Hcp. apply He in Hcp as [Hp Hc]. split.
    + rewrite Hs. by apply reachable_inv.
    + apply Hs. eapply tc_rtc_l; [exact Hp | by apply tc_once].
Qed.

(** * [backprop] and [grad_dict] together *)

Lemma same_graph_descendant (h h' : Value.heap) (p c : ref) :
  same_graph h h' -> descendant h p c <-> descendant h' p c.
Proof.
  intros Hsame.
  split; (induction 1 as [x y Hc|x y z Hc _ IH];
          [apply tc_once | eapply tc_l; [|exact IH]];
          by apply (same_graph_child h h' Hsame)).
Qed.

Lemma key_of_label (h : Value.heap) (i : nat) (d : ref) (l : string) :
  Value.label_of h d = Some l -> l <> "" -> Value.key h i d = l.
Proof.
  intros Hl Hne. unfold Value.key. rewrite Hl.
  by destruct (decide (l = "")).
Qed.

(** X27. Take a graph the builders have made, in which every node the root
    depends on is a leaf or an accumulating operation, the backward rule of
    every such power node [x ** k] evaluates a power [x.val ** (k - 1)]
    that is a float (neither ZeroDivisionError nor OverflowError), and
    every descendant of the root carries a non-empty label of its own.
    Then [backprop] returns, and [grad_dict] after it maps each label to the
    total derivative of the root with respect to the node that carries it,
    and has no other entry. *)
Theorem grad_dict_after_backprop (h : Value.heap) (root : ref) (limit : nat)
    (iter : gset ref -> list ref) :
  built h ->
  root < length h ->
  root < limit ->
  (forall n, reachable h root n ->
     accumulates (Value.backward_of h n) /\ pow_safe h n) ->
  enumerates iter ->
  (forall d, descendant h root d ->
     exists l, Value.label_of h d = Some l /\ l <> "") ->
  labels_distinct h root ->
  exists h' m,
    Value.backprop limit h root = Ok h' /\
    Value.grad_dict limit iter h' root = Ok m /\
    (forall d l, descendant h root d -> Value.label_of h d = Some l ->
       m !! l = Some (total_derivative h root d)) /\
    (forall l g, m !! l = Some g ->
       exists d, descendant h root d /\ Value.label_of h d = Some l).
Proof.
  intros Hb Hroot Hlim Hall Hiter Hlab Huniq.
  destruct (backprop_on_built h root limit Hb Hroot Hlim Hall) as (h' & E & Hg).
  pose proof (backprop_same_graph _ _ _ _ E) as Hsame.
  pose proof Hsame as [_ Hattr].
  destruct (built_pristine h Hb) as [Hwf _].
  pose proof (same_graph_acyclic h h' Hsame _ (well_formed_acyclic h Hwf))
    as Hacyc.
  destruct (get_descendants_spec h' (fun r => r) Hacyc false limit root Hlim)
    as (s & Es & Hs).
  destruct (Hiter s) as [Hnd Hin].
  assert (Hds : forall x, x ∈ iter s <-> descendant h root x).
  { intros x. by rewrite Hin, Hs, (same_graph_descendant h h' root x Hsame). }
  assert (Hl' : forall x, Value.label_of h' x = Value.label_of h x).
  { intros x. by destruct (Hattr x) as (_ & -> & _). }
  exists h', (Value.grad_entries h' (iter s)).
  split; [exact E|]. unfold Value.grad_dict. rewrite Es. cbn.
  split; [done|]. split.
  - intros d l Hd Hl.
    destruct (Hlab d Hd) as (l0 & Hl0 & Hne).
    assert (l0 = l) as -> by congruence.
    pose proof (proj2 (Hds d) Hd) as Hdin.
    apply list_elem_of_lookup_1 in Hdin as [i Hi].
    rewrite <- (key_of_label h' i d l) by (by rewrite ?Hl').
    rewrite (grad_entries_lookup h' (iter s) i d Hi).
    + f_equal. apply Hg. by apply tc_rtc.
    + intros j d' Hj Hij.
      rewrite (key_of_label h' i d l) by (by rewrite ?Hl').
      assert (Hd' : descendant h root d')
        by (apply Hds; by eapply list_elem_of_lookup_2).
      destruct (Hlab d' Hd') as (l' & Hl1 & Hne').
      rewrite (key_of_label h' j d' l') by (by rewrite ?Hl').
      intros ->. assert (d' = d) as -> by (by apply (Huniq d' d l)).
      pose proof (NoDup_lookup _ _ _ _ Hnd Hi Hj). lia.
  - intros l g Hm. apply grad_entries_from in Hm as (i & d & Hi & Hk & _).
    assert (Hd : descendant h root d)
      by (apply Hds; by eapply list_elem_of_lookup_2).
    destruct (Hlab d Hd) as (l0 & Hl0 & Hne).
    rewrite (key_of_label h' i d l0) in Hk by (by rewrite ?Hl').
    subst l0. by exists d.
Qed.
(** * The further properties on concrete graphs *)

Lemma descendant_below (h : Value.heap) (a b : ref) :
  well_formed h -> descendant h a b -> b < a.
Proof.
  intros Hwf. pose proof (well_formed_acyclic h Hwf) as Hacyc.
  induction 1 as [a b Hc|a b c Hc _ IH];
    [apply (Hacyc a b Hc) | pose proof (Hacyc a b Hc); simpl in *; lia].
Qed.

Lemma fan_in_arithmetic (n : ref) :
  arithmetic (fan_in_graph false false false).1 n /\
  node_value (fan_in_graph false false false).1 n.
Proof.
  destruct n as [|[|[|[|[|[|i]]]]]]; unfold arithmetic, node_value; cbn;
    split; try done; lra.
Qed.

Lemma fan_in_unlabelled (n : ref) :
  Value.label_of (fan_in_graph false false false).1 n = None.
Proof. by destruct n as [|[|[|[|[|[|i]]]]]]. Qed.

Lemma labelled_product_well_formed :
  well_formed (labelled_product_graph false).1.
Proof.
  intros [|[|[|i]]]; unfold node_shape; cbn; split_and!;
    try done; try lia; eauto.
Qed.

Lemma labelled_product_arithmetic (n : ref) :
  arithmetic (labelled_product_graph false).1 n /\
  node_value (labelled_product_graph false).1 n.
Proof.
  destruct n as [|[|[|i]]]; unfold arithmetic, node_value; cbn;
    split; try done; lra.
Qed.

Lemma labelled_product_labels :
  labels_distinct (labelled_product_graph false).1 2.
Proof.
  intros d d' l Hd Hd'.
  apply (descendant_below _ _ _ labelled_product_well_formed) in Hd, Hd'.
  destruct d as [|[|d]], d' as [|[|d']]; try lia; cbn; congruence.
Qed.

Lemma labelled_product_built : built (labelled_product_graph false).1.
Proof.
  pose proof (built_leaf _ 4 None (built_leaf _ 3 None built_empty)) as H.
  pose proof (built_label _ 1 "y" (built_label _ 0 "x" H)) as H'.
  apply (built_mul false _ 0 (inl 1) H'); cbn; lia.
Qed.

Lemma labelled_tanh_well_formed : well_formed labelled_tanh_graph.1.
Proof.
  intros [|[|i]]; unfold node_shape; cbn; split_and!; try done; lia.
Qed.

Lemma stale_product_well_formed :
  well_formed (Value.set_grad (product_graph false).1 0 7).
Proof.
  intros [|[|[|i]]]; unfold node_shape; cbn; split_and!;
    try done; try lia; eauto.
Qed.

Lemma stale_product_admissible (n : ref) :
  admissible (Value.set_grad (product_graph false).1 0 7) n.
Proof.
  destruct n as [|[|[|i]]]; unfold admissible, node_value, pow_safe; cbn;
    split_and!; try done; lra.
Qed.

Lemma stale_product_interior (n : ref) :
  n <> 2 ->
  Value.backward_of (Value.set_grad (product_graph false).1 0 7) n
    <> bw_default ->
  Value.grad_of (Value.set_grad (product_graph false).1 0 7) n = 0%R.
Proof. destruct n as [|[|[|i]]]; cbn; done. Qed.

Lemma rsub_swaps_operands_witness :
  let h := leaves [5%R] in
  0 < length h /\
  out_val (Value.__rsub__ (false, false) h 0 (inr 2%R))
  = (Value.val_of h 0 - 2)%R /\
  (out_val (Value.__rsub__ (false, false) h 0 (inr 2%R))
   = (2 - Value.val_of h 0)%R
   <-> Value.val_of h 0 = 2%R).
Proof.
  intros h. assert (H : 0 < length h) by (cbn; lia).
  split; [exact H|]. exact (rsub_swaps_operands (false, false) h 0 2 H).
Defined.

Lemma truediv_quotient_or_raise_witness :
  let h := leaves [6; 3]%R in
  0 < length h /\ 1 < length h /\
  Value.val_of h 1 <> 0%R /\
  (Rabs (/ Value.val_of h 1) <= float_max)%R /\
  exists r, Value.__truediv__ false h 0 (inl 1) = Ok r /\
    out_val r = (Value.val_of h 0 / Value.val_of h 1)%R /\
    frame 2 h r.1.
Proof.
  intros h.
  assert (H0 : 0 < length h) by (cbn; lia).
  assert (H1 : 1 < length h) by (cbn; lia).
  assert (Hv : Value.val_of h 1 <> 0%R) by (cbn; lra).
  assert (Hr : (Rabs (/ Value.val_of h 1) <= float_max)%R).
  { cbn. pose proof float_max_large. rewrite Rabs_right; lra. }
  split; [exact H0|]. split; [exact H1|]. split; [exact Hv|].
  split; [exact Hr|].
  exact (proj2 (proj2 (truediv_quotient_or_raise false h 0 1 H0 H1)) Hv Hr).
Defined.

Lemma fan_in_backprop (root : ref) :
  root < 6 ->
  exists h', Value.backprop 6 (fan_in_graph false false false).1 root = Ok h'.
Proof.
  intros Hroot.
  destruct (backprop_from_zero (fan_in_graph false false false).1
              (fun r => r) root 6) as (h' & E & _).
  - apply fan_in_well_formed.
  - apply well_formed_acyclic, fan_in_well_formed.
  - done.
  - cbn. lia.
  - intros n _. apply fan_in_admissible.
  - by exists h'.
Qed.

Lemma backprop_writes_gradients_only_witness :
  let h := (fan_in_graph false false false).1 in
  exists h',
    Value.backprop 6 h 5 = Ok h' /\
    length h' = length h /\
    forall i,
      Value.val_of h' i = Value.val_of h i /\
      Value.label_of h' i = Value.label_of h i /\
      Value.children_of h' i = Value.children_of h i /\
      Value.op_of h' i = Value.op_of h i /\
      Value.backward_of h' i = Value.backward_of h i.
Proof.
  intros h. destruct (fan_in_backprop 5) as [h' E]; [lia|].
  exists h'. split; [exact E|].
  exact (backprop_writes_gradients_only 6 h h' 5 E).
Defined.

Lemma backprop_leaves_other_nodes_witness :
  let h := (fan_in_graph false false false).1 in
  well_formed h /\ 3 < 6 /\ ~ reachable h 3 4 /\
  exists h',
    Value.backprop 6 h 3 = Ok h' /\
    Value.grad_of h' 4 = Value.grad_of h 4.
Proof.
  intros h.
  assert (Hwf : well_formed h) by apply fan_in_well_formed.
  assert (Hl : 3 < 6) by lia.
  assert (Hn : ~ reachable h 3 4).
  { intros Hr. pose proof (reachable_le h 3 4 Hwf Hr). lia. }
  destruct (fan_in_backprop 3) as [h' E]; [lia|].
  split; [exact Hwf|]. split; [exact Hl|]. split; [exact Hn|].
  exists h'. split; [exact E|].
  exact (backprop_leaves_other_nodes 6 h h' 3 Hwf Hl E 4 Hn).
Defined.

Lemma abs_gradient_ignores_sign_witness :
  let h := leaves [(-3)%R] in
  0 < length h /\ Value.children_of h 0 = [] /\
  Value.backward_of h 0 = bw_default /\
  exists h',
    Value.backprop 2 (Value.__abs__ h 0).1 (Value.__abs__ h 0).2 = Ok h' /\
    Value.grad_of h' 0
    = if Req_dec_T (Value.val_of h 0) 0 then Value.grad_of h 0 else 1%R.
Proof.
  intros h.
  assert (H0 : 0 < length h) by (cbn; lia).
  assert (Hc : Value.children_of h 0 = []) by reflexivity.
  assert (Hb : Value.backward_of h 0 = bw_default) by reflexivity.
  split; [exact H0|]. split; [exact Hc|]. split; [exact Hb|].
  exact (abs_gradient_ignores_sign 0 h 0 H0 Hc Hb).
Defined.

Lemma sigmoid_gradient_overwrites_witness :
  let h := leaves [0%R] in
  0 < length h /\ Value.children_of h 0 = [] /\
  Value.backward_of h 0 = bw_default /\
  value.sigmoid (Value.val_of h 0) = Ok (1 / 2)%R /\
  let s := (1 / 2)%R in
  exists r h1 h2,
    Value.sigmoid h 0 = Ok r /\
    Value.backprop 2 r.1 r.2 = Ok h1 /\
    Value.grad_of h1 0 = (s * (1 - s))%R /\
    Value.backprop 2 h1 r.2 = Ok h2 /\
    Value.grad_of h2 0 = (s * (1 - s))%R.
Proof.
  intros h.
  assert (H0 : 0 < length h) by (cbn; lia).
  assert (Hc : Value.children_of h 0 = []) by reflexivity.
  assert (Hb : Value.backward_of h 0 = bw_default) by reflexivity.
  assert (Hs : value.sigmoid (Value.val_of h 0) = Ok (1 / 2)%R)
    by exact sigmoid_0.
  split; [exact H0|]. split; [exact Hc|]. split; [exact Hb|].
  split; [exact Hs|].
  exact (sigmoid_gradient_overwrites 0 h 0 (1 / 2) H0 Hc Hb Hs).
Defined.

Lemma recompute_same_operand_witness :
  let h := leaves [3%R] in
  0 < length h /\ Value.op_of h 0 = None /\
  let s := Value.__add__ false h 0 (inl 0) in
  let p := Value.__mul__ false h 0 (inl 0) in
  Value.recompute 2 s.1 s.2 None = Ok (Value.val_of h 0) /\
  out_val s = (Value.val_of h 0 + Value.val_of h 0)%R /\
  Value.recompute 2 p.1 p.2 None = Ok (Value.val_of h 0) /\
  out_val p = (Value.val_of h 0 * Value.val_of h 0)%R.
Proof.
  intros h.
  assert (H0 : 0 < length h) by (cbn; lia).
  assert (Ho : Value.op_of h 0 = None) by reflexivity.
  split; [exact H0|]. split; [exact Ho|].
  exact (recompute_same_operand false 0 h 0 H0 Ho).
Defined.

Lemma recompute_returns_value_witness :
  let h := (fan_in_graph false false false).1 in
  well_formed h /\ 5 < 6 /\
  (forall n, reachable h 5 n -> arithmetic h n /\ node_value h n) /\
  Value.recompute 6 h 5 None = Ok (Value.val_of h 5).
Proof.
  intros h.
  assert (Hwf : well_formed h) by apply fan_in_well_formed.
  assert (Hl : 5 < 6) by lia.
  assert (Ha : forall n, reachable h 5 n -> arithmetic h n /\ node_value h n)
    by (intros n _; apply fan_in_arithmetic).
  split; [exact Hwf|]. split; [exact Hl|]. split; [exact Ha|].
  exact (recompute_returns_value 6 h 5 Hwf Hl Ha).
Defined.

Lemma recompute_follows_leaf_witness :
  let h := (labelled_product_graph false).1 in
  well_formed h /\ 2 < 3 /\
  (forall n, reachable h 2 n -> arithmetic h n) /\
  Value.backward_of h 0 = bw_default /\
  Value.label_of h 0 = Some "x" /\
  (forall n, reachable h 2 n -> Value.backward_of h n = bw_default ->
     Value.label_of h n = Some "x" -> n = 0) /\
  Value.recompute 3 h 2 (Some {[ "x" := 5%R ]}) = Ok (forward h 2 0 5).
Proof.
  intros h.
  assert (Hwf : well_formed h) by apply labelled_product_well_formed.
  assert (Hl : 2 < 3) by lia.
  assert (Ha : forall n, reachable h 2 n -> arithmetic h n)
    by (intros n _; apply labelled_product_arithmetic).
  assert (Hb : Value.backward_of h 0 = bw_default) by reflexivity.
  assert (Hx : Value.label_of h 0 = Some "x") by reflexivity.
  assert (Hu : forall n, reachable h 2 n ->
            Value.backward_of h n = bw_default ->
            Value.label_of h n = Some "x" -> n = 0).
  { intros [|[|[|n]]] _; unfold h; cbn; intros Hb' Hl'; done. }
  split_and!; try assumption.
  exact (recompute_follows_leaf 3 h 2 0 "x" 5 Hwf Hl Ha Hb Hx Hu).
Defined.

Lemma naive_backprop_without_labels_witness :
  let h := (fan_in_graph false false false).1 in
  acyclic_by (fun r => r) h /\ 5 < 6 /\ enumerates elements /\
  (forall d, descendant h 5 d -> Value.label_of h d = None) /\
  Value.naive_backprop 6 elements h 5 1 = Ok (Value.set_grad h 5 1).
Proof.
  intros h.
  assert (Ha : acyclic_by (fun r => r) h)
    by apply well_formed_acyclic, fan_in_well_formed.
  assert (Hl : 5 < 6) by lia.
  assert (Hn : forall d, descendant h 5 d -> Value.label_of h d = None)
    by (intros d _; apply fan_in_unlabelled).
  split; [exact Ha|]. split; [exact Hl|]. split; [exact enumerates_elements|].
  split; [exact Hn|].
  exact (naive_backprop_without_labels 6 elements h (fun r => r) 5 1 Ha Hl
           enumerates_elements Hn).
Defined.

Lemma naive_backprop_zero_step_witness :
  let h := (labelled_product_graph false).1 in
  acyclic_by (fun r => r) h /\ 2 < 3 /\ enumerates elements /\
  descendant h 2 0 /\ Value.label_of h 0 = Some "x" /\
  exists e, Value.naive_backprop 3 elements h 2 0 = Raise e /\
    (e = ZeroDivisionError \/
     exists m, Value.recompute 3 (Value.set_grad h 2 1) 2 m = Raise e).
Proof.
  intros h.
  assert (Ha : acyclic_by (fun r => r) h)
    by apply well_formed_acyclic, labelled_product_well_formed.
  assert (Hl : 2 < 3) by lia.
  assert (Hd : descendant h 2 0).
  { apply tc_once. unfold child. cbn. unfold Value.set2. cbn. left. }
  assert (Hx : Value.label_of h 0 = Some "x") by reflexivity.
  split_and!; try assumption; [exact enumerates_elements|].
  exact (naive_backprop_zero_step 3 elements h (fun r => r) 2 0 "x" Ha Hl
           enumerates_elements Hd Hx).
Defined.

Lemma naive_backprop_activation_root_witness :
  let h := labelled_tanh_graph.1 in
  well_formed h /\ 1 < 2 /\ enumerates elements /\ labels_distinct h 1 /\
  1%R <> 0%R /\ unary_activation (Value.op_of h 1) /\
  (forall n, descendant h 1 n -> arithmetic h n) /\
  exists h',
    Value.naive_backprop 2 elements h 1 1 = Ok h' /\
    forall d l, descendant h 1 d -> Value.label_of h d = Some l ->
      Value.grad_of h' d
      = ((math_tanh (Value.val_of h 1) - Value.val_of h 1) / 1)%R.
Proof.
  intros h.
  assert (Hwf : well_formed h) by apply labelled_tanh_well_formed.
  assert (Hl : 1 < 2) by lia.
  assert (Hu : labels_distinct h 1).
  { intros d d' l Hd Hd' _ _.
    apply (descendant_below _ _ _ Hwf) in Hd, Hd'. lia. }
  assert (H1 : 1%R <> 0%R) by lra.
  assert (Ho : unary_activation (Value.op_of h 1)) by (right; left; reflexivity).
  assert (Ha : forall n, descendant h 1 n -> arithmetic h n).
  { intros n Hn. apply (descendant_below _ _ _ Hwf) in Hn.
    destruct n as [|n]; [exact I | lia]. }
  split_and!; try assumption; [exact enumerates_elements|].
  exact (naive_backprop_activation_root 2 elements h 1 1 Hwf Hl
           enumerates_elements Hu H1 Ho Ha).
Defined.

Lemma naive_backprop_difference_quotient_witness :
  let h := (labelled_product_graph false).1 in
  well_formed h /\ 2 < 3 /\ 2 < length h /\ enumerates elements /\
  labels_distinct h 2 /\ 1%R <> 0%R /\
  (forall n, reachable h 2 n -> arithmetic h n /\ node_value h n) /\
  exists h',
    Value.naive_backprop 3 elements h 2 1 = Ok h' /\
    Value.grad_of h' 2 = 1%R /\
    (forall d l, descendant h 2 d -> Value.label_of h d = Some l ->
       Value.grad_of h' d
       = match Value.backward_of h d with
         | bw_default =>
             ((forward h 2 d (Value.val_of h d + 1)
               - forward h 2 d (Value.val_of h d)) / 1)%R
         | _ => 0%R
         end) /\
    (forall d, descendant h 2 d -> Value.label_of h d = None ->
       Value.grad_of h' d = Value.grad_of h d).
Proof.
  intros h.
  assert (Hwf : well_formed h) by apply labelled_product_well_formed.
  assert (Hl : 2 < 3) by lia.
  assert (Hr : 2 < length h) by (cbn; lia).
  assert (Hu : labels_distinct h 2) by apply labelled_product_labels.
  assert (H1 : 1%R <> 0%R) by lra.
  assert (Ha : forall n, reachable h 2 n -> arithmetic h n /\ node_value h n)
    by (intros n _; apply labelled_product_arithmetic).
  split_and!; try assumption; [exact enumerates_elements|].
  exact (naive_backprop_difference_quotient 3 elements h 2 1 Hwf Hl Hr
           enumerates_elements Hu H1 Ha).
Defined.

Lemma backprop_adds_to_stale_leaves_witness :
  let h := Value.set_grad (product_graph false).1 0 7 in
  well_formed h /\ 2 < 3 /\ 2 < length h /\
  (forall n, reachable h 2 n -> admissible h n) /\
  (forall n, reachable h 2 n -> n <> 2 ->
     Value.backward_of h n <> bw_default -> Value.grad_of h n = 0%R) /\
  exists h',
    Value.backprop 3 h 2 = Ok h' /\
    forall v, reachable h 2 v -> v <> 2 ->
      Value.grad_of h' v = (Value.grad_of h v + total_derivative h 2 v)%R.
Proof.
  intros h.
  assert (Hwf : well_formed h) by apply stale_product_well_formed.
  assert (Hl : 2 < 3) by lia.
  assert (Hr : 2 < length h) by (cbn; lia).
  assert (Ha : forall n, reachable h 2 n -> admissible h n)
    by (intros n _; apply stale_product_admissible).
  assert (Hz : forall n, reachable h 2 n -> n <> 2 ->
            Value.backward_of h n <> bw_default -> Value.grad_of h n = 0%R)
    by (intros n _; apply stale_product_interior).
  split_and!; try assumption.
  exact (backprop_adds_to_stale_leaves h 2 3 Hwf Hl Hr Ha Hz).
Defined.

Lemma zero_grad_then_backprop_witness :
  let h := Value.set_grad (product_graph false).1 0 7 in
  well_formed h /\ 2 < 3 /\ 2 < length h /\
  (forall n, reachable h 2 n -> admissible h n) /\
  (forall n, reachable h 2 n -> n <> 2 ->
     Value.backward_of h n <> bw_default -> Value.grad_of h n = 0%R) /\
  exists h',
    Value.backprop 3 (MLP.zero_grad two_parameter_net h) 2 = Ok h' /\
    forall p, p ∈ MLP.parameters two_parameter_net -> reachable h 2 p ->
      Value.grad_of h' p = total_derivative h 2 p.
Proof.
  intros h.
  assert (Hwf : well_formed h) by apply stale_product_well_formed.
  assert (Hl : 2 < 3) by lia.
  assert (Hr : 2 < length h) by (cbn; lia).
  assert (Ha : forall n, reachable h 2 n -> admissible h n)
    by (intros n _; apply stale_product_admissible).
  assert (Hz : forall n, reachable h 2 n -> n <> 2 ->
            Value.backward_of h n <> bw_default -> Value.grad_of h n = 0%R)
    by (intros n _; apply stale_product_interior).
  split_and!; try assumption.
  exact (zero_grad_then_backprop two_parameter_net h 2 3 Hwf Hl Hr Ha Hz).
Defined.

Lemma Neuron_call_value_witness :
  let h := leaves [2; 3; 5]%R in
  let order := fun _ _ : ref => false in
  (forall w, w ∈ Neuron.w one_weight_neuron -> w < length h) /\
  Neuron.b one_weight_neuron < length h /\
  (forall x, x ∈ [2] -> x < length h) /\
  let r := Neuron.__call__ order h one_weight_neuron [2] in
  let n := length (Neuron.w one_weight_neuron) `min` length [2] in
  r.2 = length h + 2 * n /\
  frame (2 * n + 1) h r.1 /\
  out_val r
  = math_tanh (weighted_sum h (Neuron.b one_weight_neuron)
                 (zip (Neuron.w one_weight_neuron) [2])).
Proof.
  intros h order.
  assert (Hw : forall w, w ∈ Neuron.w one_weight_neuron -> w < length h).
  { intros w Hw. apply list_elem_of_singleton in Hw as ->. cbn. lia. }
  assert (Hb : Neuron.b one_weight_neuron < length h) by (cbn; lia).
  assert (Hx : forall x, x ∈ [2] -> x < length h).
  { intros x Hx. apply list_elem_of_singleton in Hx as ->. cbn. lia. }
  split; [exact Hw|]. split; [exact Hb|]. split; [exact Hx|].
  exact (Neuron_call_value order h one_weight_neuron [2] Hw Hb Hx).
Defined.

Lemma compute_loss_value_witness :
  let h := leaves [2%R] in
  let order := fun _ _ : ref => false in
  (forall p, p ∈ [0] -> p < length h) /\
  (forall y p, (y, p) ∈ zip [1%R] [0] ->
     ((y - Value.val_of h p) ^ 2 <= float_max)%R) /\
  exists r, MLP.compute_loss order h [1%R] [0] = Ok r /\
    match r.2 with
    | inr n => zip [1%R] [0] = [] /\ n = 0%R /\ r.1 = h
    | inl out =>
        zip [1%R] [0] <> [] /\
        S out = length r.1 /\
        frame (4 * length (zip [1%R] [0]) + 1) h r.1 /\
        Value.val_of r.1 out = squared_error h (zip [1%R] [0])
    end.
Proof.
  intros h order.
  assert (Hp : forall p, p ∈ [0] -> p < length h).
  { intros p Hp. apply list_elem_of_singleton in Hp as ->. cbn. lia. }
  assert (Hr : forall y p, (y, p) ∈ zip [1%R] [0] ->
            ((y - Value.val_of h p) ^ 2 <= float_max)%R).
  { intros y p Hyp. apply list_elem_of_singleton in Hyp as [= -> ->].
    pose proof float_max_large. cbn. lra. }
  split; [exact Hp|]. split; [exact Hr|].
  exact (proj1 (compute_loss_value order h [1%R] [0] Hp) Hr).
Defined.

Lemma deriv_is_unsigned_witness :
  (0 < 1)%R /\
  exists d, utils.deriv (fun t => (- t)%R) [] (inr 0%R) 1 = Ok d /\
    (0 <= d)%R /\
    forall a b, (forall t, (- t)%R = (a * t + b)%R) -> d = Rabs a.
Proof.
  assert (H : (0 < 1)%R) by lra.
  split; [exact H|].
  exact (deriv_is_unsigned (fun t => (- t)%R) [] (inr 0%R) 1 H).
Defined.

Lemma trace_nodes_and_edges_witness :
  let h := (fan_in_graph false false false).1 in
  acyclic_by (fun r => r) h /\ 5 < 6 /\
  exists nodes edges,
    draw.trace 6 h 5 = Ok (nodes, edges) /\
    (forall x, x ∈ nodes <-> reachable h 5 x) /\
    (forall c p, (c, p) ∈ edges <-> reachable h 5 p /\ child h p c).
Proof.
  intros h.
  assert (Ha : acyclic_by (fun r => r) h)
    by apply well_formed_acyclic, fan_in_well_formed.
  assert (Hl : 5 < 6) by lia.
  split; [exact Ha|]. split; [exact Hl|].
  exact (trace_nodes_and_edges h (fun r => r) 5 6 Ha Hl).
Defined.

Lemma MLP_call_values_witness :
  let h := (Value.make small_net.1.1 [1%R]).1 in
  let order := fun _ _ : ref => false in
  (forall p, p ∈ MLP.parameters small_net.2 -> p < length h) /\
  (forall x, x ∈ [4] -> x < length h) /\
  let r := MLP.__call__ order h small_net.2 [4] in
  Value.val_of r.1 <$> r.2
  = network_output h small_net.2 (Value.val_of h <$> [4]) /\
  (exists k, frame k h r.1) /\
  (forall o, o ∈ r.2 -> o < length r.1).
Proof.
  intros h order.
  assert (Hp : forall p, p ∈ MLP.parameters small_net.2 -> p < length h).
  { intros p Hp.
    destruct (MLP_init_parameters (fun _ => (1 / 2)%R) ([], 0) 1 1 0 1)
      as [_ Hrange].
    specialize (Hrange p Hp). cbn in *. lia. }
  assert (Hx : forall x, x ∈ [4] -> x < length h).
  { intros x Hx. apply list_elem_of_singleton in Hx as ->. cbn. lia. }
  split; [exact Hp|]. split; [exact Hx|].
  exact (MLP_call_values order h small_net.2 [4] Hp Hx).
Defined.

Lemma grad_dict_after_backprop_witness :
  let h := (labelled_product_graph false).1 in
  built h /\ 2 < length h /\ 2 < 3 /\
  (forall n, reachable h 2 n ->
     accumulates (Value.backward_of h n) /\ pow_safe h n) /\
  enumerates elements /\
  (forall d, descendant h 2 d ->
     exists l, Value.label_of h d = Some l /\ l <> "") /\
  labels_distinct h 2 /\
  exists h' m,
    Value.backprop 3 h 2 = Ok h' /\
    Value.grad_dict 3 elements h' 2 = Ok m /\
    (forall d l, descendant h 2 d -> Value.label_of h d = Some l ->
       m !! l = Some (total_derivative h 2 d)) /\
    (forall l g, m !! l = Some g ->
       exists d, descendant h 2 d /\ Value.label_of h d = Some l).
Proof.
  intros h.
  assert (Hb : built h) by apply labelled_product_built.
  assert (Hr : 2 < length h) by (cbn; lia).
  assert (Hl : 2 < 3) by lia.
  assert (Ha : forall n, reachable h 2 n ->
            accumulates (Value.backward_of h n) /\ pow_safe h n).
  { intros [|[|[|n]]] _; unfold pow_safe; cbn; done. }
  assert (Hlab : forall d, descendant h 2 d ->
            exists l, Value.label_of h d = Some l /\ l <> "").
  { intros d Hd.
    apply (descendant_below _ _ _ labelled_product_well_formed) in Hd.
    destruct d as [|[|d]]; [by exists "x" | by exists "y" | lia]. }
  assert (Hu : labels_distinct h 2) by apply labelled_product_labels.
  split_and!; try assumption; [exact enumerates_elements|].
  exact (grad_dict_after_backprop h 2 3 elements Hb Hr Hl Ha
           enumerates_elements Hlab Hu).
Defined.

Lemma trace_nodes_are_root_and_descendants_witness :
  let h := (fan_in_graph false false false).1 in
  acyclic_by (fun r => r) h /\ 5 < 6 /\
  exists nodes edges (s : gset ref),
    draw.trace 6 h 5 = Ok (nodes, edges) /\
    Value.get_descendants 6 h 5 false = Ok s /\
    nodes = {[5]} ∪ s /\
    (forall c p, (c, p) ∈ edges -> (p = 5 \/ p ∈ s) /\ c ∈ s).
Proof.
  intros h.
  assert (Ha : acyclic_by (fun r => r) h)
    by apply well_formed_acyclic, fan_in_well_formed.
  assert (Hl : 5 < 6) by lia.
  split; [exact Ha|]. split; [exact Hl|].
  exact (trace_nodes_are_root_and_descendants h (fun r => r) 5 6 Ha Hl).
Defined.

Lemma backprop_returns_without_power_witness :
  let h := labelled_tanh_graph.1 in
  acyclic_by (fun r => r) h /\ 1 < 2 /\
  (forall n, reachable h 1 n ->
     (forall s k o, Value.backward_of h n <> bw_pow s k o) /\
     tanh_captured h n) /\
  exists h', Value.backprop 2 h 1 = Ok h'.
Proof.
  intros h.
  assert (Ha : acyclic_by (fun r => r) h)
    by apply well_formed_acyclic, labelled_tanh_well_formed.
  assert (Hl : 1 < 2) by lia.
  assert (Hn : forall n, reachable h 1 n ->
            (forall s k o, Value.backward_of h n <> bw_pow s k o) /\
            tanh_captured h n).
  { intros [|[|n]] _; unfold tanh_captured, h; cbn; split; try done.
    by eexists. }
  split; [exact Ha|]. split; [exact Hl|]. split; [exact Hn|].
  exact (backprop_returns_without_power h (fun r => r) 1 2 Ha Hl Hn).
Defined.

(** An exp root at the top of the float range: [recompute] evaluates
    [math.exp] of the root's own value, and [naive_backprop] raises
    OverflowError at the first labelled descendant, whatever the step. *)
Example naive_backprop_exp_overflows :
  exists h,
    saturated_exp_graph = Ok (h, 1) /\
    Value.val_of h 1 = float_max /\
    forall limit step, 1 < limit ->
      Value.naive_backprop limit elements h 1 step = Raise OverflowError.
Proof.
  unfold saturated_exp_graph, Value.exp. cbn.
  rewrite math_exp_ln_float_max. cbn.
  eexists. split; [reflexivity|]. split; [reflexivity|].
  intros limit step Hlim.
  match goal with
  | |- Value.naive_backprop _ _ ?h0 _ _ = _ => set (h := h0)
  end.
  assert (Hwf : well_formed h).
  { intros [|[|i]]; unfold node_shape; cbn; split_and!; try done; lia. }
  assert (Hd : descendant h 1 0).
  { apply tc_once. unfold child. cbn. left. }
  apply (naive_backprop_raises limit elements h (fun r => r)).
  - by apply well_formed_acyclic.
  - done.
  - apply enumerates_elements.
  - exists 0, "x". by split.
  - intros m. rewrite recompute_activation; try done.
    + unfold reapplied. cbn. apply math_exp_float_max.
    + right. right. right. reflexivity.
    + intros n Hn. apply (descendant_below _ _ _ Hwf) in Hn.
      destruct n as [|n]; [exact I | lia].
Qed.
